(** * vue-router: the navigation transition engine, its queue runner,
      route model, query codec and locations

    A shallow embedding of [src/util/query.js], [src/util/route.js],
    [src/util/location.js], [src/util/params.js], [src/util/async.js],
    [src/util/warn.js], [src/history/base.js] and of the hook registries of
    [src/index.js], followed by the properties proved of them.

    Conventions of the embedding.
    - A JavaScript string is a [string]: the sequence of bytes of its UTF-8
      form.  Every pattern the code matches on is ASCII, so the string
      operations act on bytes exactly as they act on characters.
    - An object reference (a route, a route record) carries a natural number
      that stands for its identity; [===] on references compares it.
    - A function supplied by the application (a guard, a callback) is a
      reference too.  What a guard does when it is called is given by an
      oracle: it calls [next] once before it returns, or throws, or returns
      and keeps [next], which may then be called at any later time.  A
      callback only observes: its call is an event of the log.
    - The methods the sub-classes of [History] implement ([ensureURL],
      [push], [replace]) are events of the log as well; the record of a
      call ends where it calls [push] or [replace].
    - Code in continuation-passing style is kept in that style: a
      continuation is a computation of the monad [M] below, and the
      continuations that guards keep are part of the outcome of a call.
    - Functions of files that are not among the sources ([parsePath],
      [resolvePath], [Regexp.compile]) are variables of a section: what is
      proved holds for any functions of their types. *)

From Stdlib Require Import List String Ascii Bool Arith Lia DecimalString DecimalNat Sorted.
Import ListNotations.

Set Warnings "-register-all".

Local Open Scope string_scope.
Local Open Scope nat_scope.
Local Open Scope list_scope.

(* ================================================================== *)
(** * Part I: the embedding *)
(* ================================================================== *)

(** ** Strings *)

(** [s.length > 0], the truthiness of a string. *)
Definition nonempty (s : string) : bool :=
  match s with EmptyString => false | String _ _ => true end.

(** [s.split(sep)] for a one-character separator: never the empty list,
    [''.split('&')] is [['']]. *)
Fixpoint split_on (sep : ascii) (s : string) : list string :=
  match s with
  | EmptyString => [EmptyString]
  | String c rest =>
      if Ascii.eqb c sep then EmptyString :: split_on sep rest
      else match split_on sep rest with
           | [] => [String c EmptyString]
           | hd :: tl => String c hd :: tl
           end
  end.

(** [parts.join(sep)]. *)
Fixpoint join (sep : string) (parts : list string) : string :=
  match parts with
  | [] => EmptyString
  | [p] => p
  | p :: rest => (p ++ sep ++ join sep rest)%string
  end.

(** [s.replace(/c/g, d)] for single characters. *)
Fixpoint replace_char (c d : ascii) (s : string) : string :=
  match s with
  | EmptyString => EmptyString
  | String x rest => String (if Ascii.eqb x c then d else x) (replace_char c d rest)
  end.

(** [s.indexOf(t) > -1]. *)
Fixpoint contains (t s : string) : bool :=
  String.prefix t s ||
  match s with
  | EmptyString => false
  | String _ rest => contains t rest
  end.

Fixpoint string_rev_onto (s acc : string) : string :=
  match s with
  | EmptyString => acc
  | String c rest => string_rev_onto rest (String c acc)
  end.

Definition string_rev (s : string) : string := string_rev_onto s EmptyString.

(** White space and line terminators of ECMAScript, as UTF-8 byte
    sequences: TAB, LF, VT, FF, CR, SP, U+00A0, U+1680, U+2000..U+200A,
    U+2028, U+2029, U+202F, U+205F, U+3000, U+FEFF. *)
Definition white_space : list string :=
  map (fun l => string_of_list_ascii (map ascii_of_nat l))
    ([[9]; [10]; [11]; [12]; [13]; [32]; [194; 160]; [225; 154; 128]]
     ++ map (fun k => [226; 128; 128 + k]) (seq 0 11)
     ++ [[226; 128; 168]; [226; 128; 169]; [226; 128; 175]; [226; 129; 159];
         [227; 128; 128]; [239; 187; 191]]).

(** The rest of [s] after one leading sequence among [ws], if any. *)
Fixpoint strip_one (ws : list string) (s : string) : option string :=
  match ws with
  | [] => None
  | w :: ws' =>
      if String.prefix w s
      then Some (substring (String.length w) (String.length s - String.length w) s)
      else strip_one ws' s
  end.

Fixpoint trim_start_fuel (fuel : nat) (ws : list string) (s : string) : string :=
  match fuel with
  | 0 => s
  | S fuel' =>
      match strip_one ws s with
      | Some rest => trim_start_fuel fuel' ws rest
      | None => s
      end
  end.

(** [s.trimStart()]: each stripped sequence is at least one byte, so
    [length s] rounds are enough. *)
Definition trim_start (ws : list string) (s : string) : string :=
  trim_start_fuel (String.length s) ws s.

(** [s.trim()]. *)
Definition trim (s : string) : string :=
  string_rev (trim_start (map string_rev white_space)
                (string_rev (trim_start white_space s))).

(** ** Values held by a query or params dictionary *)

Inductive QVal : Type :=
| QUndefined
| QNull
| QString (s : string)
| QArray (items : list QVal)
| QObject (props : list (string * QVal))
| QNative (name : string).
(** [QNative name] is the built-in method [Object.prototype[name]], which
    every plain object inherits.  Numbers and booleans are not part of the
    model: a dictionary is a [Dictionary<string>] in the source. *)

(** The own enumerable properties of an object, in the order [Object.keys]
    lists them.  A well-formed dictionary has no key twice.  A new key is
    added at the end; that an engine lists integer-like keys before the
    others is not part of the model. *)
Definition Dictionary : Type := list (string * QVal).

(** A thrown exception, or a value. *)
Inductive Completion (A : Type) : Type :=
| Normal (a : A)
| Throw (error : string).
Arguments Normal {A} a.
Arguments Throw {A} error.

Definition typeof (v : QVal) : string :=
  match v with
  | QUndefined => "undefined"
  | QString _ => "string"
  | QNative _ => "function"
  | QNull | QArray _ | QObject _ => "object"
  end.

Definition truthy (v : QVal) : bool :=
  match v with
  | QUndefined | QNull => false
  | QString s => nonempty s
  | _ => true
  end.

(** The property name of an array index. *)
Definition index_key (i : nat) : string := NilEmpty.string_of_uint (Nat.to_uint i).

(** [String(v)]. *)
Fixpoint toString (v : QVal) : string :=
  match v with
  | QUndefined => "undefined"
  | QNull => "null"
  | QString s => s
  | QArray items =>
      join "," (map (fun x => match x with
                              | QUndefined | QNull => ""
                              | _ => toString x
                              end) items)
  | QObject _ => "[object Object]"
  | QNative name => ("function " ++ name ++ "() { [native code] }")%string
  end.

(** The names every object inherits from [Object.prototype]. *)
Definition Object_prototype : list string :=
  ["constructor"; "__defineGetter__"; "__defineSetter__"; "hasOwnProperty";
   "__lookupGetter__"; "__lookupSetter__"; "isPrototypeOf";
   "propertyIsEnumerable"; "toString"; "valueOf"; "__proto__";
   "toLocaleString"].

Definition inherited (key : string) : QVal :=
  if String.eqb key "__proto__" then QObject []
  else if existsb (String.eqb key) Object_prototype then QNative key
  else QUndefined.

Fixpoint own (props : Dictionary) (key : string) : option QVal :=
  match props with
  | [] => None
  | (k, v) :: rest => if String.eqb k key then Some v else own rest key
  end.

Fixpoint item_at (i : nat) (items : list QVal) (key : string) : option QVal :=
  match items with
  | [] => None
  | x :: rest => if String.eqb (index_key i) key then Some x else item_at (S i) rest key
  end.

Fixpoint chars (s : string) : list QVal :=
  match s with
  | EmptyString => []
  | String c rest => QString (String c EmptyString) :: chars rest
  end.

(** [obj[key]]: an own property, else what the prototype gives.  Of the
    prototypes only [Object.prototype] is modelled ([length] and the methods
    of arrays and strings read as [undefined]). *)
Definition get (obj : QVal) (key : string) : QVal :=
  let own_value :=
    match obj with
    | QObject props => own props key
    | QArray items => item_at 0 items key
    | QString s => item_at 0 (chars s) key
    | _ => None
    end in
  match own_value with
  | Some v => v
  | None => inherited key
  end.

(** [Object.keys(obj)]. *)
Definition keys (obj : QVal) : list string :=
  match obj with
  | QObject props => map fst props
  | QArray items => map index_key (seq 0 (List.length items))
  | QString s => map index_key (seq 0 (String.length s))
  | _ => []
  end.

Fixpoint update (props : Dictionary) (key : string) (v : QVal) : Dictionary :=
  match props with
  | [] => [(key, v)]
  | (k, x) :: rest =>
      if String.eqb k key then (k, v) :: rest else (k, x) :: update rest key v
  end.

(** [obj[key] = v] on a plain object.  Assigning [__proto__] runs the
    setter of [Object.prototype] and creates no own property (the change of
    prototype itself is outside the model). *)
Definition assign (props : Dictionary) (key : string) (v : QVal) : Dictionary :=
  if String.eqb key "__proto__" then props else update props key v.

(** ** The query codec ([src/util/query.js]) *)

Definition in_range (lo hi : nat) (c : ascii) : bool :=
  (lo <=? nat_of_ascii c) && (nat_of_ascii c <=? hi).

Definition one_of (set : string) (c : ascii) : bool :=
  existsb (Ascii.eqb c) (list_ascii_of_string set).

(** The characters [encodeURIComponent] leaves as they are. *)
Definition unreserved (c : ascii) : bool :=
  in_range 65 90 c || in_range 97 122 c || in_range 48 57 c
  || one_of "-_.!~*'()" c.

Definition hex_digit (upper : bool) (n : nat) : ascii :=
  if n <? 10 then ascii_of_nat (48 + n)
  else ascii_of_nat ((if upper then 55 else 87) + n).

(** [n.toString(16)] for a character code (below 256). *)
Definition toString16 (n : nat) : string :=
  if n <? 16 then String (hex_digit false n) EmptyString
  else String (hex_digit false (n / 16))
         (String (hex_digit false (n mod 16)) EmptyString).

(** The built-in [encodeURIComponent] on the UTF-8 form of a well-formed
    string: every byte that is not unreserved becomes [%XX], upper case. *)
Fixpoint encodeURIComponent (s : string) : string :=
  match s with
  | EmptyString => EmptyString
  | String c rest =>
      let n := nat_of_ascii c in
      if unreserved c then String c (encodeURIComponent rest)
      else String "%" (String (hex_digit true (n / 16))
             (String (hex_digit true (n mod 16)) (encodeURIComponent rest)))
  end.

Definition hex_value (c : ascii) : option nat :=
  if in_range 48 57 c then Some (nat_of_ascii c - 48)
  else if in_range 65 70 c then Some (nat_of_ascii c - 55)
  else if in_range 97 102 c then Some (nat_of_ascii c - 87)
  else None.

(** The built-in [decodeURIComponent]: [%XX] becomes the byte [XX], a [%]
    not followed by two hexadecimal digits raises [URIError].  The built-in
    also raises [URIError] when the decoded bytes are not UTF-8; that check is
    not part of the model, which is exact on what [encodeURIComponent]
    produces. *)
Fixpoint decodeURIComponent (s : string) : Completion string :=
  match s with
  | EmptyString => Normal EmptyString
  | String c rest =>
      if Ascii.eqb c "%" then
        match rest with
        | String h (String l rest') =>
            match hex_value h, hex_value l, decodeURIComponent rest' with
            | Some x, Some y, Normal r =>
                Normal (String (ascii_of_nat (16 * x + y)) r)
            | Some _, Some _, Throw e => Throw e
            | _, _, _ => Throw "URIError"
            end
        | _ => Throw "URIError"
        end
      else
        match decodeURIComponent rest with
        | Normal r => Normal (String c r)
        | Throw e => Throw e
        end
  end.

(** [const encodeReserveRE = /[!'()*]/g]. *)
Definition encodeReserveRE (c : ascii) : bool := one_of "!'()*" c.

(** [const encodeReserveReplacer = c => '%' + c.charCodeAt(0).toString(16)]. *)
Definition encodeReserveReplacer (c : ascii) : string :=
  String "%" (toString16 (nat_of_ascii c)).

(** [str.replace(encodeReserveRE, encodeReserveReplacer)]. *)
Fixpoint replace_reserve (s : string) : string :=
  match s with
  | EmptyString => EmptyString
  | String c rest =>
      if encodeReserveRE c
      then (encodeReserveReplacer c ++ replace_reserve rest)%string
      else String c (replace_reserve rest)
  end.

(** [str.replace(commaRE, ',')] with [const commaRE = /%2C/g]. *)
Fixpoint replace_comma (s : string) : string :=
  match s with
  | EmptyString => EmptyString
  | String c rest =>
      if Ascii.eqb c "%" then
        match rest with
        | String d (String e rest') =>
            if Ascii.eqb d "2" && Ascii.eqb e "C"
            then String "," (replace_comma rest')
            else String c (replace_comma rest)
        | _ => String c (replace_comma rest)
        end
      else String c (replace_comma rest)
  end.

Definition encode (str : string) : string :=
  replace_comma (replace_reserve (encodeURIComponent str)).

Definition decode : string -> Completion string := decodeURIComponent.

(** [query.replace(/^(\?|#|&)/, '')]. *)
Definition strip_lead (query : string) : string :=
  match query with
  | String c rest => if one_of "?#&" c then rest else query
  | EmptyString => query
  end.

(** The progressive typing of [parseQuery]: undefined, then the value,
    then an array. *)
Definition store (res : Dictionary) (key : string) (val : QVal) : Dictionary :=
  match get (QObject res) key with
  | QUndefined => assign res key val
  | QArray items => assign res key (QArray (items ++ [val]))
  | old => assign res key (QArray [old; val])
  end.

(** The body of the [forEach] of [parseQuery]. *)
Definition parse_param (res : Dictionary) (param : string) : Completion Dictionary :=
  let parts := split_on "=" (replace_char "+" " " param) in
  let first := match parts with [] => "undefined" | p :: _ => p end in
  let parts := tl parts in
  match decode first with
  | Throw e => Throw e
  | Normal key =>
      match parts with
      | [] => Normal (store res key QNull)
      | _ => match decode (join "=" parts) with
             | Throw e => Throw e
             | Normal val => Normal (store res key (QString val))
             end
      end
  end.

Definition parseQuery (query : string) : Completion Dictionary :=
  let query := strip_lead (trim query) in
  if negb (nonempty query) then Normal []
  else fold_left (fun res param =>
                    match res with
                    | Normal res => parse_param res param
                    | Throw e => Throw e
                    end)
         (split_on "&" query) (Normal []).

(** The segment [stringifyQuery] writes for one key. *)
Definition stringify_key (key : string) (val : QVal) : string :=
  match val with
  | QUndefined => ""
  | QNull => encode key
  | QArray items =>
      join "&"
        (flat_map (fun val2 =>
                     match val2 with
                     | QUndefined => []
                     | QNull => [encode key]
                     | _ => [(encode key ++ "=" ++ encode (toString val2))%string]
                     end) items)
  | _ => (encode key ++ "=" ++ encode (toString val))%string
  end.

Definition stringifyQuery (obj : QVal) : string :=
  if truthy obj then
    let res := join "&" (filter nonempty
                           (map (fun key => stringify_key key (get obj key)) (keys obj))) in
    if nonempty res then String "?" res else ""
  else "".

(** ** Route records and routes ([src/util/route.js]) *)

(** References to functions of the application and to view instances. *)
Definition GuardRef : Type := nat.
Definition Callback : Type := nat.
Definition Instance : Type := nat.

(** What the options of a component hold under a guard name: nothing, a
    guard, or (after a merge of mixins) an array of guards. *)
Inductive GuardOption : Type :=
| NoGuard
| OneGuard (guard : GuardRef)
| ManyGuards (guards : list GuardRef).

(** A view definition, by the options of its constructor (what
    [_Vue.extend(def).options] is indexed on). *)
Record ComponentDef : Type := mkComponentDef {
  options : list (string * GuardOption)
}.

Inductive RouteRecord : Type := mkRouteRecord {
  record_ref : nat;
  record_path : string;
  record_name : option string;
  record_meta : Dictionary;
  parent : option RouteRecord;
  beforeEnter : option GuardRef;
  components : list (string * ComponentDef);
  instances : list (string * Instance)
}.

(** [m1 === m2] on route records. *)
Definition same_record (m1 m2 : RouteRecord) : bool :=
  record_ref m1 =? record_ref m2.

Record Location : Type := mkLocation {
  loc_name : option string;
  loc_path : option string;
  loc_hash : option string;
  loc_query : QVal;
  loc_params : QVal;
  loc_replace : bool
}.

Record Route : Type := mkRoute {
  route_ref : nat;
  name : option string;
  meta : Dictionary;
  path : string;
  hash : string;
  query : QVal;
  params : QVal;
  fullPath : string;
  matched : list RouteRecord;
  redirectedFrom : option string
}.

(** [r1 === r2] on routes. *)
Definition same_route (r1 r2 : Route) : bool := route_ref r1 =? route_ref r2.

(** [x || d] on an optional string: the empty string is falsy. *)
Definition or_string (x : option string) (d : string) : string :=
  match x with
  | Some s => if nonempty s then s else d
  | None => d
  end.

Definition truthy_string (x : option string) : bool :=
  match x with Some s => nonempty s | None => false end.

Fixpoint clone (value : QVal) : QVal :=
  match value with
  | QArray items => QArray (map clone items)
  | QObject props =>
      QObject ((fix each (props : Dictionary) (res : Dictionary) : Dictionary :=
                  match props with
                  | [] => res
                  | (key, v) :: rest => each rest (assign res key (clone v))
                  end) props [])
  | _ => value
  end.

(** The loop of [formatMatch]: [res.unshift(record); record = record.parent]. *)
Fixpoint formatMatch_loop (record : RouteRecord) (res : list RouteRecord) : list RouteRecord :=
  match record with
  | mkRouteRecord _ _ _ _ up _ _ _ =>
      match up with
      | Some p => formatMatch_loop p (record :: res)
      | None => record :: res
      end
  end.

Definition formatMatch (record : option RouteRecord) : list RouteRecord :=
  match record with
  | Some r => formatMatch_loop r []
  | None => []
  end.

Definition getFullPath (location : Location)
    (_stringifyQuery : option (QVal -> string)) : string :=
  let query := match loc_query location with QUndefined => QObject [] | q => q end in
  let hash := match loc_hash location with None => "" | Some h => h end in
  let stringify := match _stringifyQuery with Some f => f | None => stringifyQuery end in
  (or_string (loc_path location) "/" ++ stringify query ++ hash)%string.

(** [createRoute(record, location, redirectedFrom, router)]; [ref] is the
    identity of the object the call allocates, [stringify] is
    [router && router.options.stringifyQuery]. *)
Definition createRoute (ref : nat) (record : option RouteRecord)
    (location : Location) (redirectedFrom : option Location)
    (stringify : option (QVal -> string)) : Route :=
  let query := if truthy (loc_query location) then loc_query location else QObject [] in
  let query := clone query in
  {| route_ref := ref;
     name := if truthy_string (loc_name location) then loc_name location
             else match record with Some r => record_name r | None => None end;
     meta := match record with Some r => record_meta r | None => [] end;
     path := or_string (loc_path location) "/";
     hash := or_string (loc_hash location) "";
     query := query;
     params := if truthy (loc_params location) then loc_params location else QObject [];
     fullPath := getFullPath location stringify;
     matched := formatMatch record;
     redirectedFrom :=
       match redirectedFrom with
       | Some from => Some (getFullPath from stringify)
       | None => None
       end |}.

(** [export const START = createRoute(null, { path: '/' })]: the first
    object of the program, reference [0]. *)
Definition START : Route :=
  createRoute 0 None
    {| loc_name := None; loc_path := Some "/"; loc_hash := None;
       loc_query := QUndefined; loc_params := QUndefined; loc_replace := false |}
    None None.

(** [path.replace(trailingSlashRE, '')] with [trailingSlashRE = /\/?$/]:
    the first match is a final slash if there is one, else the empty match
    at the end. *)
Fixpoint strip_trailing_slash (s : string) : string :=
  match s with
  | EmptyString => EmptyString
  | String c rest =>
      match rest with
      | EmptyString => if Ascii.eqb c "/" then EmptyString else s
      | _ => String c (strip_trailing_slash rest)
      end
  end.

(** [a === b] when one of the two is falsy: equal primitives. *)
Definition strict_equal (a b : QVal) : bool :=
  match a, b with
  | QUndefined, QUndefined | QNull, QNull => true
  | QString s, QString t => String.eqb s t
  | _, _ => false
  end.

Definition is_object (v : QVal) : bool := String.eqb (typeof v) "object".

(** [isObjectEqual(a = {}, b = {})].  [every] runs over the own
    properties of [a], each with its key and value [a[key]]. *)
Fixpoint isObjectEqual (a b : QVal) {struct a} : bool :=
  let b := match b with QUndefined => QObject [] | _ => b end in
  let sameCount (n : nat) := n =? List.length (keys b) in
  match a with
  | QNull => strict_equal a b
  | QString s =>
      if nonempty s && truthy b then
        sameCount (String.length s)
        && (fix every (i : nat) (items : list QVal) : bool :=
              match items with
              | [] => true
              | aVal :: rest =>
                  String.eqb (toString aVal) (toString (get b (index_key i)))
                  && every (S i) rest
              end) 0 (chars s)
      else strict_equal a b
  | QArray items =>
      truthy b && sameCount (List.length items)
      && (fix every (i : nat) (items : list QVal) : bool :=
            match items with
            | [] => true
            | aVal :: rest =>
                (let bVal := get b (index_key i) in
                 if is_object aVal && is_object bVal then isObjectEqual aVal bVal
                 else String.eqb (toString aVal) (toString bVal))
                && every (S i) rest
            end) 0 items
  | QObject props =>
      truthy b && sameCount (List.length props)
      && (fix every (props : Dictionary) : bool :=
            match props with
            | [] => true
            | (key, aVal) :: rest =>
                (let bVal := get b key in
                 if is_object aVal && is_object bVal then isObjectEqual aVal bVal
                 else String.eqb (toString aVal) (toString bVal))
                && every rest
            end) props
  | QUndefined | QNative _ => truthy b && sameCount 0
  end.

Definition isSameRoute (a : Route) (b : option Route) : bool :=
  match b with
  | None => false
  | Some b =>
      if same_route b START then same_route a b
      else if nonempty (path a) && nonempty (path b) then
        String.eqb (strip_trailing_slash (path a)) (strip_trailing_slash (path b))
        && String.eqb (hash a) (hash b)
        && isObjectEqual (query a) (query b)
      else if truthy_string (name a) && truthy_string (name b) then
        match name a, name b with
        | Some na, Some nb => String.eqb na nb
        | _, _ => false
        end
        && String.eqb (hash a) (hash b)
        && isObjectEqual (query a) (query b)
        && isObjectEqual (params a) (params b)
      else false
  end.

(** [path.replace(trailingSlashRE, '/')]: the first match of [/\/?$/] is a
    final slash if there is one, which is replaced by itself, else the empty
    match at the end, where a slash is put. *)
Fixpoint end_with_slash (s : string) : string :=
  match s with
  | EmptyString => "/"
  | String c rest =>
      match rest with
      | EmptyString => if Ascii.eqb c "/" then s else String c "/"
      | _ => String c (end_with_slash rest)
      end
  end.

(** [key in obj] on a plain object: an own property, or a member of
    [Object.prototype]. *)
Definition has_property (props : Dictionary) (key : string) : bool :=
  match own props key with
  | Some _ => true
  | None => existsb (String.eqb key) Object_prototype
  end.

(** [queryIncludes(current, target)] on two dictionaries, as its signature
    has them: the loop runs over the keys of [target] and reads no value. *)
Definition queryIncludes (current target : Dictionary) : bool :=
  forallb (has_property current) (map fst target).

(** A query that is a plain object.  [in] on an array or a function would
    also look into [Array.prototype] or [Function.prototype], which the model
    does not hold. *)
Definition plain_object (q : QVal) : option Dictionary :=
  match q with
  | QObject props => Some props
  | _ => None
  end.

(** [isIncludedRoute(current, target)]; [s.indexOf(t) === 0] says that [t]
    is a prefix of [s].  The tests are made from left to right, so the queries
    are read only when the paths and the hashes pass; the answer is [None]
    when they are read and one of them is not a plain object. *)
Definition isIncludedRoute (current target : Route) : option bool :=
  if negb (String.prefix (end_with_slash (path target)) (end_with_slash (path current)))
  then Some false
  else if negb (negb (nonempty (hash target)) || String.eqb (hash current) (hash target))
  then Some false
  else match plain_object (query current), plain_object (query target) with
       | Some c, Some t => Some (queryIncludes c t)
       | _, _ => None
       end.

(** ** The queue runner ([src/util/async.js]) *)

Section RunQueue.

Context {A R : Type}.

(** [queue] holds guards or [undefined]; [fn] receives an item and the
    continuation [() => step(index + 1)]; [R] is the type of what the
    calls do. *)
Variables (queue : list (option A)) (fn : A -> R -> R) (cb : R).

(** [step(index)], by recursion on [remaining = queue.length - index]:
    at [0] the test [index >= queue.length] holds. *)
Fixpoint step (remaining index : nat) : R :=
  match remaining with
  | 0 => cb
  | S remaining' =>
      match nth_error queue index with
      | Some (Some item) => fn item (step remaining' (S index))
      | _ => step remaining' (S index)
      end
  end.

Definition runQueue : R := step (List.length queue) 0.

End RunQueue.

(** ** The difference of two matched chains ([resolveQueue]) *)

(** [current[i] !== next[i]]: out of range both read [undefined]. *)
Definition differ (x y : option RouteRecord) : bool :=
  match x, y with
  | Some m1, Some m2 => negb (same_record m1 m2)
  | None, None => false
  | _, _ => true
  end.

(** The [for] loop of [resolveQueue] from [i], with [remaining = max - i]
    rounds to go; the result is the final [i]. *)
Fixpoint resolveQueue_loop (current next : list RouteRecord) (remaining i : nat) : nat :=
  match remaining with
  | 0 => i
  | S remaining' =>
      if differ (nth_error current i) (nth_error next i) then i
      else resolveQueue_loop current next remaining' (S i)
  end.

Record Resolved : Type := mkResolved {
  updated : list RouteRecord;
  activated : list RouteRecord;
  deactivated : list RouteRecord
}.

Definition resolveQueue (current next : list RouteRecord) : Resolved :=
  let max := Nat.max (List.length current) (List.length next) in
  let i := resolveQueue_loop current next max 0 in
  {| updated := firstn i next;
     activated := skipn i next;
     deactivated := skipn i current |}.

(** ** The state of a history and what a call does ([src/history/base.js]) *)

Inductive RawLocation : Type :=
| RawPath (s : string)
| RawObject (l : Location).

(** What a guard may pass to [next], and what may be thrown. *)
Inductive NextArg : Type :=
| NUndefined
| NNull
| NBool (flag : bool)
| NString (s : string)
| NError (message : string)
| NFunction (f : Callback)
| NObject (l : Location).

Definition typeof_arg (to : NextArg) : string :=
  match to with
  | NUndefined => "undefined"
  | NBool _ => "boolean"
  | NString _ => "string"
  | NFunction _ => "function"
  | NNull | NError _ | NObject _ => "object"
  end.

(** [Object.prototype.toString.call(err)]. *)
Definition Object_prototype_toString (err : NextArg) : string :=
  match err with
  | NUndefined => "[object Undefined]"
  | NNull => "[object Null]"
  | NBool _ => "[object Boolean]"
  | NString _ => "[object String]"
  | NError _ => "[object Error]"
  | NFunction _ => "[object Function]"
  | NObject _ => "[object Object]"
  end.

(** [isError] of [src/util/warn.js]. *)
Definition isError (err : NextArg) : bool :=
  contains "Error" (Object_prototype_toString err).

Definition truthy_arg (err : NextArg) : bool :=
  match err with
  | NUndefined | NNull => false
  | NBool flag => flag
  | NString s => nonempty s
  | _ => true
  end.

(** The router, as far as the history reads it.

    Modelled from the spec: [router_match] is the route table's
    [match(rawLocation, currentRoute) -> Route], a pure function of the
    matcher ([create-matcher.js]), which is not among the sources. *)
Record Router : Type := mkRouter {
  router_app : bool;
  beforeHooks : list (option GuardRef);
  resolveHooks : list (option GuardRef);
  afterHooks : list (option Callback);
  router_match : RawLocation -> Route -> Route
}.

Record History : Type := mkHistory {
  router : Router;
  current : Route;
  pending : option Route;
  ready : bool;
  readyCbs : list Callback;
  readyErrorCbs : list Callback;
  errorCbs : list Callback;
  cb : option Callback
}.

(** What the program does that its environment can see. *)
Inductive Event : Type :=
| EnsureURL (push : bool)
| Push (location : RawLocation)
| Replace (location : RawLocation)
| GuardCalled (guard : GuardRef) (this : option Instance) (to from : Route)
| ResolveAsync (activated : list RouteRecord) (to from : Route)
| Complete (f : Callback) (route : Route)
| Abort (f : Callback) (err : NextArg)
| ErrorCb (f : Callback) (err : NextArg)
| ConsoleWarn (message : string)
| ConsoleError (err : NextArg)
| ReadyCb (f : Callback) (route : option Route)
| ReadyErrorCb (f : Callback) (err : NextArg)
| Listener (f : Callback) (route : Route)
| AfterHook (f : Callback) (route prev : Route)
| NextTick (route : Route)
| PostEnter (f : Callback) (record : RouteRecord) (key : string).

(** The outcome of a call: the state it leaves, the events in order, the
    continuations that guards have kept for later instead of calling them,
    and the exception that ended the call, if one did. *)
Inductive Outcome : Type :=
| Out (state : History) (log : list Event)
      (held : list (NextArg -> History -> Outcome)) (thrown : option NextArg).

Definition M : Type := History -> Outcome.

Definition state_of (o : Outcome) : History := let 'Out h _ _ _ := o in h.
Definition log_of (o : Outcome) : list Event := let 'Out _ l _ _ := o in l.
Definition held_of (o : Outcome) : list (NextArg -> M) := let 'Out _ _ k _ := o in k.
Definition thrown_of (o : Outcome) : option NextArg := let 'Out _ _ _ e := o in e.

Definition ret : M := fun h => Out h [] [] None.

(** [m1; m2]: the second statement runs unless the first throws. *)
Definition andThen (m1 m2 : M) : M :=
  fun h =>
    match m1 h with
    | Out h1 l1 k1 None =>
        let 'Out h2 l2 k2 e := m2 h1 in Out h2 (l1 ++ l2) (k1 ++ k2) e
    | o => o
    end.

Notation "m1 ;; m2" := (andThen m1 m2) (at level 61, right associativity).

Definition emit (e : Event) : M := fun h => Out h [e] [] None.

Definition throw (e : NextArg) : M := fun h => Out h [] [] (Some e).

(** [try { m } catch (e) { handler(e) }]. *)
Definition try_catch (m : M) (handler : NextArg -> M) : M :=
  fun h =>
    match m h with
    | Out h1 l1 k1 (Some e) =>
        let 'Out h2 l2 k2 e2 := handler e h1 in Out h2 (l1 ++ l2) (k1 ++ k2) e2
    | o => o
    end.

(** A guard returns and keeps [next] to call it later. *)
Definition hold (next : NextArg -> M) : M := fun h => Out h [] [next] None.

Definition modify (f : History -> History) : M := fun h => Out (f h) [] [] None.

(** [list.forEach(f)]. *)
Fixpoint forEach {A : Type} (l : list A) (f : A -> M) : M :=
  match l with
  | [] => ret
  | x :: rest => f x ;; forEach rest f
  end.

Definition set_current (route : Route) (h : History) : History :=
  mkHistory (router h) route (pending h) (ready h) (readyCbs h)
            (readyErrorCbs h) (errorCbs h) (cb h).

Definition set_pending (p : option Route) (h : History) : History :=
  mkHistory (router h) (current h) p (ready h) (readyCbs h)
            (readyErrorCbs h) (errorCbs h) (cb h).

Definition set_ready (flag : bool) (h : History) : History :=
  mkHistory (router h) (current h) (pending h) flag (readyCbs h)
            (readyErrorCbs h) (errorCbs h) (cb h).

Definition set_readyCbs (l : list Callback) (h : History) : History :=
  mkHistory (router h) (current h) (pending h) (ready h) l
            (readyErrorCbs h) (errorCbs h) (cb h).

Definition set_readyErrorCbs (l : list Callback) (h : History) : History :=
  mkHistory (router h) (current h) (pending h) (ready h) (readyCbs h)
            l (errorCbs h) (cb h).

Definition set_errorCbs (l : list Callback) (h : History) : History :=
  mkHistory (router h) (current h) (pending h) (ready h) (readyCbs h)
            (readyErrorCbs h) l (cb h).

Definition set_cb (f : option Callback) (h : History) : History :=
  mkHistory (router h) (current h) (pending h) (ready h) (readyCbs h)
            (readyErrorCbs h) (errorCbs h) f.

Definition set_router (r : Router) (h : History) : History :=
  mkHistory r (current h) (pending h) (ready h) (readyCbs h)
            (readyErrorCbs h) (errorCbs h) (cb h).

(** [this.pending !== route] is [negb (is_pending h route)]. *)
Definition is_pending (h : History) (route : Route) : bool :=
  match pending h with
  | Some p => same_route p route
  | None => false
  end.

(** The constructor of [History]. *)
Definition new_History (r : Router) : History :=
  {| router := r; current := START; pending := None; ready := false;
     readyCbs := []; readyErrorCbs := []; errorCbs := []; cb := None |}.

(** The greedy [[^\/]+] from the start of [s]: what follows it. *)
Fixpoint after_host (s : string) : string :=
  match s with
  | EmptyString => EmptyString
  | String c rest => if Ascii.eqb c "/" then s else after_host rest
  end.

(** [base.replace(/^https?:\/\/[^\/]+/, '')]: the scheme must be followed
    by one character at least that is not a slash. *)
Definition strip_origin (base : string) : string :=
  let rest_after scheme :=
    substring (String.length scheme) (String.length base - String.length scheme) base in
  let strip_host rest :=
    match rest with
    | EmptyString => base
    | String c _ => if Ascii.eqb c "/" then base else after_host rest
    end in
  if String.prefix "https://" base then strip_host (rest_after "https://")
  else if String.prefix "http://" base then strip_host (rest_after "http://")
  else base.

(** [normalizeBase(base)] of [src/history/base.js].  [inBrowser] is the
    constant of [util/dom]; [href] is
    [document.querySelector('base')] and its [href] attribute, [None] when
    either is missing.  The last step, [base.replace(/\/$/, '')], takes a
    final slash away, as [strip_trailing_slash] does. *)
Definition normalizeBase (inBrowser : bool) (href : option string)
    (base : option string) : string :=
  let base :=
    if truthy_string base then or_string base ""
    else if inBrowser then strip_origin (or_string href "/")
    else "/" in
  let base :=
    match base with
    | String c _ => if Ascii.eqb c "/" then base else String "/" base
    | EmptyString => String "/" base
    end in
  strip_trailing_slash base.

(** The abstract methods, implemented by the sub-classes: the call is an
    event. [this.ensureURL()] passes no argument, read as [false].

    In the sub-classes ([src/history/html5.js], [hash.js], [abstract.js],
    not among the sources) [push] and [replace] start a new transition with
    [transitionTo].  Here the call is recorded and nothing more: the outcome
    of a call whose log holds a [Push] or a [Replace] is the state and the
    events up to that call, and what the new transition does is no part of
    it.  Statements about the end of a call are therefore made for calls
    that do not redirect, or say no more than that [push] or [replace] is
    called. *)
Definition ensureURL (push : bool) : M := emit (EnsureURL push).
Definition push (location : RawLocation) : M := emit (Push location).
Definition replace (location : RawLocation) : M := emit (Replace location).

(** ** Guards *)

(** What a function of the application does when it is called as a guard
    with [(to, from, next)]: it calls [next(to')] before it returns, or
    throws, or returns and keeps [next] for later. *)
Inductive GuardAct : Type :=
| Calls (to : NextArg)
| Throws (e : NextArg)
| Defers.

(** The functions a queue holds: a function of the application as it is
    (a global hook, a [beforeEnter]), the closures [boundRouteGuard] and
    [routeEnterGuard] that [bindGuard] and [bindEnterGuard] build around one,
    and the function [resolveAsyncComponents(activated)] returns. *)
Inductive NavigationGuard : Type :=
| Guard (guard : GuardRef)
| boundRouteGuard (guard : GuardRef) (instance : Instance)
| routeEnterGuard (guard : GuardRef) (record : RouteRecord) (key : string)
| asyncResolver (activated : list RouteRecord).

(** What the function given to [flatMapComponents] returns for one view:
    [undefined] or a bound guard, or an array of them. *)
Inductive Extracted : Type :=
| One (g : option NavigationGuard)
| Several (gs : list (option NavigationGuard)).

Fixpoint lookup {A : Type} (l : list (string * A)) (key : string) : option A :=
  match l with
  | [] => None
  | (k, v) :: rest => if String.eqb k key then Some v else lookup rest key
  end.

(** Modelled from the spec: [flatMapComponents] and [flatten] of
    [src/util/resolve-components.js], which is not among the sources.  The
    component binding provider extracts "ordered guard functions for a set
    of matched records": the records in the order given, the views of a
    record in the order of its [components], each passed to [fn] with its
    instance, its record and its key; [flatten] concatenates one level. *)
Definition flatMapComponents (records : list RouteRecord)
    (fn : ComponentDef -> option Instance -> RouteRecord -> string -> Extracted)
    : list Extracted :=
  List.concat (map (fun m =>
                 map (fun view => fn (snd view) (lookup (instances m) (fst view))
                                     m (fst view))
                     (components m))
              records).

Definition flatten (arr : list Extracted) : list (option NavigationGuard) :=
  List.concat (map (fun x => match x with One g => [g] | Several gs => gs end) arr).

(** [def.options[key]] once [def] is a constructor. *)
Definition extractGuard (def : ComponentDef) (key : string) : GuardOption :=
  match lookup (options def) key with
  | Some g => g
  | None => NoGuard
  end.

Definition extractGuards (records : list RouteRecord) (name : string)
    (bind : GuardRef -> option Instance -> RouteRecord -> string -> option NavigationGuard)
    (reverse : bool) : list (option NavigationGuard) :=
  let guards :=
    flatMapComponents records (fun def instance m key =>
      match extractGuard def name with
      | NoGuard => One None
      | ManyGuards gs => Several (map (fun guard => bind guard instance m key) gs)
      | OneGuard guard => One (bind guard instance m key)
      end) in
  flatten (if reverse then rev guards else guards).

Definition bindGuard (guard : GuardRef) (instance : option Instance)
    (_ : RouteRecord) (_ : string) : option NavigationGuard :=
  match instance with
  | Some i => Some (boundRouteGuard guard i)
  | None => None
  end.

Definition extractLeaveGuards (deactivated : list RouteRecord) :=
  extractGuards deactivated "beforeRouteLeave" bindGuard true.

Definition extractUpdateHooks (updated : list RouteRecord) :=
  extractGuards updated "beforeRouteUpdate" bindGuard false.

(** [bindEnterGuard]: the arrays [cbs] and the test [isValid] it closes
    over belong to the transition that builds the guard. *)
Definition bindEnterGuard (guard : GuardRef) (_ : option Instance)
    (m : RouteRecord) (key : string) : option NavigationGuard :=
  Some (routeEnterGuard guard m key).

Definition extractEnterGuards (activated : list RouteRecord) :=
  extractGuards activated "beforeRouteEnter" bindEnterGuard false.

(** Modelled from the spec: [resolveAsyncComponents(activatedRecords)] of
    [src/util/resolve-components.js] is "a single queue item that completes
    when all lazy view definitions are ready". *)
Definition resolveAsyncComponents (activated : list RouteRecord) : NavigationGuard :=
  asyncResolver activated.

(** [registerHook(list, fn)] of [src/index.js]: [list.push(fn)]. *)
Definition registerHook {A : Type} (hooks : list (option A)) (fn : A) : list (option A) :=
  hooks ++ [Some fn].

(** The function [registerHook] returns, called on the list as it is then:
    [const i = list.indexOf(fn); if (i > -1) list.splice(i, 1)] takes the
    first entry that is [fn] out of the list. *)
Fixpoint unregister (hooks : list (option nat)) (fn : nat) : list (option nat) :=
  match hooks with
  | [] => []
  | x :: rest =>
      if match x with Some g => g =? fn | None => false end
      then rest
      else x :: unregister rest fn
  end.

(** ** Locations ([src/util/location.js], [src/util/params.js] and
       [resolveQuery] of [src/util/query.js]) *)

(** What [warn(condition, message)] passes to [console.warn]. *)
Definition warning (production condition : bool) (message : string) : list string :=
  if negb production && negb condition
  then [("[vue-router] " ++ message)%string]
  else [].

(** The loop [for (const key in b) { a[key] = b[key] }] of [resolveQuery]
    and of [assign] of [src/util/location.js] (the name [assign] is taken
    above by the assignment of one property). *)
Definition assign_from (a : Dictionary) (b : QVal) : Dictionary :=
  fold_left (fun a key => assign a key (get b key)) (keys b) a.

(** [resolveQuery(query, extraQuery, _parseQuery)], with what it passes to
    [console.warn].  A parser throws or returns a dictionary; the string that
    [Throw] carries stands for the message of the error. *)
Definition resolveQuery (production : bool) (query : option string)
    (extraQuery : QVal) (_parseQuery : option (string -> Completion Dictionary))
    : Dictionary * list string :=
  let parse := match _parseQuery with Some f => f | None => parseQuery end in
  let parsed :=
    match parse (or_string query "") with
    | Normal parsedQuery => (parsedQuery, [])
    | Throw message =>
        ([], if production then [] else warning production false message)
    end in
  (assign_from (fst parsed) extraQuery, snd parsed).

(** What [parsePath] of [src/util/path.js] returns. *)
Record ParsedPath : Type := mkParsedPath {
  parsed_path : string;
  parsed_query : string;
  parsed_hash : string
}.

(** A location object as [normalizeLocation] reads and builds it: the
    fields of [Location] with [append] and [_normalized]. *)
Record LocationObject : Type := mkLocationObject {
  fields : Location;
  loc_append : bool;
  _normalized : bool
}.

Definition set_normalized (l : LocationObject) : LocationObject :=
  {| fields := fields l; loc_append := loc_append l; _normalized := true |}.

Definition set_fields (f : Location) (l : LocationObject) : LocationObject :=
  {| fields := f; loc_append := loc_append l; _normalized := _normalized l |}.

(** A function [Regexp.compile(path)] returns: it fills the parameters in
    or throws. *)
Definition Filler : Type := QVal -> Completion string.

(** [regexpCompileCache], an object without prototype: its own entries. *)
Definition Cache : Type := list (string * Filler).

Section Locations.

(** The functions of [src/util/path.js] and of the library
    [path-to-regexp], which are not among the sources: any functions of
    these types. *)
Variable parsePath : string -> ParsedPath.
Variable resolvePath : string -> string -> bool -> string.
Variable compile : string -> Completion Filler.
Variable production : bool.

(** [fillParams(path, params, routeMsg)] of [src/util/params.js], with the
    cache it leaves and what it passes to [console.warn]. *)
Definition fillParams (path : string) (params : QVal) (routeMsg : string)
    (cache : Cache) : string * Cache * list string :=
  let failed cache message :=
    ("", cache,
     if production then []
     else warning production false
            ("missing param for " ++ routeMsg ++ ": " ++ message)%string) in
  let compiled :=
    match lookup cache path with
    | Some filler => Normal (filler, cache)
    | None =>
        match compile path with
        | Normal filler => Normal (filler, cache ++ [(path, filler)])
        | Throw message => Throw message
        end
    end in
  match compiled with
  | Throw message => failed cache message
  | Normal (filler, cache) =>
      match filler (if truthy params then params else QObject []) with
      | Normal filled => (filled, cache, [])
      | Throw message => failed cache message
      end
  end.

(** The branch of [normalizeLocation] for relative params. *)
Definition relative_params (next : LocationObject) (current : Route)
    (cache : Cache) : LocationObject * Cache * list string :=
  let next := set_normalized next in
  let l := fields next in
  let params := assign_from (assign_from [] (params current)) (loc_params l) in
  if truthy_string (name current) then
    (set_fields
       {| loc_name := name current; loc_path := loc_path l; loc_hash := loc_hash l;
          loc_query := loc_query l; loc_params := QObject params;
          loc_replace := loc_replace l |} next,
     cache, [])
  else
    match rev (matched current) with
    | m :: _ =>
        let '(filled, cache, warned) :=
          fillParams (record_path m) (QObject params)
            ("path " ++ path current)%string cache in
        (set_fields
           {| loc_name := loc_name l; loc_path := Some filled; loc_hash := loc_hash l;
              loc_query := loc_query l; loc_params := loc_params l;
              loc_replace := loc_replace l |} next,
         cache, warned)
    | [] =>
        (next, cache,
         if production then []
         else warning production false
                "relative params navigation requires a current route.")
    end.

(** [normalizeLocation(raw, current, append, router)]; [_parseQuery] is
    [router && router.options.parseQuery]. *)
Definition normalizeLocation (raw : string + LocationObject)
    (current : option Route) (append : bool)
    (_parseQuery : option (string -> Completion Dictionary)) (cache : Cache)
    : LocationObject * Cache * list string :=
  let next :=
    match raw with
    | inl s =>
        {| fields := {| loc_name := None; loc_path := Some s; loc_hash := None;
                        loc_query := QUndefined; loc_params := QUndefined;
                        loc_replace := false |};
           loc_append := false; _normalized := false |}
    | inr l => l
    end in
  let l := fields next in
  let absolute :=
    let parsedPath := parsePath (or_string (loc_path l) "") in
    let basePath :=
      match current with
      | Some c => or_string (Some (path c)) "/"
      | None => "/"
      end in
    let path :=
      if nonempty (parsed_path parsedPath)
      then resolvePath (parsed_path parsedPath) basePath (append || loc_append next)
      else basePath in
    let resolved :=
      resolveQuery production (Some (parsed_query parsedPath)) (loc_query l)
        _parseQuery in
    let hash :=
      if truthy_string (loc_hash l) then or_string (loc_hash l) ""
      else parsed_hash parsedPath in
    let hash :=
      match hash with
      | String c _ => if Ascii.eqb c "#" then hash else String "#" hash
      | EmptyString => hash
      end in
    ({| fields := {| loc_name := None; loc_path := Some path;
                     loc_hash := Some hash; loc_query := QObject (fst resolved);
                     loc_params := QUndefined; loc_replace := false |};
        loc_append := false; _normalized := true |},
     cache, snd resolved) in
  if truthy_string (loc_name l) || _normalized next then (next, cache, [])
  else
    match current with
    | Some c =>
        if negb (truthy_string (loc_path l)) && truthy (loc_params l)
        then relative_params next c cache
        else absolute
    | None => absolute
    end.

End Locations.

(** ** The history *)

Section Engine.

(** What each function of the application does as a guard, by its
    reference, [this] and the two routes; what the resolver of lazy views
    does; and whether [process.env.NODE_ENV] is ['production']. *)
Variable guard_act : GuardRef -> option Instance -> Route -> Route -> GuardAct.
Variable async_act : list RouteRecord -> Route -> Route -> GuardAct.
Variable production : bool.

(** [warn] of [src/util/warn.js]. *)
Definition warn (condition : bool) (message : string) : M :=
  if negb production && negb condition
  then emit (ConsoleWarn ("[vue-router] " ++ message)%string)
  else ret.

Definition listen (f : Callback) : M := modify (set_cb (Some f)).

Definition onReady (f : Callback) (errorCb : option Callback) : M :=
  fun h =>
    if ready h then emit (ReadyCb f None) h
    else (modify (fun h => set_readyCbs (readyCbs h ++ [f]) h) ;;
          match errorCb with
          | Some e => modify (fun h => set_readyErrorCbs (readyErrorCbs h ++ [e]) h)
          | None => ret
          end) h.

Definition onError (errorCb : Callback) : M :=
  modify (fun h => set_errorCbs (errorCbs h ++ [errorCb]) h).

Definition updateRoute (route : Route) : M :=
  fun h =>
    let prev := current h in
    (modify (set_current route) ;;
     (fun h => match cb h with
               | Some f => emit (Listener f route) h
               | None => ret h
               end) ;;
     (fun h => forEach (afterHooks (router h))
                 (fun hook => match hook with
                              | Some f => emit (AfterHook f route prev)
                              | None => ret
                              end) h)) h.

(** The closure [abort] of [confirmTransition]. *)
Definition abort (onAbort : option (NextArg -> M)) (err : NextArg) : M :=
  (if isError err then
     fun h =>
       if Nat.ltb 0 (List.length (errorCbs h))
       then forEach (errorCbs h) (fun f => emit (ErrorCb f err)) h
       else (warn false "uncaught error during route navigation:" ;;
             emit (ConsoleError err)) h
   else ret) ;;
  match onAbort with
  | Some f => f err
  | None => ret
  end.

(** A guard is called with [next]. *)
Definition act (a : GuardAct) (next : NextArg -> M) : M :=
  match a with
  | Calls to => next to
  | Throws e => throw e
  | Defers => hold next
  end.

(** [hook(route, current, next)]. *)
Definition call (hook : NavigationGuard) (to from : Route) (next : NextArg -> M) : M :=
  match hook with
  | Guard g =>
      emit (GuardCalled g None to from) ;; act (guard_act g None to from) next
  | boundRouteGuard g instance =>
      emit (GuardCalled g (Some instance) to from) ;;
      act (guard_act g (Some instance) to from) next
  | routeEnterGuard g m key =>
      emit (GuardCalled g None to from) ;;
      act (guard_act g None to from)
          (fun f => next f ;;
                    match f with
                    | NFunction f' => emit (PostEnter f' m key)
                    | _ => ret
                    end)
  | asyncResolver activated =>
      emit (ResolveAsync activated to from) ;; act (async_act activated to from) next
  end.

Definition is_string (x : option string) : bool :=
  match x with Some _ => true | None => false end.

(** The function [(to: any) => { ... }] that [iterator] passes to a hook.
    Reading [to.path] of [null] throws a [TypeError]. *)
Definition guard_next (onAbort : option (NextArg -> M)) (to : NextArg) (next : M) : M :=
  if match to with NBool false => true | _ => false end || isError to then
    ensureURL true ;; abort onAbort to
  else
    match to with
    | NString s => abort onAbort NUndefined ;; push (RawPath s)
    | NObject l =>
        if is_string (loc_path l) || is_string (loc_name l) then
          abort onAbort NUndefined ;;
          (if loc_replace l then replace (RawObject l) else push (RawObject l))
        else next
    | NNull => throw (NError "TypeError: Cannot read property 'path' of null")
    | _ => next
    end.

Definition iterator (route current : Route) (onAbort : option (NextArg -> M))
    (hook : NavigationGuard) (next : M) : M :=
  fun h =>
    if negb (is_pending h route) then abort onAbort NUndefined h
    else try_catch
           (call hook route current (fun to => guard_next onAbort to next))
           (fun e => abort onAbort e) h.

(** The queue of the first phase. *)
Definition guard_queue (h : History) (route : Route) : list (option NavigationGuard) :=
  let r := resolveQueue (matched (current h)) (matched route) in
  extractLeaveGuards (deactivated r)
  ++ map (option_map Guard) (beforeHooks (router h))
  ++ extractUpdateHooks (updated r)
  ++ map (fun m => option_map Guard (beforeEnter m)) (activated r)
  ++ [Some (resolveAsyncComponents (activated r))].

(** The callback of the second [runQueue] of [confirmTransition]. *)
Definition confirmed (route : Route) (onComplete : Route -> M)
    (onAbort : option (NextArg -> M)) : M :=
  fun h =>
    if negb (is_pending h route) then abort onAbort NUndefined h
    else (modify (set_pending None) ;;
          onComplete route ;;
          (fun h => if router_app (router h) then emit (NextTick route) h
                    else ret h)) h.

(** The callback of the first [runQueue]: the second phase. *)
Definition enter_phase (route current : Route) (activated : list RouteRecord)
    (onComplete : Route -> M) (onAbort : option (NextArg -> M)) : M :=
  fun h =>
    let enterGuards := extractEnterGuards activated in
    let queue := enterGuards ++ map (option_map Guard) (resolveHooks (router h)) in
    runQueue queue (iterator route current onAbort)
      (confirmed route onComplete onAbort) h.

Definition confirmTransition (route : Route) (onComplete : Route -> M)
    (onAbort : option (NextArg -> M)) : M :=
  fun h =>
    let current := current h in
    if isSameRoute route (Some current)
       && (List.length (matched route) =? List.length (matched current))
    then (ensureURL false ;; abort onAbort NUndefined) h
    else
      let r := resolveQueue (matched current) (matched route) in
      let queue := guard_queue h route in
      (modify (set_pending (Some route)) ;;
       runQueue queue (iterator route current onAbort)
         (enter_phase route current (activated r) onComplete onAbort)) h.

(** The two functions [transitionTo] passes to [confirmTransition]. *)
Definition transition_complete (route : Route) (onComplete : option Callback)
    : Route -> M :=
  fun _ =>
    updateRoute route ;;
    match onComplete with
    | Some f => emit (Complete f route)
    | None => ret
    end ;;
    ensureURL false ;;
    (fun h => if negb (ready h)
              then (modify (set_ready true) ;;
                    (fun h => forEach (readyCbs h)
                                (fun f => emit (ReadyCb f (Some route))) h)) h
              else ret h).

Definition transition_abort (onAbort : option Callback) : NextArg -> M :=
  fun err =>
    match onAbort with
    | Some f => emit (Abort f err)
    | None => ret
    end ;;
    (fun h => if truthy_arg err && negb (ready h)
              then (modify (set_ready true) ;;
                    (fun h => forEach (readyErrorCbs h)
                                (fun f => emit (ReadyErrorCb f err)) h)) h
              else ret h).

Definition transitionTo (location : RawLocation)
    (onComplete onAbort : option Callback) : M :=
  fun h =>
    let route := router_match (router h) location (current h) in
    confirmTransition route (transition_complete route onComplete)
      (Some (transition_abort onAbort)) h.

End Engine.

(** ** Observing a run of the queue *)

(** To state what [runQueue] does, each item is paired with its index and
    [fn] is the step that logs it: [Started k x] when the item [x] at index
    [k] is handed to [fn], [Continued k] when that call invokes its
    continuation, which it does when [resolves k x] holds and never
    otherwise; [cb] logs [Finished]. *)
Inductive QueueEvent (A : Type) : Type :=
| Started (index : nat) (item : A)
| Continued (index : nat)
| Finished.
Arguments Started {A} index item.
Arguments Continued {A} index.
Arguments Finished {A}.

Section Observed.

Context {A : Type}.
Variable resolves : nat -> A -> bool.

Definition observe (item : nat * A) (next : list (QueueEvent A)) : list (QueueEvent A) :=
  Started (fst item) (snd item)
  :: (if resolves (fst item) (snd item) then Continued (fst item) :: next else []).

(** The queue [q] with every item that is present tagged by its index,
    starting from [i]. *)
Fixpoint indexed (i : nat) (q : list (option A)) : list (option (nat * A)) :=
  match q with
  | [] => []
  | x :: rest => option_map (pair i) x :: indexed (S i) rest
  end.

Definition run (q : list (option A)) : list (QueueEvent A) :=
  runQueue (indexed 0 q) observe [Finished].

(** The indices at which something starts, in the order of the log. *)
Definition started (log : list (QueueEvent A)) : list nat :=
  flat_map (fun e => match e with Started k _ => [k] | _ => [] end) log.

Definition finishes (log : list (QueueEvent A)) : nat :=
  List.length (filter (fun e => match e with Finished => true | _ => false end) log).

End Observed.

(* ================================================================== *)
(** * Part II: properties *)
(* ================================================================== *)

(** ** [resolveQueue] *)

Section ResolveQueue.

Variables current next : list RouteRecord.

Lemma resolveQueue_loop_bounds (remaining i : nat) :
  i <= resolveQueue_loop current next remaining i <= i + remaining.
Proof.
  revert i; induction remaining as [|n IH]; intros i; simpl; [lia|].
  destruct (differ _ _); [lia|].
  specialize (IH (S i)); lia.
Qed.

Lemma resolveQueue_loop_same (remaining i j : nat) :
  i <= j < resolveQueue_loop current next remaining i ->
  differ (nth_error current j) (nth_error next j) = false.
Proof.
  revert i; induction remaining as [|n IH]; intros i; simpl; [lia|].
  destruct (differ (nth_error current i) (nth_error next i)) eqn:E; [lia|].
  intros Hj. destruct (Nat.eq_dec i j) as [->|Hne]; [exact E|].
  apply (IH (S i)); lia.
Qed.

Lemma resolveQueue_loop_stops (remaining i : nat) :
  resolveQueue_loop current next remaining i < i + remaining ->
  differ (nth_error current (resolveQueue_loop current next remaining i))
         (nth_error next (resolveQueue_loop current next remaining i)) = true.
Proof.
  revert i; induction remaining as [|n IH]; intros i; simpl; [lia|].
  destruct (differ (nth_error current i) (nth_error next i)) eqn:E; [auto|].
  intros H; apply IH; lia.
Qed.

End ResolveQueue.

(** Where two chains agree, neither has ended before the other. *)
Lemma differ_false_in_range (current next : list RouteRecord) (j : nat) :
  differ (nth_error current j) (nth_error next j) = false ->
  j < List.length current <-> j < List.length next.
Proof.
  intros H.
  destruct (nth_error current j) eqn:Ec, (nth_error next j) eqn:En;
    simpl in H; try discriminate.
  - split; intros _; apply nth_error_Some; congruence.
  - apply nth_error_None in Ec, En; lia.
Qed.

Lemma differ_refl (x : option RouteRecord) : differ x x = false.
Proof.
  destruct x as [m|]; simpl; [|reflexivity].
  unfold same_record. now rewrite Nat.eqb_refl.
Qed.

(** The index [i] is the first at which the two chains differ, scanning
    up to the greater of the two lengths. *)
Definition first_difference (current next : list RouteRecord) (i : nat) : Prop :=
  i <= Nat.max (List.length current) (List.length next)
  /\ (forall j, j < i -> differ (nth_error current j) (nth_error next j) = false)
  /\ (i < Nat.max (List.length current) (List.length next) ->
      differ (nth_error current i) (nth_error next i) = true).

(** C2: [resolveQueue(current, next)] returns [updated = next[0:i]],
    [activated = next[i:]] and [deactivated = current[i:]] where [i] is the
    first index at which [current[i] !== next[i]], scanning up to the greater
    length; the lengths of [updated] and [activated] add up to that of [next],
    those of [updated] and [deactivated] to that of [current]; and for a chain
    against itself [updated] is the whole chain and the other two are empty. *)
Theorem resolveQueue_first_difference (current next : list RouteRecord) :
  (exists i,
      first_difference current next i
      /\ updated (resolveQueue current next) = firstn i next
      /\ activated (resolveQueue current next) = skipn i next
      /\ deactivated (resolveQueue current next) = skipn i current)
  /\ List.length (updated (resolveQueue current next))
     + List.length (activated (resolveQueue current next)) = List.length next
  /\ List.length (updated (resolveQueue current next))
     + List.length (deactivated (resolveQueue current next)) = List.length current
  /\ resolveQueue current current
     = {| updated := current; activated := []; deactivated := [] |}.
Proof.
  set (max := Nat.max (List.length current) (List.length next)).
  set (i := resolveQueue_loop current next max 0).
  assert (Hfirst : first_difference current next i).
  { unfold first_difference; fold max. repeat split.
    - pose proof (resolveQueue_loop_bounds current next max 0); subst i; lia.
    - intros j Hj; apply (resolveQueue_loop_same current next max 0); subst i; lia.
    - intros Hlt; apply (resolveQueue_loop_stops current next max 0); subst i; lia. }
  assert (Hmin : i <= List.length current /\ i <= List.length next).
  { destruct Hfirst as (Hmax & Hsame & _).
    destruct (Nat.le_gt_cases i (Nat.min (List.length current) (List.length next)))
      as [Hle|Hgt]; [lia|].
    pose proof (differ_false_in_range current next _ (Hsame _ Hgt)); lia. }
  split; [|split; [|split]].
  - exists i; repeat split; try reflexivity; apply Hfirst.
  - unfold resolveQueue; fold max; fold i; simpl.
    rewrite length_firstn, length_skipn; lia.
  - unfold resolveQueue; fold max; fold i; simpl.
    rewrite length_firstn, length_skipn; lia.
  - unfold resolveQueue.
    set (k := resolveQueue_loop current current _ 0).
    assert (Hk : k = List.length current).
    { pose proof (resolveQueue_loop_bounds current current
                    (Nat.max (List.length current) (List.length current)) 0) as Hb.
      fold k in Hb.
      destruct (Nat.eq_dec k (List.length current)) as [|Hne]; [assumption|].
      assert (Hstop : differ (nth_error current k) (nth_error current k) = true).
      { apply (resolveQueue_loop_stops current current _ 0); fold k; lia. }
      rewrite differ_refl in Hstop; discriminate. }
    rewrite Hk, firstn_all, skipn_all; reflexivity.
Qed.

(** ** [runQueue] *)

Section RunQueueFold.

Context {A R : Type}.
Variables (queue : list (option A)) (fn : A -> R -> R) (cb : R).

(** What one slot of the queue does with the rest of the run. *)
Definition slot (x : option A) (rest : R) : R :=
  match x with
  | Some item => fn item rest
  | None => rest
  end.

Lemma skipn_cons_nth_error {B : Type} (l : list B) (i : nat) (x : B) :
  nth_error l i = Some x -> skipn i l = x :: skipn (S i) l.
Proof.
  revert i; induction l as [|y l IH]; intros [|i] H; simpl in *; try discriminate.
  - now inversion H.
  - rewrite (IH i H). destruct l; reflexivity.
Qed.

Lemma step_fold (remaining index : nat) :
  remaining + index = List.length queue ->
  step queue fn cb remaining index = fold_right slot cb (skipn index queue).
Proof.
  revert index; induction remaining as [|n IH]; intros index H; simpl.
  - rewrite skipn_all2 by lia. reflexivity.
  - destruct (nth_error queue index) as [x|] eqn:E.
    + rewrite (skipn_cons_nth_error _ _ _ E); simpl.
      rewrite IH by lia. destruct x; reflexivity.
    + apply nth_error_None in E; lia.
Qed.

(** [runQueue] hands each item that is present, from the first to the
    last, the run of the items after it. *)
Lemma runQueue_fold : runQueue queue fn cb = fold_right slot cb queue.
Proof. unfold runQueue. now rewrite step_fold by lia. Qed.

End RunQueueFold.

Section RunQueueObserved.

Context {A : Type}.
Variable resolves : nat -> A -> bool.

(** The log of the slots of [q], numbered from [i]. *)
Definition log_from (i : nat) (q : list (option A)) : list (QueueEvent A) :=
  fold_right (slot (observe resolves)) [Finished] (indexed i q).

Lemma run_log_from (q : list (option A)) : run resolves q = log_from 0 q.
Proof. unfold run. apply runQueue_fold. Qed.

Lemma log_from_none (i : nat) (q : list (option A)) :
  log_from i (None :: q) = log_from (S i) q.
Proof. reflexivity. Qed.

Lemma log_from_some (i : nat) (x : A) (q : list (option A)) :
  log_from i (Some x :: q)
  = Started i x :: (if resolves i x then Continued i :: log_from (S i) q else []).
Proof. reflexivity. Qed.

Lemma started_in (log : list (QueueEvent A)) (k : nat) :
  In k (started log) <-> exists x, In (Started k x) log.
Proof.
  unfold started. rewrite in_flat_map. split.
  - intros (e & He & Hk). destruct e; simpl in Hk; try tauto.
    destruct Hk as [<-|[]]. eauto.
  - intros (x & Hx). exists (Started k x). simpl; auto.
Qed.

(** Whatever starts is an item of the queue, at its own index. *)
Lemma log_from_started (q : list (option A)) :
  forall i k x, In (Started k x) (log_from i q) ->
                i <= k /\ nth_error q (k - i) = Some (Some x).
Proof.
  induction q as [|[y|] q IH]; intros i k x H.
  - simpl in H. destruct H as [H|[]]; discriminate.
  - rewrite log_from_some in H. destruct H as [H|H].
    + inversion H; subst. rewrite Nat.sub_diag. auto.
    + destruct (resolves i y); [|destruct H].
      destruct H as [H|H]; [discriminate|].
      apply IH in H as [Hle Hn]. split; [lia|].
      replace (k - i) with (S (k - S i)) by lia. exact Hn.
  - rewrite log_from_none in H. apply IH in H as [Hle Hn]. split; [lia|].
    replace (k - i) with (S (k - S i)) by lia. exact Hn.
Qed.

Lemma started_above (q : list (option A)) (i : nat) :
  Forall (fun k => i <= k) (started (log_from i q)).
Proof.
  apply Forall_forall. intros k Hk. apply started_in in Hk as (x & Hx).
  now apply log_from_started in Hx.
Qed.

(** Items start in the order of their indices. *)
Lemma log_from_sorted (q : list (option A)) :
  forall i, StronglySorted lt (started (log_from i q)).
Proof.
  induction q as [|[y|] q IH]; intros i.
  - constructor.
  - rewrite log_from_some. simpl. constructor.
    + destruct (resolves i y); simpl; [apply IH|constructor].
    + destruct (resolves i y); simpl; [|constructor].
      eapply Forall_impl; [|apply (started_above q (S i))]. simpl; lia.
  - rewrite log_from_none. apply IH.
Qed.

(** When an item starts, every item before it has already invoked its
    continuation. *)
Lemma log_from_blocking (q : list (option A)) :
  forall i before after k x,
    log_from i q = before ++ Started k x :: after ->
    forall j y, i <= j < k -> nth_error q (j - i) = Some (Some y) ->
                resolves j y = true /\ In (Continued j) before.
Proof.
  induction q as [|[z|] q IH]; intros i before after k x Hlog j y Hj Hn.
  - destruct (j - i); discriminate.
  - rewrite log_from_some in Hlog.
    destruct before as [|e before]; simpl in Hlog.
    + inversion Hlog; subst. lia.
    + inversion Hlog as [[He Hrest]]; subst e.
      destruct (resolves i z) eqn:Hz.
      * destruct before as [|e before]; simpl in Hrest; [discriminate|].
        inversion Hrest as [[He Hrest']]; subst e.
        destruct (Nat.eq_dec j i) as [->|Hne].
        -- rewrite Nat.sub_diag in Hn. inversion Hn; subst. simpl. auto.
        -- replace (j - i) with (S (j - S i)) in Hn by lia. simpl in Hn.
           destruct (IH (S i) before after k x Hrest' j y) as [Hr Hin];
             [lia|exact Hn|]. simpl. auto.
      * destruct before; discriminate.
  - rewrite log_from_none in Hlog.
    destruct (Nat.eq_dec j i) as [->|Hne].
    + rewrite Nat.sub_diag in Hn. discriminate.
    + replace (j - i) with (S (j - S i)) in Hn by lia. simpl in Hn.
      apply (IH (S i) before after k x Hlog j y); [lia|exact Hn].
Qed.

(** [cb] runs at most once, and last. *)
Lemma log_from_finishes (q : list (option A)) :
  forall i, log_from i q = removelast (log_from i q) ++ [Finished]
            /\ finishes (log_from i q) = 1
            /\ (forall j y, nth_error q j = Some (Some y) ->
                            resolves (i + j) y = true
                            /\ In (Continued (i + j)) (log_from i q))
            \/ finishes (log_from i q) = 0
               /\ exists j y, nth_error q j = Some (Some y)
                              /\ resolves (i + j) y = false.
Proof.
  induction q as [|[z|] q IH]; intros i.
  - left. split; [reflexivity|split; [reflexivity|]].
    intros [|j] y H; discriminate.
  - rewrite log_from_some. destruct (resolves i z) eqn:Hz.
    + destruct (IH (S i)) as [(Hlast & Hone & Hall)|(Hzero & j & y & Hn & Hr)].
      * left. split; [|split].
        -- change (Started i z :: Continued i :: log_from (S i) q)
             with ([Started i z; Continued i] ++ log_from (S i) q).
           rewrite removelast_app, <- app_assoc, <- Hlast; [reflexivity|].
           rewrite Hlast. now destruct (removelast (log_from (S i) q)).
        -- exact Hone.
        -- intros [|j] y H; simpl in H.
           ++ inversion H; subst. rewrite Nat.add_0_r. simpl; auto.
           ++ destruct (Hall j y H) as [Hr Hin].
              replace (i + S j) with (S i + j) by lia. simpl; auto.
      * right. split; [exact Hzero|].
        exists (S j), y. replace (i + S j) with (S i + j) by lia. auto.
    + right. split; [reflexivity|]. exists 0, z. rewrite Nat.add_0_r. auto.
  - rewrite log_from_none.
    destruct (IH (S i)) as [(Hlast & Hone & Hall)|(Hzero & j & y & Hn & Hr)].
    + left. split; [exact Hlast|split; [exact Hone|]].
      intros [|j] y H; simpl in H; [discriminate|].
      replace (i + S j) with (S i + j) by lia. now apply Hall.
    + right. split; [exact Hzero|].
      exists (S j), y. replace (i + S j) with (S i + j) by lia. auto.
Qed.

(** After an item that never invokes its continuation nothing starts. *)
Lemma log_from_stuck (q : list (option A)) :
  forall i k x, nth_error q k = Some (Some x) -> resolves (i + k) x = false ->
                forall j, i + k < j -> ~ In j (started (log_from i q)).
Proof.
  induction q as [|[z|] q IH]; intros i k x Hn Hr j Hj Hin.
  - destruct k; discriminate.
  - rewrite log_from_some in Hin. destruct k as [|k]; simpl in Hn.
    + inversion Hn; subst. rewrite Nat.add_0_r in Hr, Hj. rewrite Hr in Hin.
      simpl in Hin. lia.
    + simpl in Hin. destruct Hin as [Hin|Hin]; [lia|].
      destruct (resolves i z); [|destruct Hin]. simpl in Hin.
      apply (IH (S i) k x Hn) with (j := j); auto; try lia.
      now replace (S i + k) with (i + S k) by lia.
  - rewrite log_from_none in Hin. destruct k as [|k]; simpl in Hn; [discriminate|].
    apply (IH (S i) k x Hn) with (j := j); auto; try lia.
    now replace (S i + k) with (i + S k) by lia.
Qed.

End RunQueueObserved.

(** C3: [runQueue(queue, fn, cb)] runs the items in index order: what
    starts is an item of the queue at its index, and the started indices
    increase (absent items never start); when the item at [k] starts, every
    item present before it has invoked its continuation; [cb] runs at most
    once, it runs when every item present invokes its continuation, and then
    it is the last event, after all those continuations (alone, if the queue
    is empty); and if some item never invokes its continuation, [cb] never
    runs and no later item starts. *)
Theorem runQueue_in_order {A : Type} (resolves : nat -> A -> bool)
    (q : list (option A)) :
  let log := run resolves q in
  StronglySorted lt (started log)
  /\ (forall k x, In (Started k x) log -> nth_error q k = Some (Some x))
  /\ (forall before after k x,
         log = before ++ Started k x :: after ->
         forall j y, j < k -> nth_error q j = Some (Some y) ->
                     resolves j y = true /\ In (Continued j) before)
  /\ finishes log <= 1
  /\ ((forall j y, nth_error q j = Some (Some y) -> resolves j y = true) ->
      finishes log = 1)
  /\ (finishes log = 1 ->
      log = removelast log ++ [Finished]
      /\ forall j y, nth_error q j = Some (Some y) ->
                     In (Continued j) (removelast log))
  /\ (q = [] -> log = [Finished])
  /\ (forall k x, nth_error q k = Some (Some x) -> resolves k x = false ->
                  finishes log = 0
                  /\ forall j, k < j -> ~ In j (started log)).
Proof.
  intros log. subst log. rewrite run_log_from.
  pose proof (log_from_finishes resolves q 0) as Hfin.
  split; [apply log_from_sorted|].
  split.
  { intros k x H. apply log_from_started in H as [_ H].
    now rewrite Nat.sub_0_r in H. }
  split.
  { intros before after k x Hlog j y Hj Hn.
    apply (log_from_blocking resolves q 0 before after k x Hlog j y); [lia|].
    now rewrite Nat.sub_0_r. }
  split.
  { destruct Hfin as [(_ & H & _)|(H & _)]; rewrite H; lia. }
  split.
  { intros Hall. destruct Hfin as [(_ & H & _)|(_ & j & y & Hn & Hr)]; [exact H|].
    simpl in Hr. rewrite (Hall j y Hn) in Hr. discriminate. }
  split.
  { intros Hone. destruct Hfin as [(Hlast & _ & Hall)|(H & _)];
      [|rewrite H in Hone; discriminate].
    split; [exact Hlast|]. intros j y Hn.
    destruct (Hall j y Hn) as [_ Hin]. simpl in Hin.
    rewrite Hlast in Hin. apply in_app_or in Hin as [Hin|[Hin|[]]];
      [exact Hin|discriminate]. }
  split.
  { intros ->. reflexivity. }
  intros k x Hn Hr. split.
  - destruct Hfin as [(_ & _ & Hall)|(H & _)]; [|exact H].
    destruct (Hall k x Hn) as [Hr' _]. simpl in Hr'. congruence.
  - intros j Hj. apply (log_from_stuck resolves q 0 k x Hn Hr). simpl; lia.
Qed.

(** ** Sample data for closed statements *)

Definition location_of (p : string) : Location :=
  {| loc_name := None; loc_path := Some p; loc_hash := None;
     loc_query := QUndefined; loc_params := QUndefined; loc_replace := false |}.

(** A route made for the path, as the matcher makes one: a new object. *)
Definition route_at (ref : nat) (p : string) : Route :=
  createRoute ref None (location_of p) None None.

(** ** [isSameRoute] and [START] *)

(** C8, as stated, fails: with [START] as the first argument and another
    route of path ['/'] as the second, [isSameRoute] compares by value and
    answers [true]. *)
Lemma isSameRoute_START_first_by_value :
  ~ (forall a b : Route,
        same_route a START = true \/ same_route b START = true ->
        (isSameRoute a (Some b) = true <-> same_route a b = true)).
Proof.
  intros H.
  destruct (H START (route_at 1 "/")) as [Hto _]; [left; reflexivity|].
  assert (Hsame : isSameRoute START (Some (route_at 1 "/")) = true)
    by (vm_compute; reflexivity).
  specialize (Hto Hsame). vm_compute in Hto. discriminate.
Qed.

(** C8, amended: when the second argument is [START], [isSameRoute(a, b)]
    is the identity test [a === b], whatever the fields of [a] are. *)
Theorem isSameRoute_START_second (a b : Route) :
  same_route b START = true ->
  isSameRoute a (Some b) = same_route a b.
Proof.
  intros Hb. unfold isSameRoute. now rewrite Hb.
Qed.

Lemma isSameRoute_START_second_witness :
  isSameRoute (route_at 1 "/") (Some START) = same_route (route_at 1 "/") START.
Proof.
  apply (isSameRoute_START_second (route_at 1 "/") START). reflexivity.
Defined.

(** ** The queue of the first phase *)

Section GuardQueue.

Variables (name : string)
          (bind : GuardRef -> option Instance -> RouteRecord -> string
                  -> option NavigationGuard).

Lemma flatMapComponents_app (rs1 rs2 : list RouteRecord) fn :
  flatMapComponents (rs1 ++ rs2) fn
  = flatMapComponents rs1 fn ++ flatMapComponents rs2 fn.
Proof. unfold flatMapComponents. now rewrite map_app, concat_app. Qed.

Lemma flatten_app (xs ys : list Extracted) :
  flatten (xs ++ ys) = flatten xs ++ flatten ys.
Proof. unfold flatten. now rewrite map_app, concat_app. Qed.

Lemma extractGuards_app (rs1 rs2 : list RouteRecord) :
  extractGuards (rs1 ++ rs2) name bind false
  = extractGuards rs1 name bind false ++ extractGuards rs2 name bind false.
Proof. unfold extractGuards. now rewrite flatMapComponents_app, flatten_app. Qed.

Lemma extractGuards_app_reverse (rs1 rs2 : list RouteRecord) :
  extractGuards (rs1 ++ rs2) name bind true
  = extractGuards rs2 name bind true ++ extractGuards rs1 name bind true.
Proof.
  unfold extractGuards.
  now rewrite flatMapComponents_app, rev_app_distr, flatten_app.
Qed.

(** Without [reverse] the guards come record by record, root to leaf. *)
Lemma extractGuards_by_record (rs : list RouteRecord) :
  extractGuards rs name bind false
  = flat_map (fun m => extractGuards [m] name bind false) rs.
Proof.
  induction rs as [|m rs IH]; [reflexivity|].
  change (m :: rs) with ([m] ++ rs).
  rewrite extractGuards_app, IH. reflexivity.
Qed.

(** With [reverse] they come record by record, leaf to root. *)
Lemma extractGuards_by_record_reverse (rs : list RouteRecord) :
  extractGuards rs name bind true
  = flat_map (fun m => extractGuards [m] name bind true) (rev rs).
Proof.
  induction rs as [|m rs IH]; [reflexivity|].
  change (m :: rs) with ([m] ++ rs).
  rewrite extractGuards_app_reverse, IH. simpl.
  rewrite flat_map_app. simpl. now rewrite app_nil_r.
Qed.

End GuardQueue.

(** What [bindGuard] puts in a queue: nothing for a view with no
    instance, else the guard bound to the instance. *)
Definition component_bound (x : option NavigationGuard) : Prop :=
  match x with
  | None | Some (boundRouteGuard _ _) => True
  | Some _ => False
  end.

Lemma flatten_Forall (P : option NavigationGuard -> Prop) (xs : list Extracted) :
  Forall (fun x => match x with
                   | One g => P g
                   | Several gs => Forall P gs
                   end) xs ->
  Forall P (flatten xs).
Proof.
  unfold flatten. induction 1 as [|x xs Hx _ IH]; simpl; [constructor|].
  apply Forall_app. split; [|exact IH].
  destruct x; [constructor; [exact Hx|constructor]|exact Hx].
Qed.

Lemma extractGuards_bindGuard (rs : list RouteRecord) (name : string) (reverse : bool) :
  Forall component_bound (extractGuards rs name bindGuard reverse).
Proof.
  unfold extractGuards. apply flatten_Forall.
  assert (H : Forall (fun x => match x with
                               | One g => component_bound g
                               | Several gs => Forall component_bound gs
                               end)
                (flatMapComponents rs (fun def instance m key =>
                   match extractGuard def name with
                   | NoGuard => One None
                   | ManyGuards gs =>
                       Several (map (fun guard => bindGuard guard instance m key) gs)
                   | OneGuard guard => One (bindGuard guard instance m key)
                   end))).
  { unfold flatMapComponents. apply Forall_concat. apply Forall_map.
    apply Forall_forall. intros m _. apply Forall_map.
    apply Forall_forall. intros [key def] _. simpl.
    destruct (extractGuard def name) as [|g|gs]; simpl; [exact I| |].
    - destruct (lookup (instances m) key); exact I.
    - apply Forall_map. apply Forall_forall. intros g _.
      destruct (lookup (instances m) key); exact I. }
  destruct reverse; [apply Forall_rev|]; exact H.
Qed.

(** What the spec calls the component-bound guards of a record, view by
    view: the guard that the definition of the view holds under [name]
    (each guard of the array, when mixins were merged), bound to the
    instance of the view.  A view that has no guard of that name leaves an
    absent entry in the queue, and so does each guard of a view that has no
    instance yet. *)
Definition guards_of_view (name : string) (m : RouteRecord)
    (view : string * ComponentDef) : list (option NavigationGuard) :=
  let bound guard :=
    match lookup (instances m) (fst view) with
    | Some instance => Some (boundRouteGuard guard instance)
    | None => None
    end in
  match lookup (options (snd view)) name with
  | Some (OneGuard guard) => [bound guard]
  | Some (ManyGuards guards) => map bound guards
  | Some NoGuard | None => [None]
  end.

Lemma flatten_map_views (fn : string * ComponentDef -> Extracted)
    (views : list (string * ComponentDef)) :
  flatten (map fn views)
  = flat_map (fun view => match fn view with One g => [g] | Several gs => gs end) views.
Proof.
  unfold flatten. induction views as [|view views IH]; [reflexivity|].
  simpl. now rewrite IH.
Qed.

(** The guards [extractGuards] takes from one record with [bindGuard]. *)
Lemma extractGuards_of_record (m : RouteRecord) (name : string) (reverse : bool) :
  extractGuards [m] name bindGuard reverse
  = flat_map (guards_of_view name m)
      (if reverse then rev (components m) else components m).
Proof.
  unfold extractGuards, flatMapComponents. simpl List.concat. rewrite app_nil_r.
  assert (Hviews : forall views,
            flatten (map (fun view =>
                            match extractGuard (snd view) name with
                            | NoGuard => One None
                            | ManyGuards gs =>
                                Several (map (fun guard =>
                                                bindGuard guard
                                                  (lookup (instances m) (fst view))
                                                  m (fst view)) gs)
                            | OneGuard guard =>
                                One (bindGuard guard (lookup (instances m) (fst view))
                                       m (fst view))
                            end) views)
            = flat_map (guards_of_view name m) views).
  { intros views. rewrite flatten_map_views. apply flat_map_ext. intros [key def].
    unfold guards_of_view, extractGuard, bindGuard. simpl.
    destruct (lookup (options def) name) as [[|guard|guards]|]; reflexivity. }
  destruct reverse; [rewrite <- map_rev|]; apply Hviews.
Qed.

(** C4: the queue of the first phase holds, in this order: the leave guards
    of the deactivated records, leaf to root, each record giving the
    [beforeRouteLeave] guards of its views bound to their instances; the
    global before-hooks as registered (a hook registered later stands after
    the others); the [beforeRouteUpdate] guards of the updated records, root
    to leaf, bound in the same way; the [beforeEnter] of each activated
    record, root to leaf; and last one step that resolves the lazily loaded
    views of the activated records.  (With the records, [guards.reverse()]
    also reverses the views of each record.) *)
Theorem guard_queue_order (h : History) (route : Route) :
  let r := resolveQueue (matched (current h)) (matched route) in
  guard_queue h route
  = flat_map (fun m => flat_map (guards_of_view "beforeRouteLeave" m)
                         (rev (components m)))
      (rev (deactivated r))
    ++ map (option_map Guard) (beforeHooks (router h))
    ++ flat_map (fun m => flat_map (guards_of_view "beforeRouteUpdate" m)
                            (components m))
         (updated r)
    ++ map (fun m => option_map Guard (beforeEnter m)) (activated r)
    ++ [Some (asyncResolver (activated r))]
  /\ forall fn, map (option_map Guard) (registerHook (beforeHooks (router h)) fn)
                = map (option_map Guard) (beforeHooks (router h)) ++ [Some (Guard fn)].
Proof.
  intros r. split.
  - unfold guard_queue. fold r. unfold extractLeaveGuards, extractUpdateHooks.
    rewrite extractGuards_by_record_reverse, extractGuards_by_record.
    unfold resolveAsyncComponents.
    f_equal; [|f_equal; f_equal];
      apply flat_map_ext; intros m; apply extractGuards_of_record.
  - intros fn. unfold registerHook. now rewrite map_app.
Qed.

(** ** Computing with [M] *)

Lemma andThen_ret_l (m : M) (h : History) : (ret ;; m) h = m h.
Proof. unfold andThen, ret. now destruct (m h). Qed.

Lemma andThen_modify (f : History -> History) (m : M) (h : History) :
  (modify f ;; m) h = m (f h).
Proof. unfold andThen, modify. now destruct (m (f h)). Qed.

Lemma andThen_emit (e : Event) (m : M) (h : History) :
  (emit e ;; m) h = let 'Out h' l k x := m h in Out h' (e :: l) k x.
Proof. reflexivity. Qed.

Lemma forEach_events {A : Type} (f : A -> M) (events : A -> list Event)
    (l : list A) (h : History) :
  (forall x h, f x h = Out h (events x) [] None) ->
  forEach l f h = Out h (flat_map events l) [] None.
Proof.
  intros Hf. induction l as [|x l IH]; [reflexivity|].
  simpl. unfold andThen. rewrite Hf, IH. reflexivity.
Qed.

Lemma forEach_emit {A : Type} (event : A -> Event) (l : list A) (h : History) :
  forEach l (fun x => emit (event x)) h = Out h (map event l) [] None.
Proof.
  rewrite (forEach_events _ (fun x => [event x])) by reflexivity.
  f_equal; induction l as [|x l IH]; simpl; congruence.
Qed.

(** ** What an abort and a completion of [transitionTo] do *)

Section Outcomes.

Variable guard_act : GuardRef -> option Instance -> Route -> Route -> GuardAct.
Variable async_act : list RouteRecord -> Route -> Route -> GuardAct.
Variable production : bool.

(** The events of [abort(err)] when [onAbort] is the handler of
    [transitionTo]: the error callbacks (or the console) for an error, the
    [onAbort] of the caller, and the ready-error callbacks if a truthy [err]
    comes before the history is ready. *)
Definition abort_log (onAbort : option Callback) (err : NextArg) (h : History)
    : list Event :=
  (if isError err then
     match errorCbs h with
     | [] => (if production then []
              else [ConsoleWarn "[vue-router] uncaught error during route navigation:"])
             ++ [ConsoleError err]
     | cbs => map (fun f => ErrorCb f err) cbs
     end
   else [])
  ++ match onAbort with Some f => [Abort f err] | None => [] end
  ++ (if truthy_arg err && negb (ready h)
      then map (fun f => ReadyErrorCb f err) (readyErrorCbs h)
      else []).

Definition abort_state (err : NextArg) (h : History) : History :=
  if truthy_arg err && negb (ready h) then set_ready true h else h.

Lemma transition_abort_outcome (onAbort : option Callback) (err : NextArg) (h : History) :
  transition_abort onAbort err h
  = Out (abort_state err h)
        (match onAbort with Some f => [Abort f err] | None => [] end
         ++ (if truthy_arg err && negb (ready h)
             then map (fun f => ReadyErrorCb f err) (readyErrorCbs h)
             else []))
        [] None.
Proof.
  unfold transition_abort, abort_state.
  destruct onAbort as [f|].
  - rewrite andThen_emit.
    destruct (truthy_arg err && negb (ready h)).
    + rewrite andThen_modify, forEach_emit. reflexivity.
    + reflexivity.
  - rewrite andThen_ret_l.
    destruct (truthy_arg err && negb (ready h)).
    + rewrite andThen_modify, forEach_emit. reflexivity.
    + reflexivity.
Qed.

Lemma report_outcome (err : NextArg) (h : History) :
  (if Nat.ltb 0 (List.length (errorCbs h))
   then forEach (errorCbs h) (fun f => emit (ErrorCb f err)) h
   else (warn production false "uncaught error during route navigation:" ;;
         emit (ConsoleError err)) h)
  = Out h match errorCbs h with
          | [] => (if production then []
                   else [ConsoleWarn "[vue-router] uncaught error during route navigation:"])
                  ++ [ConsoleError err]
          | cbs => map (fun f => ErrorCb f err) cbs
          end [] None.
Proof.
  destruct (errorCbs h) as [|f cbs] eqn:Ecbs.
  - unfold warn. destruct production; reflexivity.
  - change (Nat.ltb 0 (List.length (f :: cbs))) with true. cbv iota.
    apply forEach_emit.
Qed.

Lemma abort_outcome (onAbort : option Callback) (err : NextArg) (h : History) :
  abort production (Some (transition_abort onAbort)) err h
  = Out (abort_state err h) (abort_log onAbort err h) [] None.
Proof.
  unfold abort, abort_log.
  destruct (isError err).
  - unfold andThen. rewrite report_outcome, transition_abort_outcome. reflexivity.
  - rewrite andThen_ret_l, transition_abort_outcome. reflexivity.
Qed.

(** The state and the events of a transition to [route] that commits. *)
Definition complete_state (route : Route) (h : History) : History :=
  let h' := set_current route (set_pending None h) in
  if ready h then h' else set_ready true h'.

Definition complete_log (route : Route) (onComplete : option Callback) (h : History)
    : list Event :=
  match cb h with Some f => [Listener f route] | None => [] end
  ++ flat_map (fun x => match x with
                        | Some f => [AfterHook f route (current h)]
                        | None => []
                        end) (afterHooks (router h))
  ++ match onComplete with Some f => [Complete f route] | None => [] end
  ++ [EnsureURL false]
  ++ (if ready h then [] else map (fun f => ReadyCb f (Some route)) (readyCbs h))
  ++ (if router_app (router h) then [NextTick route] else []).

Lemma updateRoute_outcome (route : Route) (h : History) :
  updateRoute route h
  = Out (set_current route h)
        (match cb h with Some f => [Listener f route] | None => [] end
         ++ flat_map (fun x => match x with
                               | Some f => [AfterHook f route (current h)]
                               | None => []
                               end) (afterHooks (router h)))
        [] None.
Proof.
  unfold updateRoute. rewrite andThen_modify.
  unfold andThen. simpl cb. simpl router. simpl current.
  destruct (cb h); unfold emit at 1, ret at 1;
    rewrite (forEach_events _ (fun x => match x with
                                        | Some f => [AfterHook f route (current h)]
                                        | None => []
                                        end))
      by (intros [x|] ?; reflexivity);
    reflexivity.
Qed.

Lemma transition_complete_outcome (route r : Route) (onComplete : option Callback)
    (h : History) :
  transition_complete route onComplete r h
  = Out (if ready h then set_current route h else set_ready true (set_current route h))
        (match cb h with Some f => [Listener f route] | None => [] end
         ++ flat_map (fun x => match x with
                               | Some f => [AfterHook f route (current h)]
                               | None => []
                               end) (afterHooks (router h))
         ++ match onComplete with Some f => [Complete f route] | None => [] end
         ++ [EnsureURL false]
         ++ (if ready h then [] else map (fun f => ReadyCb f (Some route)) (readyCbs h)))
        [] None.
Proof.
  unfold transition_complete. unfold andThen at 1. rewrite updateRoute_outcome.
  destruct onComplete as [f|].
  - rewrite andThen_emit. unfold ensureURL. rewrite andThen_emit.
    simpl ready. destruct (ready h); simpl negb; cbv iota.
    + simpl. rewrite <- !app_assoc. reflexivity.
    + rewrite andThen_modify, forEach_emit. simpl. rewrite <- !app_assoc. reflexivity.
  - rewrite andThen_ret_l. unfold ensureURL. rewrite andThen_emit.
    simpl ready. destruct (ready h); simpl negb; cbv iota.
    + simpl. rewrite <- !app_assoc. reflexivity.
    + rewrite andThen_modify, forEach_emit. simpl. rewrite <- !app_assoc. reflexivity.
Qed.

Lemma confirmed_outcome (route : Route) (onComplete onAbort : option Callback)
    (h : History) :
  confirmed production route (transition_complete route onComplete)
    (Some (transition_abort onAbort)) h
  = if is_pending h route
    then Out (complete_state route h) (complete_log route onComplete h) [] None
    else Out (abort_state NUndefined h) (abort_log onAbort NUndefined h) [] None.
Proof.
  unfold confirmed. destruct (is_pending h route); simpl negb; cbv iota.
  - rewrite andThen_modify. unfold andThen.
    rewrite transition_complete_outcome.
    unfold complete_state, complete_log.
    change (ready (set_pending None h)) with (ready h).
    change (cb (set_pending None h)) with (cb h).
    change (router (set_pending None h)) with (router h).
    change (current (set_pending None h)) with (current h).
    change (readyCbs (set_pending None h)) with (readyCbs h).
    destruct (ready h); cbv zeta;
      [change (router (set_current route (set_pending None h))) with (router h)
      |change (router (set_ready true (set_current route (set_pending None h))))
         with (router h)];
      destruct (router_app (router h)); unfold emit, ret;
      rewrite <- ?app_assoc; simpl; rewrite ?app_nil_r; reflexivity.
  - apply abort_outcome.
Qed.

End Outcomes.

(** More sample data: a router whose matcher answers every request with a
    new route for ['/a'], and a history that stands at ['/a'], is not ready
    yet and has a ready callback and a ready-error callback waiting (the
    state in which the listener, the after-hooks and [onComplete] run during
    the first commit: [updateRoute] has set [current], and [ready] is set
    after them). *)
Definition sample_router : Router :=
  {| router_app := false; beforeHooks := [Some 1]; resolveHooks := [];
     afterHooks := []; router_match := fun _ _ => route_at 2 "/a" |}.

Definition waiting_at_a : History :=
  {| router := sample_router; current := route_at 1 "/a"; pending := None;
     ready := false; readyCbs := [7]; readyErrorCbs := [8]; errorCbs := [];
     cb := None |}.

Definition idle_guards : GuardRef -> option Instance -> Route -> Route -> GuardAct :=
  fun _ _ _ _ => Defers.

Definition idle_resolver : list RouteRecord -> Route -> Route -> GuardAct :=
  fun _ _ _ => Calls NUndefined.

(** ** The same-route check *)

(** C5, as stated, fails in its last part: the no-op abort passes no error,
    so the handler of [transitionTo] leaves [ready] as it is and calls no
    ready callback. *)
Lemma same_route_fires_no_ready_callback :
  ~ (forall guard_act async_act production location onComplete onAbort h,
        let route := router_match (router h) location (current h) in
        isSameRoute route (Some (current h)) = true ->
        List.length (matched route) = List.length (matched (current h)) ->
        ready h = false ->
        forall f, In f (readyCbs h) ->
        exists r, In (ReadyCb f r)
                     (log_of (transitionTo guard_act async_act production
                                location onComplete onAbort h))).
Proof.
  intros H.
  destruct (H idle_guards idle_resolver false (RawPath "/a") None (Some 12)
              waiting_at_a eq_refl eq_refl eq_refl 7 (or_introl eq_refl))
    as [r Hin].
  vm_compute in Hin.
  destruct Hin as [Hin|[Hin|[]]]; discriminate.
Qed.

(** C5, amended: when the candidate route is the same as [current] by
    [isSameRoute] and the matched chains are as long, the transition does
    nothing but call [ensureURL()] and then [onAbort] with no error; the
    state, with [current], [pending], [ready] and the waiting callbacks, is
    what it was, no guard is called and no ready callback either. *)
Theorem same_route_is_noop
    (guard_act : GuardRef -> option Instance -> Route -> Route -> GuardAct)
    (async_act : list RouteRecord -> Route -> Route -> GuardAct)
    (production : bool) (location : RawLocation)
    (onComplete onAbort : option Callback) (h : History) :
  let route := router_match (router h) location (current h) in
  isSameRoute route (Some (current h)) = true ->
  List.length (matched route) = List.length (matched (current h)) ->
  transitionTo guard_act async_act production location onComplete onAbort h
  = Out h (EnsureURL false
           :: match onAbort with Some f => [Abort f NUndefined] | None => [] end)
        [] None.
Proof.
  intros route Hsame Hlen.
  unfold transitionTo, confirmTransition. fold route.
  rewrite Hsame, Hlen, Nat.eqb_refl. cbv [andb].
  unfold ensureURL. rewrite andThen_emit, abort_outcome.
  unfold abort_state, abort_log. simpl.
  destruct onAbort; reflexivity.
Qed.

Lemma same_route_is_noop_witness :
  transitionTo idle_guards idle_resolver false (RawPath "/a") None (Some 12)
    waiting_at_a
  = Out waiting_at_a [EnsureURL false; Abort 12 NUndefined] [] None.
Proof.
  apply (same_route_is_noop idle_guards idle_resolver false (RawPath "/a")
           None (Some 12) waiting_at_a); reflexivity.
Defined.

(** ** What [next] does with its argument *)

(** The spec's reading of the argument of [next]: it stops the transition
    when it is [false] or an error; it redirects when it is a string or an
    object that carries a path or a name, by [replace] if the object carries
    a [replace] flag. *)
Definition stops (to : NextArg) : bool :=
  match to with NBool false => true | _ => isError to end.

Definition redirect_target (to : NextArg) : option (RawLocation * bool) :=
  match to with
  | NString s => Some (RawPath s, false)
  | NObject l =>
      if is_string (loc_path l) || is_string (loc_name l)
      then Some (RawObject l, loc_replace l)
      else None
  | _ => None
  end.

(** A history in the middle of a transition from [START] to ['/a']. *)
Definition going_to_a : History :=
  set_pending (Some (route_at 2 "/a")) (new_History sample_router).

(** C6, as stated, fails in its last part: a guard that throws an error is
    not treated as one that calls [next] with it, since [next(error)] calls
    [ensureURL(true)] before it aborts and the [catch] clause does not. *)
Lemma throw_is_not_next_error :
  ~ (forall guard_throws guard_calls async_act production route current
            onAbort g next h e,
        is_pending h route = true ->
        isError e = true ->
        guard_throws g None route current = Throws e ->
        guard_calls g None route current = Calls e ->
        iterator guard_throws async_act production route current
          (Some (transition_abort onAbort)) (Guard g) next h
        = iterator guard_calls async_act production route current
            (Some (transition_abort onAbort)) (Guard g) next h).
Proof.
  intros H.
  specialize (H (fun _ _ _ _ => Throws (NError "boom"))
                (fun _ _ _ _ => Calls (NError "boom"))
                idle_resolver false (route_at 2 "/a") START (Some 12) 1 ret
                going_to_a (NError "boom") eq_refl eq_refl eq_refl eq_refl).
  apply (f_equal log_of) in H. vm_compute in H. discriminate.
Qed.

Lemma stops_no_redirect (to : NextArg) :
  stops to = false -> redirect_target to = None -> to <> NNull ->
  forall production onAbort next,
    guard_next production onAbort to next = next.
Proof.
  intros Hstop Hred Hnull production onAbort next.
  unfold guard_next. destruct to as [| |[|]| | | |l]; simpl in *;
    try discriminate; try reflexivity; try congruence.
  destruct (is_string (loc_path l) || is_string (loc_name l));
    [discriminate|reflexivity].
Qed.

(** C6, amended: when a guard of a transition that is still pending calls
    [next(to)]: for [false] or an error, [ensureURL(true)] is called, then the
    error callbacks for an error, then [onAbort(to)], and the rest of the
    queue is dropped; for a string, or an object with a path or a name,
    [onAbort()] is called and then [replace(to)] if the object has a
    [replace] flag, else [push(to)], and the rest is dropped; for anything
    else but [null] the rest of the queue runs.  A guard that throws [e]
    aborts with [e] as [next(e)] would for an error, but without the call
    of [ensureURL(true)].  A guard that returns without calling [next] leaves
    the transition waiting for that call. *)
Theorem next_dispatch
    (guard_act : GuardRef -> option Instance -> Route -> Route -> GuardAct)
    (async_act : list RouteRecord -> Route -> Route -> GuardAct)
    (production : bool) (route current : Route) (onAbort : option Callback)
    (g : GuardRef) (next : M) (h : History) :
  is_pending h route = true ->
  let called := GuardCalled g None route current in
  let handler := Some (transition_abort onAbort) in
  let run := iterator guard_act async_act production route current handler
               (Guard g) next h in
  match guard_act g None route current with
  | Calls to =>
      if stops to then
        run = Out (abort_state to h)
                  (called :: EnsureURL true :: abort_log production onAbort to h)
                  [] None
      else
        match redirect_target to with
        | Some (raw, by_replace) =>
            run = Out h (called :: abort_log production onAbort NUndefined h
                         ++ [if by_replace then Replace raw else Push raw])
                      [] None
        | None =>
            to <> NNull ->
            run = try_catch (emit called ;; next)
                    (fun e => abort production handler e) h
        end
  | Throws e =>
      run = Out (abort_state e h) (called :: abort_log production onAbort e h)
                [] None
  | Defers =>
      run = Out h [called] [fun to => guard_next production handler to next] None
  end.
Proof.
  intros Hpending called handler run. subst run.
  unfold iterator. rewrite Hpending. simpl negb. cbv iota.
  unfold call. fold called.
  destruct (guard_act g None route current) as [to|e|]; unfold act.
  - destruct (stops to) eqn:Hstop.
    + assert (Hnext : forall k, guard_next production handler to k
                                = (ensureURL true ;; abort production handler to)).
      { intros k. unfold guard_next.
        destruct to as [| |[|]| | | |l]; simpl in Hstop; try discriminate;
          try reflexivity; now rewrite Hstop. }
      rewrite Hnext. unfold try_catch, ensureURL.
      rewrite !andThen_emit. subst handler. rewrite abort_outcome. reflexivity.
    + destruct (redirect_target to) as [[raw by_replace]|] eqn:Hred.
      * assert (Hnext : guard_next production handler to next
                         = (abort production handler NUndefined ;;
                            if by_replace then replace raw else push raw)).
        { unfold guard_next.
          destruct to as [| |[|]| | | |l]; simpl in Hstop, Hred; try discriminate.
          - inversion Hred; subst.
            replace (isError (NString s)) with false by (symmetry; exact Hstop).
            reflexivity.
          - replace (isError (NObject l)) with false by (symmetry; exact Hstop).
            simpl orb. cbv iota.
            destruct (is_string (loc_path l) || is_string (loc_name l));
              [|discriminate].
            inversion Hred; subst. reflexivity. }
        rewrite Hnext. unfold try_catch. rewrite andThen_emit.
        unfold andThen at 1. subst handler. rewrite abort_outcome.
        assert (Hstate : abort_state NUndefined h = h) by reflexivity.
        rewrite Hstate.
        destruct by_replace; reflexivity.
      * intros Hnull. now rewrite (stops_no_redirect to Hstop Hred Hnull).
  - unfold try_catch, throw. rewrite andThen_emit.
    subst handler. rewrite abort_outcome. reflexivity.
  - reflexivity.
Qed.

Lemma next_dispatch_witness :
  iterator (fun _ _ _ _ => Calls (NBool false)) idle_resolver false
    (route_at 2 "/a") START (Some (transition_abort (Some 12))) (Guard 1) ret
    going_to_a
  = Out going_to_a
        [GuardCalled 1 None (route_at 2 "/a") START; EnsureURL true;
         Abort 12 (NBool false)]
        [] None.
Proof.
  exact (next_dispatch (fun _ _ _ _ => Calls (NBool false)) idle_resolver false
           (route_at 2 "/a") START (Some 12) 1 ret going_to_a eq_refl).
Defined.

(** [next(null)]: [typeof null] is ['object'], so the test reads
    [null.path], which throws a [TypeError]; from a guard that calls it before
    returning, the [catch] clause aborts the transition with that error. *)
Lemma next_null_throws
    (guard_act : GuardRef -> option Instance -> Route -> Route -> GuardAct)
    (async_act : list RouteRecord -> Route -> Route -> GuardAct)
    (production : bool) (route current : Route) (onAbort : option Callback)
    (g : GuardRef) (next : M) (h : History) :
  is_pending h route = true ->
  guard_act g None route current = Calls NNull ->
  let error := NError "TypeError: Cannot read property 'path' of null" in
  iterator guard_act async_act production route current
    (Some (transition_abort onAbort)) (Guard g) next h
  = Out (abort_state error h)
        (GuardCalled g None route current :: abort_log production onAbort error h)
        [] None.
Proof.
  intros Hpending Hact error.
  unfold iterator. rewrite Hpending. simpl negb. cbv iota.
  unfold call. rewrite Hact. unfold act, guard_next, try_catch, throw. simpl.
  rewrite abort_outcome. reflexivity.
Qed.

(** When the candidate is not the same route, [confirmTransition] marks it
    pending and runs the queue of the first phase, then the second phase. *)
Lemma confirmTransition_runs_guard_queue
    (guard_act : GuardRef -> option Instance -> Route -> Route -> GuardAct)
    (async_act : list RouteRecord -> Route -> Route -> GuardAct)
    (production : bool) (route : Route) (onComplete : Route -> M)
    (onAbort : option (NextArg -> M)) (h : History) :
  isSameRoute route (Some (current h))
  && (List.length (matched route) =? List.length (matched (current h))) = false ->
  confirmTransition guard_act async_act production route onComplete onAbort h
  = runQueue (guard_queue h route)
      (iterator guard_act async_act production route (current h) onAbort)
      (enter_phase guard_act async_act production route (current h)
         (activated (resolveQueue (matched (current h)) (matched route)))
         onComplete onAbort)
      (set_pending (Some route) h).
Proof.
  intros Hdiffers. unfold confirmTransition. rewrite Hdiffers.
  now rewrite andThen_modify.
Qed.

(** ** Superseded transitions *)


(** What [abort()] makes of the handler of [transitionTo]: the one call
    [onAbort(undefined)]. *)
Definition aborted (onAbort : option Callback) : list Event :=
  match onAbort with Some f => [Abort f NUndefined] | None => [] end.


Section Staleness.

Variable guard_act : GuardRef -> option Instance -> Route -> Route -> GuardAct.
Variable async_act : list RouteRecord -> Route -> Route -> GuardAct.
Variable production : bool.
Variables (route : Route) (onAbort : option Callback).

Let handler : option (NextArg -> M) := Some (transition_abort onAbort).








(** [abort()] with the handler of [transitionTo]. *)
Lemma abort_undefined (h : History) :
  abort production handler NUndefined h = Out h (aborted onAbort) [] None.
Proof.
  unfold handler. rewrite abort_outcome. unfold abort_log, aborted.
  destruct onAbort; reflexivity.
Qed.

(** The four things the function passed to a hook may do. *)
Lemma guard_next_cases (to : NextArg) (next : M) (h : History) :
  (stops to = true
   /\ guard_next production handler to next h
      = Out (abort_state to h)
            (EnsureURL true :: abort_log production onAbort to h) [] None)
  \/ (exists raw by_replace,
         stops to = false /\ redirect_target to = Some (raw, by_replace)
         /\ guard_next production handler to next h
            = Out h (aborted onAbort
                     ++ [if by_replace then Replace raw else Push raw]) [] None)
  \/ (to = NNull
      /\ guard_next production handler to next h
         = Out h [] [] (Some (NError "TypeError: Cannot read property 'path' of null")))
  \/ (stops to = false /\ redirect_target to = None /\ to <> NNull
      /\ guard_next production handler to next h = next h).
Proof.
  destruct (stops to) eqn:Hstop.
  - left. split; [reflexivity|].
    assert (Hnext : guard_next production handler to next
                    = (ensureURL true ;; abort production handler to)).
    { unfold guard_next.
      destruct to as [| |[|]| | | |l]; simpl in Hstop; try discriminate;
        try reflexivity; now rewrite Hstop. }
    rewrite Hnext. unfold ensureURL. rewrite andThen_emit.
    unfold handler. now rewrite abort_outcome.
  - right. destruct (redirect_target to) as [[raw by_replace]|] eqn:Hred.
    + left. exists raw, by_replace. repeat split.
      assert (Hnext : guard_next production handler to next
                      = (abort production handler NUndefined ;;
                         if by_replace then replace raw else push raw)).
      { unfold guard_next.
        destruct to as [| |[|]| | | |l]; simpl in Hstop, Hred; try discriminate.
        - inversion Hred; subst.
          replace (isError (NString s)) with false by (symmetry; exact Hstop).
          reflexivity.
        - replace (isError (NObject l)) with false by (symmetry; exact Hstop).
          simpl orb. cbv iota.
          destruct (is_string (loc_path l) || is_string (loc_name l));
            [|discriminate].
          inversion Hred; subst. reflexivity. }
      rewrite Hnext. unfold andThen at 1. rewrite abort_undefined.
      destruct by_replace; reflexivity.
    + right. destruct to as [| |[|]| | | |l] eqn:Hto;
        try (right; repeat split; try discriminate;
             rewrite <- Hto in *;
             rewrite (stops_no_redirect to); subst to; auto; discriminate).
      left. split; reflexivity.
Qed.












Variable onComplete : option Callback.




End Staleness.

(** A router with two routes and one global before-hook, and guards that
    keep [next] when the target is ['/a'] and call [next()] otherwise. *)
Definition two_routes : Router :=
  {| router_app := false; beforeHooks := [Some 1]; resolveHooks := [];
     afterHooks := [];
     router_match := fun location _ =>
       match location with
       | RawPath s => if String.eqb s "/a" then route_at 1 "/a" else route_at 2 "/b"
       | RawObject _ => route_at 2 "/b"
       end |}.

Definition slow_to_a : GuardRef -> option Instance -> Route -> Route -> GuardAct :=
  fun _ _ to _ => if route_ref to =? 1 then Defers else Calls NUndefined.

(** The transition to ['/a'] waits in its hook; meanwhile the transition to
    ['/b'] starts and commits; then the hook of the first calls [next()]. *)
Definition first_started : Outcome :=
  transitionTo slow_to_a idle_resolver false (RawPath "/a") (Some 11) (Some 12)
    (new_History two_routes).

Definition second_committed : History :=
  state_of (transitionTo slow_to_a idle_resolver false (RawPath "/b")
              (Some 21) (Some 22) (state_of first_started)).

Definition kept_by_first : NextArg -> M :=
  hd (fun _ => ret) (held_of first_started).



(** The same superseded transition is not silent either when its guard
    refuses: [next(error)] from it resyncs the URL, reports the error and
    calls the abort callback with it. *)
Lemma superseded_transition_reports_error :
  kept_by_first (NError "late") second_committed
  = Out second_committed
        [EnsureURL true; ConsoleWarn "[vue-router] uncaught error during route navigation:";
         ConsoleError (NError "late"); Abort 12 (NError "late")]
        [] None.
Proof. vm_compute. reflexivity. Qed.



(** ** The ready callbacks *)

Definition is_ready_call (e : Event) : bool :=
  match e with
  | ReadyCb _ _ | ReadyErrorCb _ _ => true
  | _ => false
  end.

(** The calls of ready and ready-error callbacks in a log, in order. *)
Definition ready_calls (log : list Event) : list Event := filter is_ready_call log.

(** What a call does about the ready callbacks, from the state [h]: it
    leaves the two lists as they are; if the history is ready it stays so and
    no callback is called; if it is not, either nothing happens, or the
    history becomes ready and every callback of one of the two lists is called
    once, in order: the ready callbacks with the route, or the ready-error
    callbacks with the error. *)
Definition fires_once (h : History) (o : Outcome) : Prop :=
  readyCbs (state_of o) = readyCbs h
  /\ readyErrorCbs (state_of o) = readyErrorCbs h
  /\ if ready h then ready (state_of o) = true /\ ready_calls (log_of o) = []
     else (ready (state_of o) = false /\ ready_calls (log_of o) = [])
          \/ (ready (state_of o) = true
              /\ ((exists r, ready_calls (log_of o)
                             = map (fun f => ReadyCb f (Some r)) (readyCbs h))
                  \/ (exists err, ready_calls (log_of o)
                                  = map (fun f => ReadyErrorCb f err)
                                        (readyErrorCbs h)))).

(** [Sound h o]: the call that gave [o] from [h] fires once, and so does
    every later call of a continuation it left, from whatever state. *)
Inductive Sound : History -> Outcome -> Prop :=
| Sound_intro (h : History) (o : Outcome) :
    fires_once h o ->
    (forall k, In k (held_of o) -> forall to h', Sound h' (k to h')) ->
    Sound h o.

Lemma Sound_fires (h : History) (o : Outcome) : Sound h o -> fires_once h o.
Proof. intros H. inversion H; subst. assumption. Qed.

Lemma Sound_held (h : History) (o : Outcome) :
  Sound h o -> forall k, In k (held_of o) -> forall to h', Sound h' (k to h').
Proof. intros H. inversion H; subst. assumption. Qed.

Lemma ready_calls_app (l1 l2 : list Event) :
  ready_calls (l1 ++ l2) = ready_calls l1 ++ ready_calls l2.
Proof. apply filter_app. Qed.

(** One call after another fires once if each does. *)
Lemma fires_once_then (h : History) (o1 o2 : Outcome) (k : list (NextArg -> M))
    (x : option NextArg) :
  fires_once h o1 -> fires_once (state_of o1) o2 ->
  fires_once h (Out (state_of o2) (log_of o1 ++ log_of o2) k x).
Proof.
  unfold fires_once. simpl.
  intros (Hc1 & He1 & H1) (Hc2 & He2 & H2).
  rewrite Hc1 in Hc2, H2. rewrite He1 in He2, H2.
  rewrite ready_calls_app.
  refine (conj Hc2 (conj He2 _)).
  destruct (ready h).
  - destruct H1 as [Hr1 Hq1]. rewrite Hr1 in H2. destruct H2 as [Hr2 Hq2].
    now rewrite Hq1, Hq2.
  - destruct H1 as [[Hr1 Hq1]|[Hr1 Hf1]]; rewrite Hr1 in H2.
    + rewrite Hq1. simpl. exact H2.
    + destruct H2 as [Hr2 Hq2]. rewrite Hq2, app_nil_r. right. auto.
Qed.

Lemma fires_once_quiet (h h' : History) (log : list Event)
    (k : list (NextArg -> M)) (x : option NextArg) :
  readyCbs h' = readyCbs h -> readyErrorCbs h' = readyErrorCbs h ->
  ready h' = ready h -> ready_calls log = [] ->
  fires_once h (Out h' log k x).
Proof.
  intros Hc He Hr Hq. unfold fires_once. simpl.
  refine (conj Hc (conj He _)). rewrite Hr, Hq.
  destruct (ready h); auto.
Qed.

Lemma Sound_ret (h : History) : Sound h (ret h).
Proof.
  constructor; [now apply fires_once_quiet|intros k []].
Qed.

Lemma Sound_emit (e : Event) (h : History) :
  is_ready_call e = false -> Sound h (emit e h).
Proof.
  intros He. constructor; [|intros k []].
  apply fires_once_quiet; auto. unfold ready_calls. simpl. now rewrite He.
Qed.

Lemma Sound_throw (e : NextArg) (h : History) : Sound h (throw e h).
Proof.
  constructor; [now apply fires_once_quiet|intros k []].
Qed.

Lemma Sound_modify (f : History -> History) (h : History) :
  readyCbs (f h) = readyCbs h -> readyErrorCbs (f h) = readyErrorCbs h ->
  ready (f h) = ready h ->
  Sound h (modify f h).
Proof.
  intros Hc He Hr. constructor; [now apply fires_once_quiet|intros k []].
Qed.

Lemma Sound_hold (k : NextArg -> M) (h : History) :
  (forall to h', Sound h' (k to h')) -> Sound h (hold k h).
Proof.
  intros Hk. constructor; [now apply fires_once_quiet|].
  intros k' [<-|[]]. exact Hk.
Qed.

Lemma Sound_andThen (m1 m2 : M) (h : History) :
  Sound h (m1 h) -> (forall h1, Sound h1 (m2 h1)) -> Sound h ((m1 ;; m2) h).
Proof.
  intros H1 H2. unfold andThen.
  destruct (m1 h) as [h1 l1 k1 [e|]] eqn:E1; [exact H1|].
  specialize (H2 h1). destruct (m2 h1) as [h2 l2 k2 e2] eqn:E2.
  constructor.
  - apply (fires_once_then h (Out h1 l1 k1 None) (Out h2 l2 k2 e2));
      now apply Sound_fires.
  - simpl. intros k Hin. apply in_app_or in Hin as [Hin|Hin].
    + now apply (Sound_held _ _ H1).
    + now apply (Sound_held _ _ H2).
Qed.

Lemma Sound_try_catch (m : M) (handler : NextArg -> M) (h : History) :
  Sound h (m h) -> (forall e h1, Sound h1 (handler e h1)) ->
  Sound h (try_catch m handler h).
Proof.
  intros H1 H2. unfold try_catch.
  destruct (m h) as [h1 l1 k1 [e|]] eqn:E1; [|exact H1].
  specialize (H2 e h1). destruct (handler e h1) as [h2 l2 k2 e2] eqn:E2.
  constructor.
  - apply (fires_once_then h (Out h1 l1 k1 (Some e)) (Out h2 l2 k2 e2));
      now apply Sound_fires.
  - simpl. intros k Hin. apply in_app_or in Hin as [Hin|Hin].
    + now apply (Sound_held _ _ H1).
    + now apply (Sound_held _ _ H2).
Qed.

Lemma ready_calls_map_none {A : Type} (event : A -> Event) (l : list A) :
  (forall x, is_ready_call (event x) = false) -> ready_calls (map event l) = [].
Proof.
  intros H. induction l as [|x l IH]; [reflexivity|].
  unfold ready_calls in *. simpl. now rewrite H.
Qed.

Lemma ready_calls_map_all {A : Type} (event : A -> Event) (l : list A) :
  (forall x, is_ready_call (event x) = true) ->
  ready_calls (map event l) = map event l.
Proof.
  intros H. induction l as [|x l IH]; [reflexivity|].
  unfold ready_calls in *. simpl. now rewrite H, IH.
Qed.

Lemma ready_calls_flat_map_none {A : Type} (events : A -> list Event) (l : list A) :
  (forall x, ready_calls (events x) = []) -> ready_calls (flat_map events l) = [].
Proof.
  intros H. induction l as [|x l IH]; [reflexivity|].
  simpl. now rewrite ready_calls_app, H, IH.
Qed.

Section Readiness.

Variable guard_act : GuardRef -> option Instance -> Route -> Route -> GuardAct.
Variable async_act : list RouteRecord -> Route -> Route -> GuardAct.
Variable production : bool.

Lemma ready_calls_abort_log (onAbort : option Callback) (err : NextArg) (h : History) :
  ready_calls (abort_log production onAbort err h)
  = if truthy_arg err && negb (ready h)
    then map (fun f => ReadyErrorCb f err) (readyErrorCbs h)
    else [].
Proof.
  unfold abort_log. rewrite !ready_calls_app.
  assert (H1 : ready_calls
                 (if isError err then
                    match errorCbs h with
                    | [] => (if production then []
                             else [ConsoleWarn "[vue-router] uncaught error during route navigation:"])
                            ++ [ConsoleError err]
                    | cbs => map (fun f => ErrorCb f err) cbs
                    end
                  else []) = []).
  { destruct (isError err); [|reflexivity].
    destruct (errorCbs h) as [|f cbs].
    - destruct production; reflexivity.
    - now apply (ready_calls_map_none (fun f => ErrorCb f err)). }
  assert (H2 : ready_calls match onAbort with
                           | Some f => [Abort f err]
                           | None => []
                           end = []) by (destruct onAbort; reflexivity).
  rewrite H1, H2. simpl.
  destruct (truthy_arg err && negb (ready h)); [|reflexivity].
  now apply (ready_calls_map_all (fun f => ReadyErrorCb f err)).
Qed.

Lemma Sound_abort (onAbort : option Callback) (err : NextArg) (h : History) :
  Sound h (abort production (Some (transition_abort onAbort)) err h).
Proof.
  rewrite abort_outcome. constructor; [|intros k []].
  unfold fires_once. simpl. rewrite ready_calls_abort_log. unfold abort_state.
  destruct (truthy_arg err && negb (ready h)) eqn:Hcond.
  - apply andb_prop in Hcond as [_ Hr]. apply negb_true_iff in Hr.
    rewrite Hr. simpl. refine (conj eq_refl (conj eq_refl _)).
    right. split; [reflexivity|]. right. now exists err.
  - refine (conj eq_refl (conj eq_refl _)). destruct (ready h); auto.
Qed.

Lemma ready_calls_complete_log (route : Route) (onComplete : option Callback)
    (h : History) :
  ready_calls (complete_log route onComplete h)
  = if ready h then [] else map (fun f => ReadyCb f (Some route)) (readyCbs h).
Proof.
  unfold complete_log. rewrite !ready_calls_app.
  assert (H1 : ready_calls match cb h with
                           | Some f => [Listener f route]
                           | None => []
                           end = []) by (destruct (cb h); reflexivity).
  assert (H2 : ready_calls
                 (flat_map (fun x => match x with
                                     | Some f => [AfterHook f route (current h)]
                                     | None => []
                                     end) (afterHooks (router h))) = []).
  { apply ready_calls_flat_map_none. intros [f|]; reflexivity. }
  assert (H3 : ready_calls match onComplete with
                           | Some f => [Complete f route]
                           | None => []
                           end = []) by (destruct onComplete; reflexivity).
  assert (H4 : ready_calls (if router_app (router h) then [NextTick route] else [])
               = []) by (destruct (router_app (router h)); reflexivity).
  rewrite H1, H2, H3, H4, app_nil_r. simpl.
  destruct (ready h); [reflexivity|].
  now apply (ready_calls_map_all (fun f => ReadyCb f (Some route))).
Qed.

Lemma Sound_confirmed (route : Route) (onComplete onAbort : option Callback)
    (h : History) :
  Sound h (confirmed production route (transition_complete route onComplete)
             (Some (transition_abort onAbort)) h).
Proof.
  rewrite confirmed_outcome. destruct (is_pending h route).
  - constructor; [|intros k []].
    unfold fires_once. simpl. rewrite ready_calls_complete_log.
    unfold complete_state. destruct (ready h) eqn:Hr; simpl.
    + auto.
    + refine (conj eq_refl (conj eq_refl _)).
      right. split; [reflexivity|]. left. now exists route.
  - rewrite <- abort_outcome. apply Sound_abort.
Qed.

Lemma Sound_guard_next (onAbort : option Callback) (to : NextArg) (next : M)
    (h : History) :
  (forall h, Sound h (next h)) ->
  Sound h (guard_next production (Some (transition_abort onAbort)) to next h).
Proof.
  intros Hnext. unfold guard_next.
  destruct (match to with NBool false => true | _ => false end || isError to).
  - apply Sound_andThen; [now apply Sound_emit|intros; apply Sound_abort].
  - destruct to as [| |flag| | | |l]; try apply Hnext.
    + apply Sound_throw.
    + apply Sound_andThen; [apply Sound_abort|intros; now apply Sound_emit].
    + destruct (is_string (loc_path l) || is_string (loc_name l)); [|apply Hnext].
      apply Sound_andThen; [apply Sound_abort|].
      intros h1. destruct (loc_replace l); now apply Sound_emit.
Qed.

Lemma Sound_act (a : GuardAct) (k : NextArg -> M) (h : History) :
  (forall to h', Sound h' (k to h')) -> Sound h (act a k h).
Proof.
  intros Hk. destruct a; simpl; [apply Hk|apply Sound_throw|now apply Sound_hold].
Qed.

Lemma Sound_iterator (route current : Route) (onAbort : option Callback)
    (hook : NavigationGuard) (next : M) :
  (forall h, Sound h (next h)) ->
  forall h, Sound h (iterator guard_act async_act production route current
                       (Some (transition_abort onAbort)) hook next h).
Proof.
  intros Hnext h. unfold iterator.
  destruct (is_pending h route); simpl negb; cbv iota; [|apply Sound_abort].
  apply Sound_try_catch; [|intros; apply Sound_abort].
  assert (Hk : forall to h',
             Sound h' (guard_next production (Some (transition_abort onAbort))
                         to next h')).
  { intros to h'. now apply Sound_guard_next. }
  destruct hook as [g|g instance|g m key|activated]; unfold call;
    (apply Sound_andThen; [now apply Sound_emit|]); intros h1;
    apply Sound_act; try exact Hk.
  intros to h'. apply Sound_andThen; [apply Hk|].
  intros h2. destruct to; try apply Sound_ret. now apply Sound_emit.
Qed.

Lemma Sound_step (route current : Route) (onAbort : option Callback)
    (queue : list (option NavigationGuard)) (done : M) :
  (forall h, Sound h (done h)) ->
  forall remaining index h,
    Sound h (step queue (iterator guard_act async_act production route current
                           (Some (transition_abort onAbort))) done remaining index h).
Proof.
  intros Hdone. induction remaining as [|n IH]; intros index h; simpl; [apply Hdone|].
  destruct (nth_error queue index) as [[hook|]|]; try apply IH.
  apply Sound_iterator. apply IH.
Qed.

Lemma Sound_transitionTo (location : RawLocation)
    (onComplete onAbort : option Callback) (h : History) :
  Sound h (transitionTo guard_act async_act production location
             onComplete onAbort h).
Proof.
  unfold transitionTo, confirmTransition.
  destruct (isSameRoute _ _ && _).
  - apply Sound_andThen; [now apply Sound_emit|intros; apply Sound_abort].
  - apply Sound_andThen; [now apply Sound_modify|].
    intros h1. unfold runQueue. apply Sound_step.
    intros h2. unfold enter_phase, runQueue. apply Sound_step.
    intros h3. apply Sound_confirmed.
Qed.

End Readiness.

(** ** Runs of a history *)

(** The hook registries of [src/index.js]: [beforeEach], [beforeResolve]
    and [afterEach] push onto the lists of the router. *)
Definition beforeEach (fn : GuardRef) : M :=
  modify (fun h => set_router
    {| router_app := router_app (router h);
       beforeHooks := registerHook (beforeHooks (router h)) fn;
       resolveHooks := resolveHooks (router h);
       afterHooks := afterHooks (router h);
       router_match := router_match (router h) |} h).

Definition beforeResolve (fn : GuardRef) : M :=
  modify (fun h => set_router
    {| router_app := router_app (router h);
       beforeHooks := beforeHooks (router h);
       resolveHooks := registerHook (resolveHooks (router h)) fn;
       afterHooks := afterHooks (router h);
       router_match := router_match (router h) |} h).

Definition afterEach (fn : Callback) : M :=
  modify (fun h => set_router
    {| router_app := router_app (router h);
       beforeHooks := beforeHooks (router h);
       resolveHooks := resolveHooks (router h);
       afterHooks := registerHook (afterHooks (router h)) fn;
       router_match := router_match (router h) |} h).

(** What the application may do, one call after another: call a method of
    the history or the router, or, from a guard, call a continuation that a
    guard has kept ([say_next i to] calls the [i]-th one kept so far). *)
Inductive Call : Type :=
| do_transitionTo (location : RawLocation) (onComplete onAbort : option Callback)
| do_onReady (f : Callback) (errorCb : option Callback)
| do_onError (errorCb : Callback)
| do_listen (f : Callback)
| do_beforeEach (fn : GuardRef)
| do_beforeResolve (fn : GuardRef)
| do_afterEach (fn : Callback)
| say_next (i : nat) (to : NextArg).

(** The history, the continuations kept by guards, and the events so far. *)
Record World : Type := mkWorld {
  history : History;
  kept : list (NextArg -> M);
  seen : list Event
}.

Definition start (r : Router) : World :=
  {| history := new_History r; kept := []; seen := [] |}.

Section Worlds.

Variable guard_act : GuardRef -> option Instance -> Route -> Route -> GuardAct.
Variable async_act : list RouteRecord -> Route -> Route -> GuardAct.
Variable production : bool.

Definition outcome_of (w : World) (c : Call) : Outcome :=
  match c with
  | do_transitionTo location onComplete onAbort =>
      transitionTo guard_act async_act production location onComplete onAbort
        (history w)
  | do_onReady f errorCb => onReady f errorCb (history w)
  | do_onError errorCb => onError errorCb (history w)
  | do_listen f => listen f (history w)
  | do_beforeEach fn => beforeEach fn (history w)
  | do_beforeResolve fn => beforeResolve fn (history w)
  | do_afterEach fn => afterEach fn (history w)
  | say_next i to =>
      match nth_error (kept w) i with
      | Some k => k to (history w)
      | None => ret (history w)
      end
  end.

Definition perform (w : World) (c : Call) : World :=
  let o := outcome_of w c in
  {| history := state_of o;
     kept := kept w ++ held_of o;
     seen := seen w ++ log_of o |}.

Definition perform_all (w : World) (calls : list Call) : World :=
  fold_left perform calls w.

End Worlds.

(** How often the ready callback [f] was called, and how often it was
    passed to [onReady]; the same for a ready-error callback. *)
Definition ready_count (f : Callback) (log : list Event) : nat :=
  List.length (filter (fun e => match e with
                                | ReadyCb g _ => g =? f
                                | _ => false
                                end) log).

Definition error_count (f : Callback) (log : list Event) : nat :=
  List.length (filter (fun e => match e with
                                | ReadyErrorCb g _ => g =? f
                                | _ => false
                                end) log).

Definition registered (f : Callback) (calls : list Call) : nat :=
  List.length (filter (fun c => match c with
                                | do_onReady g _ => g =? f
                                | _ => false
                                end) calls).

Definition error_registered (f : Callback) (calls : list Call) : nat :=
  List.length (filter (fun c => match c with
                                | do_onReady _ (Some g) => g =? f
                                | _ => false
                                end) calls).

Definition occurrences (f : Callback) (l : list Callback) : nat :=
  List.length (filter (fun g => g =? f) l).

(** The callbacks that still wait for the history to become ready. *)
Definition waiting (f : Callback) (h : History) : nat :=
  if ready h then 0 else occurrences f (readyCbs h).

Definition error_waiting (f : Callback) (h : History) : nat :=
  if ready h then 0 else occurrences f (readyErrorCbs h).

Lemma filter_filter_sub {A : Type} (p q : A -> bool) (l : list A) :
  (forall x, p x = true -> q x = true) -> filter p (filter q l) = filter p l.
Proof.
  intros H. induction l as [|x l IH]; [reflexivity|]. simpl.
  destruct (q x) eqn:Hq; simpl.
  - now rewrite IH.
  - destruct (p x) eqn:Hp; [|exact IH].
    rewrite (H x Hp) in Hq. discriminate.
Qed.

Lemma ready_count_calls (f : Callback) (log : list Event) :
  ready_count f (ready_calls log) = ready_count f log.
Proof.
  unfold ready_count, ready_calls. rewrite filter_filter_sub; [reflexivity|].
  intros [] H; try discriminate; reflexivity.
Qed.

Lemma error_count_calls (f : Callback) (log : list Event) :
  error_count f (ready_calls log) = error_count f log.
Proof.
  unfold error_count, ready_calls. rewrite filter_filter_sub; [reflexivity|].
  intros [] H; try discriminate; reflexivity.
Qed.

Lemma ready_count_app (f : Callback) (l1 l2 : list Event) :
  ready_count f (l1 ++ l2) = ready_count f l1 + ready_count f l2.
Proof. unfold ready_count. now rewrite filter_app, length_app. Qed.

Lemma error_count_app (f : Callback) (l1 l2 : list Event) :
  error_count f (l1 ++ l2) = error_count f l1 + error_count f l2.
Proof. unfold error_count. now rewrite filter_app, length_app. Qed.

Lemma ready_count_fired (f : Callback) (r : option Route) (l : list Callback) :
  ready_count f (map (fun g => ReadyCb g r) l) = occurrences f l
  /\ error_count f (map (fun g => ReadyCb g r) l) = 0.
Proof.
  unfold ready_count, error_count, occurrences.
  induction l as [|g l [IH1 IH2]]; [auto|]. simpl.
  split; [|exact IH2]. destruct (g =? f); simpl; now rewrite IH1.
Qed.

Lemma error_count_fired (f : Callback) (err : NextArg) (l : list Callback) :
  error_count f (map (fun g => ReadyErrorCb g err) l) = occurrences f l
  /\ ready_count f (map (fun g => ReadyErrorCb g err) l) = 0.
Proof.
  unfold ready_count, error_count, occurrences.
  induction l as [|g l [IH1 IH2]]; [auto|]. simpl.
  split; [|exact IH2]. destruct (g =? f); simpl; now rewrite IH1.
Qed.

(** A call that fires once calls no more callbacks than were waiting. *)
Lemma fires_once_waiting (f : Callback) (h : History) (o : Outcome) :
  fires_once h o ->
  ready_count f (log_of o) + waiting f (state_of o) <= waiting f h
  /\ error_count f (log_of o) + error_waiting f (state_of o) <= error_waiting f h.
Proof.
  intros (Hc & He & H).
  rewrite <- ready_count_calls, <- error_count_calls.
  unfold waiting, error_waiting. rewrite Hc, He.
  destruct (ready h).
  - destruct H as [-> ->]. simpl. auto.
  - destruct H as [[-> ->]|[-> [[r ->]|[err ->]]]].
    + simpl. auto.
    + destruct (ready_count_fired f (Some r) (readyCbs h)) as [-> ->]. lia.
    + destruct (error_count_fired f err (readyErrorCbs h)) as [-> ->]. lia.
Qed.

Lemma onReady_outcome (f : Callback) (errorCb : option Callback) (h : History) :
  onReady f errorCb h
  = if ready h then Out h [ReadyCb f None] [] None
    else Out (set_readyErrorCbs
                (readyErrorCbs h ++ match errorCb with Some e => [e] | None => [] end)
                (set_readyCbs (readyCbs h ++ [f]) h))
             [] [] None.
Proof.
  unfold onReady. destruct (ready h); [reflexivity|].
  rewrite andThen_modify. destruct errorCb as [e|]; unfold modify, ret; simpl.
  - reflexivity.
  - rewrite app_nil_r. destruct h; reflexivity.
Qed.

Section Runs.

Variable guard_act : GuardRef -> option Instance -> Route -> Route -> GuardAct.
Variable async_act : list RouteRecord -> Route -> Route -> GuardAct.
Variable production : bool.

Let outcome := outcome_of guard_act async_act production.
Let run := perform_all guard_act async_act production.

(** Every continuation kept so far fires once, whenever it is called. *)
Definition kept_sound (w : World) : Prop :=
  forall k, In k (kept w) -> forall to h, Sound h (k to h).

Lemma outcome_Sound (w : World) (c : Call) :
  kept_sound w ->
  match c with do_onReady _ _ => True | _ => Sound (history w) (outcome w c) end.
Proof.
  intros Hkept. destruct c; simpl; try exact I.
  - apply Sound_transitionTo.
  - now apply Sound_modify.
  - now apply Sound_modify.
  - now apply Sound_modify.
  - now apply Sound_modify.
  - now apply Sound_modify.
  - destruct (nth_error (kept w) i) as [k|] eqn:Ek; [|apply Sound_ret].
    apply Hkept. eapply nth_error_In. exact Ek.
Qed.

Lemma perform_kept_sound (w : World) (c : Call) :
  kept_sound w -> kept_sound (perform guard_act async_act production w c).
Proof.
  intros Hkept k Hin. unfold perform in Hin. simpl in Hin.
  apply in_app_or in Hin as [Hin|Hin]; [now apply Hkept|].
  pose proof (outcome_Sound w c Hkept) as Hs.
  destruct c; try (now apply (Sound_held _ _ Hs)).
  simpl in Hin. rewrite onReady_outcome in Hin.
  destruct (ready (history w)); destruct Hin.
Qed.

Lemma perform_waiting (f : Callback) (w : World) (c : Call) :
  kept_sound w ->
  let w' := perform guard_act async_act production w c in
  ready_count f (seen w') + waiting f (history w')
  <= ready_count f (seen w) + waiting f (history w) + registered f [c]
  /\ error_count f (seen w') + error_waiting f (history w')
     <= error_count f (seen w) + error_waiting f (history w)
        + error_registered f [c].
Proof.
  intros Hkept w'. subst w'. unfold perform. simpl.
  rewrite ready_count_app, error_count_app.
  pose proof (outcome_Sound w c Hkept) as Hs.
  assert (Hfire : match c with
                  | do_onReady _ _ => True
                  | _ => fires_once (history w) (outcome w c)
                  end).
  { destruct c; try exact I; now apply Sound_fires. }
  destruct c;
    try (destruct (fires_once_waiting f _ _ Hfire) as [H1 H2];
         fold outcome; simpl registered; simpl error_registered; lia).
  clear Hs Hfire. simpl outcome_of. rewrite onReady_outcome.
  unfold waiting, error_waiting, registered, error_registered,
    ready_count, error_count, occurrences.
  destruct (ready (history w)) eqn:Hr; simpl.
  - rewrite Hr. destruct errorCb as [e|]; simpl;
      repeat match goal with
             | |- context [?a =? ?b] => destruct (a =? b)
             end; simpl; unfold Callback in *; lia.
  - rewrite Hr. rewrite !filter_app, !length_app. simpl.
    destruct errorCb as [e|]; simpl;
      repeat match goal with
             | |- context [?a =? ?b] => destruct (a =? b)
             end; simpl; unfold Callback in *; lia.
Qed.

Lemma registered_cons (f : Callback) (c : Call) (calls : list Call) :
  registered f (c :: calls) = registered f [c] + registered f calls
  /\ error_registered f (c :: calls)
     = error_registered f [c] + error_registered f calls.
Proof.
  unfold registered, error_registered. simpl.
  split.
  - destruct c; simpl; try reflexivity. destruct (f0 =? f); reflexivity.
  - destruct c; simpl; try reflexivity.
    destruct errorCb as [e|]; [|reflexivity]. destruct (e =? f); reflexivity.
Qed.

Lemma run_cons (w : World) (c : Call) (calls : list Call) :
  run w (c :: calls) = run (perform guard_act async_act production w c) calls.
Proof. reflexivity. Qed.

Lemma run_waiting (f : Callback) (calls : list Call) :
  forall w, kept_sound w ->
    kept_sound (run w calls)
    /\ ready_count f (seen (run w calls)) + waiting f (history (run w calls))
       <= ready_count f (seen w) + waiting f (history w) + registered f calls
    /\ error_count f (seen (run w calls))
       + error_waiting f (history (run w calls))
       <= error_count f (seen w) + error_waiting f (history w)
          + error_registered f calls.
Proof.
  induction calls as [|c calls IH]; intros w Hkept.
  - split; [exact Hkept|]. unfold registered, error_registered.
    change (run w []) with w. simpl. lia.
  - destruct (perform_waiting f w c Hkept) as [H1 H2].
    destruct (IH _ (perform_kept_sound w c Hkept)) as (Hk & H3 & H4).
    destruct (registered_cons f c calls) as [-> ->].
    rewrite run_cons. split; [exact Hk|]. cbv zeta in H1, H2. lia.
Qed.

End Runs.


(** ** The query codec: decoding what was encoded *)

Fixpoint all_chars (p : ascii -> bool) (s : string) : bool :=
  match s with
  | EmptyString => true
  | String c rest => p c && all_chars p rest
  end.

(** The characters [encode] writes: letters, digits, [-_.~], the [%] of an
    escape and the comma. *)
Definition written (c : ascii) : bool :=
  in_range 48 57 c || in_range 65 90 c || in_range 97 122 c || one_of "-_.~%," c.

(** The first bytes of the white-space sequences and of their reversals. *)
Definition starts_space (c : ascii) : bool :=
  existsb (fun w => match w with
                    | String a _ => Ascii.eqb a c
                    | EmptyString => true
                    end)
          (white_space ++ map string_rev white_space).

Lemma written_plain (c : ascii) :
  written c = true ->
  Ascii.eqb c "&" = false /\ Ascii.eqb c "=" = false /\ Ascii.eqb c "+" = false
  /\ starts_space c = false.
Proof.
  destruct c as [[] [] [] [] [] [] [] []]; vm_compute; intros H;
    try discriminate H; repeat split.
Qed.

(** What [encode] writes for one character, and how it decodes. *)
Lemma encode_char (c : ascii) :
  (forall rest, encode (String c rest)
                = (encode (String c EmptyString) ++ encode rest)%string)
  /\ (forall t, decode (encode (String c EmptyString) ++ t)%string
                = match decode t with
                  | Normal r => Normal (String c r)
                  | Throw e => Throw e
                  end)
  /\ all_chars written (encode (String c EmptyString)) = true
  /\ nonempty (encode (String c EmptyString)) = true.
Proof.
  destruct c as [[] [] [] [] [] [] [] []];
    (split; [intros rest; reflexivity|split; [intros t; reflexivity|split; reflexivity]]).
Qed.

Lemma all_chars_app (p : ascii -> bool) (s t : string) :
  all_chars p (s ++ t)%string = all_chars p s && all_chars p t.
Proof.
  induction s as [|c s IH]; [reflexivity|]. simpl. now rewrite IH, andb_assoc.
Qed.

Lemma encode_written (s : string) : all_chars written (encode s) = true.
Proof.
  induction s as [|c s IH]; [reflexivity|].
  destruct (encode_char c) as (Hcons & _ & Hw & _).
  now rewrite Hcons, all_chars_app, Hw, IH.
Qed.

Lemma encode_nonempty (s : string) : nonempty s = true -> nonempty (encode s) = true.
Proof.
  destruct s as [|c s]; [discriminate|]. intros _.
  destruct (encode_char c) as (Hcons & _ & _ & Hne).
  rewrite Hcons. destruct (encode (String c EmptyString)); [discriminate|reflexivity].
Qed.

Lemma decode_encode (s : string) : decode (encode s) = Normal s.
Proof.
  induction s as [|c s IH]; [reflexivity|].
  destruct (encode_char c) as (Hcons & Hdec & _).
  now rewrite Hcons, Hdec, IH.
Qed.

(** [lacks a s]: the character [a] does not occur in [s]. *)
Definition lacks (a : ascii) (s : string) : bool :=
  all_chars (fun c => negb (Ascii.eqb c a)) s.

Lemma all_chars_impl (p q : ascii -> bool) (s : string) :
  (forall c, p c = true -> q c = true) ->
  all_chars p s = true -> all_chars q s = true.
Proof.
  intros H. induction s as [|c s IH]; [reflexivity|]. simpl.
  intros Hs. apply andb_prop in Hs as [Hc Hs]. now rewrite (H c Hc), IH.
Qed.

Lemma written_lacks (s : string) :
  all_chars written s = true ->
  lacks "&" s = true /\ lacks "=" s = true /\ lacks "+" s = true
  /\ all_chars (fun c => negb (starts_space c)) s = true.
Proof.
  intros H. repeat split; revert H; apply all_chars_impl; intros c Hc;
    destruct (written_plain c Hc) as (H1 & H2 & H3 & H4);
    now rewrite ?H1, ?H2, ?H3, ?H4.
Qed.

Lemma replace_char_lacks (a d : ascii) (s : string) :
  lacks a s = true -> replace_char a d s = s.
Proof.
  induction s as [|c s IH]; [reflexivity|]. unfold lacks. simpl.
  intros H. apply andb_prop in H as [Hc Hs]. apply negb_true_iff in Hc.
  now rewrite Hc, IH.
Qed.

Lemma split_on_lacks (sep : ascii) (s : string) :
  lacks sep s = true -> split_on sep s = [s].
Proof.
  induction s as [|c s IH]; [reflexivity|]. unfold lacks. simpl.
  intros H. apply andb_prop in H as [Hc Hs]. apply negb_true_iff in Hc.
  now rewrite Hc, IH.
Qed.

Lemma split_on_app (sep : ascii) (s t : string) :
  lacks sep s = true ->
  split_on sep (s ++ String sep t)%string = s :: split_on sep t.
Proof.
  induction s as [|c s IH]; unfold lacks; simpl.
  - intros _. now rewrite Ascii.eqb_refl.
  - intros H. apply andb_prop in H as [Hc Hs]. apply negb_true_iff in Hc.
    now rewrite Hc, IH.
Qed.

Lemma split_on_join (sep : ascii) (parts : list string) :
  parts <> [] -> forallb (lacks sep) parts = true ->
  split_on sep (join (String sep EmptyString) parts) = parts.
Proof.
  induction parts as [|p parts IH]; [congruence|]. intros _ H.
  simpl in H. apply andb_prop in H as [Hp Hparts].
  destruct parts as [|q parts].
  - simpl. now apply split_on_lacks.
  - change (join (String sep EmptyString) (p :: q :: parts))
      with (p ++ String sep (join (String sep EmptyString) (q :: parts)))%string.
    rewrite split_on_app by assumption. f_equal. apply IH; [discriminate|assumption].
Qed.

(** *** [trim] leaves a string with no white space as it is *)

Lemma strip_one_none (ws : list string) (c : ascii) (rest : string) :
  existsb (fun w => match w with
                    | String a _ => Ascii.eqb a c
                    | EmptyString => true
                    end) ws = false ->
  strip_one ws (String c rest) = None.
Proof.
  induction ws as [|w ws IH]; [reflexivity|]. simpl.
  intros H. apply orb_false_iff in H as [Hw Hws].
  destruct w as [|a w]; [discriminate|].
  simpl. destruct (ascii_dec a c) as [->|Hne].
  - now rewrite Ascii.eqb_refl in Hw.
  - now apply IH.
Qed.

Lemma trim_start_none (ws : list string) (s : string) :
  strip_one ws s = None -> trim_start ws s = s.
Proof.
  intros H. unfold trim_start. destruct (String.length s); simpl; now rewrite ?H.
Qed.

Lemma append_assoc (s t u : string) : ((s ++ t) ++ u = s ++ (t ++ u))%string.
Proof. induction s as [|c s IH]; simpl; congruence. Qed.

Lemma append_empty_r (s : string) : (s ++ EmptyString)%string = s.
Proof. induction s as [|c s IH]; simpl; congruence. Qed.

Lemma string_rev_onto_app (s acc : string) :
  string_rev_onto s acc = (string_rev_onto s EmptyString ++ acc)%string.
Proof.
  revert acc. induction s as [|c s IH]; intros acc; [reflexivity|]. simpl.
  rewrite (IH (String c acc)), (IH (String c EmptyString)).
  now rewrite append_assoc.
Qed.

Lemma string_rev_app (s t : string) :
  string_rev (s ++ t)%string = (string_rev t ++ string_rev s)%string.
Proof.
  unfold string_rev. induction s as [|c s IH]; simpl.
  - now rewrite append_empty_r.
  - rewrite string_rev_onto_app, IH, (string_rev_onto_app s (String c EmptyString)).
    now rewrite append_assoc.
Qed.

Lemma string_rev_involutive (s : string) : string_rev (string_rev s) = s.
Proof.
  induction s as [|c s IH]; [reflexivity|].
  change (String c s) with (String c EmptyString ++ s)%string.
  rewrite string_rev_app, string_rev_app, IH. reflexivity.
Qed.

Lemma all_chars_rev (p : ascii -> bool) (s : string) :
  all_chars p (string_rev s) = all_chars p s.
Proof.
  induction s as [|c s IH]; [reflexivity|].
  change (String c s) with (String c EmptyString ++ s)%string.
  rewrite string_rev_app, !all_chars_app, IH. apply andb_comm.
Qed.

Lemma trim_no_space (s : string) :
  all_chars (fun c => negb (starts_space c)) s = true -> trim s = s.
Proof.
  intros H. unfold trim.
  assert (Hstart : forall t,
             all_chars (fun c => negb (starts_space c)) t = true ->
             trim_start white_space t = t
             /\ trim_start (map string_rev white_space) t = t).
  { intros [|c t] Ht; [split; reflexivity|].
    simpl in Ht. apply andb_prop in Ht as [Hc _]. apply negb_true_iff in Hc.
    unfold starts_space in Hc. rewrite existsb_app in Hc.
    apply orb_false_iff in Hc as [H1 H2].
    split; apply trim_start_none, strip_one_none; assumption. }
  destruct (Hstart s H) as [-> _].
  rewrite <- all_chars_rev in H. destruct (Hstart _ H) as [_ ->].
  apply string_rev_involutive.
Qed.

(** *** The queries that come back as they were *)

Definition scalar (v : QVal) : bool :=
  match v with QNull | QString _ => true | _ => false end.

(** A string, [null], or an array of at least two of them. *)
Definition restorable (v : QVal) : bool :=
  match v with
  | QNull | QString _ => true
  | QArray items => (2 <=? List.length items) && forallb scalar items
  | _ => false
  end.

(** A key that [Object.prototype] does not have. *)
Definition plain_key (k : string) : bool :=
  negb (existsb (String.eqb k) Object_prototype).

(** An entry for which [stringifyQuery] writes something: every entry but
    the empty key with [null], whose segment is the empty string. *)
Definition legible (kv : string * QVal) : bool :=
  nonempty (fst kv) || match snd kv with QNull => false | _ => true end.

Fixpoint distinct (ks : list string) : bool :=
  match ks with
  | [] => true
  | k :: rest => negb (existsb (String.eqb k) rest) && distinct rest
  end.

Definition restorable_query (m : Dictionary) : bool :=
  distinct (map fst m)
  && forallb (fun kv => plain_key (fst kv) && restorable (snd kv)) m
  && forallb legible m.

(** The segment of the query string for a key and a scalar. *)
Definition segment (kv : string * QVal) : string :=
  match snd kv with
  | QString s => (encode (fst kv) ++ "=" ++ encode s)%string
  | _ => encode (fst kv)
  end.

(** The key of an entry with each of the scalars of its value. *)
Definition pairs (kv : string * QVal) : list (string * QVal) :=
  match snd kv with
  | QArray items => map (pair (fst kv)) items
  | v => [(fst kv, v)]
  end.

Lemma stringify_key_segments (k : string) (v : QVal) :
  restorable v = true ->
  stringify_key k v = join "&" (map segment (pairs (k, v))).
Proof.
  destruct v as [| |s|items|props|n]; try discriminate; try reflexivity.
  simpl. intros H. apply andb_prop in H as [_ H].
  unfold stringify_key, pairs. simpl. f_equal.
  induction items as [|x items IH]; [reflexivity|].
  simpl in H. apply andb_prop in H as [Hx H].
  simpl. rewrite (IH H).
  destruct x; try discriminate; reflexivity.
Qed.

Lemma own_distinct (m : Dictionary) :
  distinct (map fst m) = true ->
  forall kv, In kv m -> own m (fst kv) = Some (snd kv).
Proof.
  induction m as [|[k v] m IH]; intros Hd kv Hin; [destruct Hin|].
  simpl in Hd. apply andb_prop in Hd as [Hk Hd]. apply negb_true_iff in Hk.
  destruct Hin as [<-|Hin]; simpl.
  - now rewrite String.eqb_refl.
  - destruct (String.eqb k (fst kv)) eqn:E; [|now apply IH].
    apply String.eqb_eq in E. subst k.
    assert (Hex : existsb (String.eqb (fst kv)) (map fst m) = true).
    { apply existsb_exists. exists (fst kv). split; [|apply String.eqb_refl].
      now apply in_map. }
    congruence.
Qed.

Lemma join_app (sep : string) (xs ys : list string) :
  xs <> [] -> ys <> [] ->
  join sep (xs ++ ys) = (join sep xs ++ sep ++ join sep ys)%string.
Proof.
  intros Hx Hy. induction xs as [|x xs IH]; [congruence|].
  destruct xs as [|x' xs].
  - simpl. destruct ys; [congruence|reflexivity].
  - change (join sep ((x :: x' :: xs) ++ ys))
      with (x ++ sep ++ join sep ((x' :: xs) ++ ys))%string.
    rewrite IH by discriminate.
    change (join sep (x :: x' :: xs)) with (x ++ sep ++ join sep (x' :: xs))%string.
    now rewrite !append_assoc.
Qed.

Lemma join_groups (sep : string) (groups : list (list string)) :
  forallb (fun g => match g with [] => false | _ => true end) groups = true ->
  join sep (map (join sep) groups) = join sep (List.concat groups).
Proof.
  induction groups as [|g groups IH]; [reflexivity|]. intros H.
  simpl in H. apply andb_prop in H as [Hg H].
  destruct groups as [|g' groups].
  - simpl. now rewrite app_nil_r.
  - change (join sep (map (join sep) (g :: g' :: groups)))
      with (join sep g ++ sep ++ join sep (map (join sep) (g' :: groups)))%string.
    rewrite (IH H). change (List.concat (g :: g' :: groups))
      with (g ++ List.concat (g' :: groups)).
    rewrite join_app; [reflexivity|now destruct g|].
    simpl in H. apply andb_prop in H as [Hg' _].
    destruct g'; [discriminate|discriminate].
Qed.

Lemma lacks_app (a : ascii) (s t : string) :
  lacks a (s ++ t)%string = lacks a s && lacks a t.
Proof. apply all_chars_app. Qed.

(** A segment holds no [&], no [+] and no white space, and is not empty
    if its key is not. *)
Lemma segment_plain (kv : string * QVal) :
  lacks "&" (segment kv) = true /\ lacks "+" (segment kv) = true
  /\ all_chars (fun c => negb (starts_space c)) (segment kv) = true
  /\ (nonempty (fst kv) = true -> nonempty (segment kv) = true).
Proof.
  destruct (written_lacks _ (encode_written (fst kv))) as (Ha & _ & Hp & Hs).
  assert (Hne : nonempty (fst kv) = true ->
                forall t, nonempty (encode (fst kv) ++ t)%string = true).
  { intros H t. apply encode_nonempty in H.
    destruct (encode (fst kv)); [discriminate|reflexivity]. }
  unfold segment. destruct (snd kv) as [| |s|items|props|n];
    try (repeat split; auto; apply encode_nonempty).
  destruct (written_lacks _ (encode_written s)) as (Ha' & _ & Hp' & Hs').
  unfold lacks in *. rewrite !all_chars_app. simpl.
  rewrite Ha, Hp, Hs, Ha', Hp', Hs'. repeat split; auto.
Qed.

Lemma parse_segment (res : Dictionary) (kv : string * QVal) :
  scalar (snd kv) = true ->
  parse_param res (segment kv) = Normal (store res (fst kv) (snd kv)).
Proof.
  destruct kv as [k v]. simpl. intros Hv.
  destruct (segment_plain (k, v)) as (_ & Hplus & _).
  unfold parse_param. rewrite (replace_char_lacks _ _ _ Hplus).
  destruct (written_lacks _ (encode_written k)) as (_ & He & _).
  unfold segment. simpl.
  destruct v as [| |s|items|props|n]; try discriminate.
  - rewrite (split_on_lacks _ _ He). simpl. now rewrite decode_encode.
  - rewrite (split_on_app _ _ _ He).
    destruct (written_lacks _ (encode_written s)) as (_ & He' & _).
    rewrite (split_on_lacks _ _ He'). simpl.
    now rewrite !decode_encode.
Qed.

Lemma parse_segments (ps : list (string * QVal)) :
  forallb (fun kv => scalar (snd kv)) ps = true ->
  forall res,
    fold_left (fun res param =>
                 match res with
                 | Normal res => parse_param res param
                 | Throw e => Throw e
                 end) (map segment ps) (Normal res)
    = Normal (fold_left (fun res kv => store res (fst kv) (snd kv)) ps res).
Proof.
  induction ps as [|kv ps IH]; intros H res; [reflexivity|].
  simpl in H. apply andb_prop in H as [Hkv H].
  simpl. rewrite (parse_segment res kv Hkv). now apply IH.
Qed.

(** *** Storing the pairs of a query gives the query *)

Lemma own_app_none (acc l : Dictionary) (k : string) :
  own acc k = None -> own (acc ++ l) k = own l k.
Proof.
  induction acc as [|[k' v'] acc IH]; [reflexivity|]. simpl.
  destruct (String.eqb k' k); [discriminate|exact IH].
Qed.

Lemma update_app_none (acc l : Dictionary) (k : string) (v : QVal) :
  own acc k = None -> update (acc ++ l) k v = acc ++ update l k v.
Proof.
  induction acc as [|[k' v'] acc IH]; [reflexivity|]. simpl.
  destruct (String.eqb k' k); [discriminate|]. intros H. now rewrite IH.
Qed.

Lemma own_not_in (acc : Dictionary) (k : string) :
  existsb (String.eqb k) (map fst acc) = false -> own acc k = None.
Proof.
  induction acc as [|[k' v'] acc IH]; [reflexivity|]. simpl.
  intros H. apply orb_false_iff in H as [Hk H].
  rewrite String.eqb_sym, Hk. now apply IH.
Qed.

Lemma distinct_middle (xs ys : list string) (k : string) :
  distinct (xs ++ k :: ys) = true -> existsb (String.eqb k) xs = false.
Proof.
  induction xs as [|x xs IH]; [reflexivity|]. simpl.
  intros H. apply andb_prop in H as [Hx H]. apply negb_true_iff in Hx.
  rewrite (IH H), orb_false_r.
  destruct (String.eqb k x) eqn:E; [|reflexivity].
  apply String.eqb_eq in E. subst x.
  rewrite existsb_app in Hx. simpl in Hx.
  now rewrite String.eqb_refl, orb_true_r in Hx.
Qed.

Lemma plain_key_inherited (k : string) :
  plain_key k = true ->
  inherited k = QUndefined /\ String.eqb k "__proto__" = false.
Proof.
  unfold plain_key, inherited. intros H.
  apply negb_true_iff in H.
  destruct (String.eqb k "__proto__") eqn:E.
  - apply String.eqb_eq in E. subst k. discriminate.
  - now rewrite H.
Qed.

Section Store.

Variables (acc : Dictionary) (k : string).
Hypothesis fresh : own acc k = None.
Hypothesis plain : plain_key k = true.

Lemma store_first (v : QVal) : store acc k v = acc ++ [(k, v)].
Proof.
  destruct (plain_key_inherited k plain) as [Hi Hp].
  unfold store, get, assign. rewrite fresh, Hi, Hp.
  rewrite <- (app_nil_r acc) at 1. now rewrite update_app_none.
Qed.

Lemma store_second (e1 e2 : QVal) :
  scalar e1 = true ->
  store (acc ++ [(k, e1)]) k e2 = acc ++ [(k, QArray [e1; e2])].
Proof.
  intros He. destruct (plain_key_inherited k plain) as [_ Hp].
  unfold store, get, assign. rewrite own_app_none by exact fresh.
  simpl. rewrite String.eqb_refl, Hp.
  destruct e1; try discriminate;
    rewrite update_app_none by exact fresh; simpl;
    now rewrite String.eqb_refl.
Qed.

Lemma store_push (items : list QVal) (e : QVal) :
  store (acc ++ [(k, QArray items)]) k e = acc ++ [(k, QArray (items ++ [e]))].
Proof.
  destruct (plain_key_inherited k plain) as [_ Hp].
  unfold store, get, assign. rewrite own_app_none by exact fresh.
  simpl. rewrite String.eqb_refl, Hp.
  rewrite update_app_none by exact fresh. simpl. now rewrite String.eqb_refl.
Qed.

Lemma store_pushes (rest items : list QVal) :
  fold_left (fun res kv => store res (fst kv) (snd kv)) (map (pair k) rest)
    (acc ++ [(k, QArray items)])
  = acc ++ [(k, QArray (items ++ rest))].
Proof.
  revert items. induction rest as [|e rest IH]; intros items.
  - simpl. now rewrite app_nil_r.
  - simpl. rewrite store_push, IH, <- app_assoc. reflexivity.
Qed.

Lemma store_entry (v : QVal) :
  restorable v = true ->
  fold_left (fun res kv => store res (fst kv) (snd kv)) (pairs (k, v)) acc
  = acc ++ [(k, v)].
Proof.
  destruct v as [| |s|items|props|n]; try discriminate; intros Hv;
    try (simpl; now rewrite store_first).
  simpl in Hv. apply andb_prop in Hv as [Hlen Hitems].
  destruct items as [|e1 [|e2 rest]]; try discriminate.
  simpl in Hitems. apply andb_prop in Hitems as [He1 _].
  unfold pairs. simpl. rewrite store_first, (store_second e1 e2 He1).
  apply (store_pushes rest [e1; e2]).
Qed.

End Store.

Lemma store_all (m : Dictionary) :
  forall acc,
    distinct (map fst (acc ++ m)) = true ->
    forallb (fun kv => plain_key (fst kv) && restorable (snd kv)) m = true ->
    fold_left (fun res kv => store res (fst kv) (snd kv)) (flat_map pairs m) acc
    = acc ++ m.
Proof.
  induction m as [|[k v] m IH]; intros acc Hd Hm.
  - simpl. now rewrite app_nil_r.
  - simpl in Hm. apply andb_prop in Hm as [Hkv Hm].
    apply andb_prop in Hkv as [Hk Hv].
    assert (Hfresh : own acc k = None).
    { apply own_not_in. rewrite map_app in Hd. simpl in Hd.
      now apply distinct_middle in Hd. }
    simpl flat_map. rewrite fold_left_app.
    rewrite (store_entry acc k Hfresh Hk v Hv).
    rewrite IH; [now rewrite <- app_assoc| |exact Hm].
    now rewrite <- app_assoc.
Qed.

Lemma filter_all {A : Type} (p : A -> bool) (l : list A) :
  forallb p l = true -> filter p l = l.
Proof.
  induction l as [|x l IH]; [reflexivity|]. simpl.
  intros H. apply andb_prop in H as [Hx H]. now rewrite Hx, IH.
Qed.

Lemma all_chars_join (p : ascii -> bool) (sep : string) (parts : list string) :
  all_chars p sep = true -> forallb (all_chars p) parts = true ->
  all_chars p (join sep parts) = true.
Proof.
  intros Hsep. induction parts as [|x parts IH]; [reflexivity|].
  simpl. intros H. apply andb_prop in H as [Hx H].
  destruct parts as [|y parts]; [exact Hx|].
  rewrite !all_chars_app, Hx, Hsep. now apply IH.
Qed.

Lemma nonempty_join (sep : string) (x : string) (parts : list string) :
  nonempty x = true -> nonempty (join sep (x :: parts)) = true.
Proof.
  intros H. destruct x; [discriminate|]. destruct parts; reflexivity.
Qed.

(** What [stringifyQuery] writes for a legible entry is not empty. *)
Lemma entry_nonempty (kv : string * QVal) :
  restorable (snd kv) = true -> legible kv = true ->
  nonempty (join "&" (map segment (pairs kv))) = true.
Proof.
  destruct kv as [k v]. unfold legible, pairs. simpl fst. simpl snd.
  destruct v as [| |s|[|x [|y items]]|props|n]; try discriminate; intros _ Hk.
  - rewrite orb_false_r in Hk. now apply (segment_plain (k, QNull)).
  - unfold segment. simpl. now destruct (encode k).
  - simpl. now destruct (segment (k, x)).
Qed.

Lemma segment_groups (m : Dictionary) :
  flat_map (fun kv => map segment (pairs kv)) m = map segment (flat_map pairs m).
Proof.
  induction m as [|kv m IH]; [reflexivity|]. simpl. now rewrite map_app, IH.
Qed.

Lemma groups_nonempty (m : Dictionary) :
  forallb (fun kv => plain_key (fst kv) && restorable (snd kv)) m = true ->
  forallb (fun g => match g with [] => false | _ :: _ => true end)
    (map (fun kv => map segment (pairs kv)) m) = true.
Proof.
  intros Hall. rewrite forallb_forall. intros g Hg.
  apply in_map_iff in Hg as ([k v] & <- & Hin).
  rewrite forallb_forall in Hall. specialize (Hall _ Hin).
  apply andb_prop in Hall as [_ Hv]. unfold pairs. simpl.
  destruct v as [| |s|[|x items]|props|n]; try discriminate; reflexivity.
Qed.

Lemma entries_nonempty (m : Dictionary) :
  forallb (fun kv => plain_key (fst kv) && restorable (snd kv)) m = true ->
  forallb legible m = true ->
  forallb nonempty (map (join "&") (map (fun kv => map segment (pairs kv)) m)) = true.
Proof.
  intros Hall Hleg. rewrite forallb_forall. intros x Hx.
  apply in_map_iff in Hx as (g & <- & Hg).
  apply in_map_iff in Hg as (kv & <- & Hin).
  rewrite forallb_forall in Hall, Hleg. specialize (Hall _ Hin).
  apply andb_prop in Hall as [_ Hv]. apply entry_nonempty; auto.
Qed.

(** The segments of a restorable query that is not empty, joined, are not
    the empty string. *)
Lemma segments_nonempty (m : Dictionary) :
  restorable_query m = true -> m <> [] ->
  nonempty (join "&" (map segment (flat_map pairs m))) = true.
Proof.
  intros H Hm. unfold restorable_query in H. apply andb_prop in H as [H Hleg].
  apply andb_prop in H as [_ Hall].
  rewrite <- segment_groups, flat_map_concat_map.
  rewrite <- (join_groups _ _ (groups_nonempty m Hall)).
  pose proof (entries_nonempty m Hall Hleg) as Hne.
  destruct m as [|kv m]; [congruence|].
  simpl in Hne. apply andb_prop in Hne as [Hne _].
  simpl map. now apply nonempty_join.
Qed.

(** The segments [stringifyQuery] writes for a restorable query. *)
Lemma stringifyQuery_segments (m : Dictionary) :
  restorable_query m = true -> m <> [] ->
  stringifyQuery (QObject m)
  = String "?" (join "&" (map segment (flat_map pairs m))).
Proof.
  intros H Hm. pose proof (segments_nonempty m H Hm) as Hne.
  unfold restorable_query in H. apply andb_prop in H as [H Hleg].
  apply andb_prop in H as [Hd Hall].
  unfold stringifyQuery. simpl truthy. cbv iota.
  assert (Hmap : map (fun key => stringify_key key (get (QObject m) key))
                     (keys (QObject m))
                 = map (join "&") (map (fun kv => map segment (pairs kv)) m)).
  { simpl keys. rewrite !map_map. apply map_ext_in. intros [k v] Hin.
    unfold get. rewrite (own_distinct m Hd (k, v) Hin). simpl.
    apply stringify_key_segments.
    rewrite forallb_forall in Hall. specialize (Hall _ Hin).
    now apply andb_prop in Hall as [_ Hv]. }
  rewrite Hmap, (filter_all _ _ (entries_nonempty m Hall Hleg)).
  rewrite (join_groups _ _ (groups_nonempty m Hall)).
  rewrite <- flat_map_concat_map, segment_groups.
  now rewrite Hne.
Qed.

Lemma restorable_pairs_scalar (m : Dictionary) :
  forallb (fun kv => plain_key (fst kv) && restorable (snd kv)) m = true ->
  forallb (fun kv => scalar (snd kv)) (flat_map pairs m) = true.
Proof.
  induction m as [|[k v] m IH]; [reflexivity|]. simpl.
  intros H. apply andb_prop in H as [Hkv H]. apply andb_prop in Hkv as [_ Hv].
  rewrite forallb_app, (IH H), andb_true_r.
  unfold pairs. simpl.
  destruct v as [| |s|items|props|n]; try discriminate; try reflexivity.
  simpl in Hv. apply andb_prop in Hv as [_ Hv].
  rewrite forallb_forall in *. intros kv Hin.
  apply in_map_iff in Hin as (x & <- & Hx). now apply Hv.
Qed.

(** C7, as stated, fails: an array of one value comes back as the value
    itself (and an empty array does not come back at all). *)
Lemma query_round_trip_loses_short_arrays :
  ~ (forall m : Dictionary,
        distinct (map fst m) = true ->
        forallb (fun kv => match snd kv with
                           | QNull | QString _ => true
                           | QArray items => forallb scalar items
                           | _ => false
                           end) m = true ->
        parseQuery (stringifyQuery (QObject m)) = Normal m).
Proof.
  intros H.
  specialize (H [("a", QArray [QString "x"])] eq_refl eq_refl).
  vm_compute in H. discriminate.
Qed.

(** Two more queries that do not come back: a key that is empty writes
    nothing for [null], and a key that names a member of [Object.prototype]
    finds that member where [parseQuery] expects [undefined]. *)
Lemma query_round_trip_loses_empty_key :
  parseQuery (stringifyQuery (QObject [("", QNull)])) = Normal [].
Proof. vm_compute. reflexivity. Qed.

Lemma query_round_trip_finds_prototype_member :
  parseQuery (stringifyQuery (QObject [("toString", QString "x")]))
  = Normal [("toString", QArray [QNative "toString"; QString "x"])].
Proof. vm_compute. reflexivity. Qed.

(** The empty key comes back with every value but [null]. *)
Lemma query_round_trip_keeps_empty_key :
  parseQuery (stringifyQuery (QObject [("", QString "x")])) = Normal [("", QString "x")]
  /\ parseQuery (stringifyQuery (QObject [("", QArray [QNull; QNull])]))
     = Normal [("", QArray [QNull; QNull])].
Proof. split; vm_compute; reflexivity. Qed.

(** C7, amended: for a query whose keys are distinct and not names of
    [Object.prototype] (they may hold any characters, [! ' ( ) *] and commas
    among them, and a key may be empty unless its value is [null]), and whose
    values are strings, [null], or arrays of at least two strings or [null]s,
    decoding the encoded string gives the query back.  The strings are the
    well-formed ones: each is held by the bytes of its UTF-8 form. *)
Theorem query_round_trip (m : Dictionary) :
  restorable_query m = true ->
  parseQuery (stringifyQuery (QObject m)) = Normal m.
Proof.
  intros H. destruct m as [|kv m']; [reflexivity|].
  set (m := kv :: m') in *.
  rewrite (stringifyQuery_segments m H) by discriminate.
  pose proof (segments_nonempty m H) as Hne.
  unfold restorable_query in H. apply andb_prop in H as [H _].
  apply andb_prop in H as [Hd Hall].
  set (segs := map segment (flat_map pairs m)) in *.
  specialize (Hne ltac:(discriminate)).
  assert (Hsegs : segs <> []).
  { intros Hnil. rewrite Hnil in Hne. discriminate. }
  assert (Hamp : forallb (lacks "&") segs = true).
  { rewrite forallb_forall. intros x Hx. apply in_map_iff in Hx as (kv' & <- & _).
    apply segment_plain. }
  assert (Hspace : all_chars (fun c => negb (starts_space c))
                     (String "?" (join "&" segs)) = true).
  { change (String "?" (join "&" segs)) with ("?" ++ join "&" segs)%string.
    rewrite all_chars_app. apply andb_true_intro. split; [reflexivity|].
    apply all_chars_join; [reflexivity|].
    rewrite forallb_forall. intros x Hx. apply in_map_iff in Hx as (kv' & <- & _).
    apply segment_plain. }
  unfold parseQuery. rewrite (trim_no_space _ Hspace).
  change (strip_lead (String "?" (join "&" segs))) with (join "&" segs).
  rewrite Hne. simpl negb. cbv iota.
  change "&"%string with (String "&"%char EmptyString).
  rewrite (split_on_join "&" segs Hsegs Hamp).
  subst segs. rewrite (parse_segments _ (restorable_pairs_scalar m Hall)).
  f_equal. apply (store_all m []); assumption.
Qed.

Lemma query_round_trip_witness :
  parseQuery
    (stringifyQuery
       (QObject [("a!'()*,b", QArray [QString "x y"; QNull; QString "1,2"]);
                 ("c", QNull); ("", QArray [QNull; QString ""]);
                 ("d", QString "e&f=g")]))
  = Normal [("a!'()*,b", QArray [QString "x y"; QNull; QString "1,2"]);
            ("c", QNull); ("", QArray [QNull; QString ""]);
            ("d", QString "e&f=g")].
Proof.
  apply (query_round_trip
           [("a!'()*,b", QArray [QString "x y"; QNull; QString "1,2"]);
            ("c", QNull); ("", QArray [QNull; QString ""]);
            ("d", QString "e&f=g")]).
  reflexivity.
Defined.

(* ================================================================== *)
(** * Part III: further properties of the code *)
(* ================================================================== *)

(** ** [runQueue]: queues put together, entries that are absent *)

(** X1: running the concatenation of two queues is running the first one
    with, as its callback, the run of the second: the two phases of
    [confirmTransition] are one queue cut in two. *)
Theorem runQueue_app {A R : Type} (q1 q2 : list (option A)) (fn : A -> R -> R)
    (cb : R) :
  runQueue (q1 ++ q2) fn cb = runQueue q1 fn (runQueue q2 fn cb).
Proof. rewrite !runQueue_fold. apply fold_right_app. Qed.

(** The entries of a queue that hold something. *)
Definition present {A : Type} (x : option A) : bool :=
  match x with Some _ => true | None => false end.

(** X2: the entries of the queue that are [undefined] are stepped over: the
    run is that of the queue without them. *)
Theorem runQueue_skips_absent {A R : Type} (q : list (option A)) (fn : A -> R -> R)
    (cb : R) :
  runQueue q fn cb = runQueue (filter present q) fn cb.
Proof.
  rewrite !runQueue_fold.
  induction q as [|[x|] q IH]; simpl; congruence.
Qed.

(** ** The query codec: what [encode] and [stringifyQuery] write *)

(** X3: [decode] gives back what [encode] was given, whatever characters
    the (well-formed) string holds. *)
Theorem decode_inverts_encode (s : string) : decode (encode s) = Normal s.
Proof. apply decode_encode. Qed.

Lemma lacks_not_written (c : ascii) (s : string) :
  written c = false -> all_chars written s = true -> lacks c s = true.
Proof.
  intros Hc. apply all_chars_impl. intros x Hx.
  destruct (Ascii.eqb x c) eqn:E; [|reflexivity].
  apply Ascii.eqb_eq in E. congruence.
Qed.

(** X4: [encode] writes none of the characters that delimit a query
    string or a URL, [&], [=], [+], [?], [#], [/] and the space, and none of
    the five characters [! ' ( ) *] that [encodeURIComponent] leaves as they
    are and [encode] escapes.  (The comma is not among them: [encode] writes
    it as it is.) *)
Theorem encode_writes_no_delimiter (s : string) (c : ascii) :
  one_of "&=+?#/ !'()*" c = true -> lacks c (encode s) = true.
Proof.
  intros Hc. apply lacks_not_written; [|apply encode_written].
  destruct c as [[] [] [] [] [] [] [] []]; try discriminate Hc; reflexivity.
Qed.

Lemma encode_writes_no_delimiter_witness :
  lacks "&" (encode "Tom & Jerry (1940)") = true.
Proof.
  apply (encode_writes_no_delimiter "Tom & Jerry (1940)" "&"). reflexivity.
Defined.

(** The characters of a query string: those [encode] writes, and the
    three that [stringifyQuery] puts between them. *)
Definition query_char (c : ascii) : bool := written c || one_of "?&=" c.

Lemma encode_query_chars (s : string) : all_chars query_char (encode s) = true.
Proof.
  apply (all_chars_impl written); [|apply encode_written].
  intros c Hc. unfold query_char. now rewrite Hc.
Qed.

Lemma stringify_key_query_chars (key : string) (val : QVal) :
  all_chars query_char (stringify_key key val) = true.
Proof.
  assert (Hpair : forall v, all_chars query_char
                              (encode key ++ "=" ++ encode (toString v))%string = true).
  { intros v. rewrite !all_chars_app, !encode_query_chars. reflexivity. }
  destruct val as [| |s|items|props|n]; unfold stringify_key;
    [reflexivity|apply encode_query_chars|apply (Hpair (QString s))
    | |apply (Hpair (QObject props))|apply (Hpair (QNative n))].
  apply all_chars_join; [reflexivity|].
  rewrite forallb_forall. intros x Hx. apply in_flat_map in Hx as (v & _ & Hv).
  destruct v as [| |s|items'|props|n];
    [destruct Hv|destruct Hv as [<-|[]]; apply encode_query_chars| | | |];
    (destruct Hv as [<-|[]]; apply (Hpair _)).
Qed.

(** X5: the string [stringifyQuery] gives holds only letters, digits,
    [- _ . ~ , %] and the delimiters [? & =]; so it holds no [#] and no [/],
    and in a full path the hash starts at the first [#] after the path. *)
Theorem stringifyQuery_alphabet (obj : QVal) :
  all_chars query_char (stringifyQuery obj) = true
  /\ lacks "#" (stringifyQuery obj) = true
  /\ lacks "/" (stringifyQuery obj) = true.
Proof.
  assert (H : all_chars query_char (stringifyQuery obj) = true).
  { unfold stringifyQuery. destruct (truthy obj); [|reflexivity].
    destruct (nonempty _); [|reflexivity].
    change (all_chars query_char
              ("?" ++ join "&" (filter nonempty
                                  (map (fun key => stringify_key key (get obj key))
                                       (keys obj))))%string = true).
    rewrite all_chars_app. apply andb_true_intro. split; [reflexivity|].
    apply all_chars_join; [reflexivity|].
    rewrite forallb_forall. intros x Hx. apply filter_In in Hx as [Hx _].
    apply in_map_iff in Hx as (key & <- & _). apply stringify_key_query_chars. }
  split; [exact H|].
  split; revert H; apply all_chars_impl; intros c Hc;
    destruct c as [[] [] [] [] [] [] [] []]; try discriminate Hc; reflexivity.
Qed.

(** ** [resolveQuery]: the extra query over the parsed one *)

Lemma own_update (a : Dictionary) (k key : string) (v : QVal) :
  own (update a k v) key = if String.eqb k key then Some v else own a key.
Proof.
  induction a as [|[k' v'] a IH]; simpl.
  - reflexivity.
  - destruct (String.eqb k' k) eqn:E; simpl.
    + apply String.eqb_eq in E. subst k'. now destruct (String.eqb k key).
    + rewrite IH. destruct (String.eqb k' key) eqn:E'; [|reflexivity].
      apply String.eqb_eq in E'. subst k'.
      rewrite String.eqb_sym in E. now rewrite E.
Qed.

Lemma get_assign (a : Dictionary) (k key : string) (v : QVal) :
  String.eqb k "__proto__" = false ->
  get (QObject (assign a k v)) key
  = if String.eqb k key then v else get (QObject a) key.
Proof.
  intros Hk. unfold assign, get. rewrite Hk, own_update.
  now destruct (String.eqb k key).
Qed.

(** Reading a key after the loop [for (const key in b) a[key] = b[key]]. *)
Lemma get_assign_from (b : QVal) (key : string) (ks : list string) :
  forall a,
    existsb (String.eqb "__proto__") ks = false ->
    get (QObject (fold_left (fun a k => assign a k (get b k)) ks a)) key
    = if existsb (String.eqb key) ks then get b key else get (QObject a) key.
Proof.
  induction ks as [|k ks IH]; intros a Hks; [reflexivity|].
  simpl in Hks. apply orb_false_iff in Hks as [Hk Hks].
  simpl. rewrite (IH _ Hks).
  destruct (existsb (String.eqb key) ks); [now rewrite orb_true_r|].
  rewrite orb_false_r, get_assign by now rewrite String.eqb_sym.
  rewrite (String.eqb_sym key k).
  destruct (String.eqb k key) eqn:E; [|reflexivity].
  apply String.eqb_eq in E. now subst k.
Qed.

(** X6: in the query [resolveQuery] returns, a key of [extraQuery] reads as
    in [extraQuery], and any other key as in the parsed query string; when
    the parser throws, the whole query string is dropped, the other keys read
    as in an empty object, and one warning is written unless in production.
    ([extraQuery] has no own key [__proto__], whose assignment would change
    the prototype and not the property.) *)
Theorem resolveQuery_lookup (production : bool) (query : option string)
    (extraQuery : QVal) (_parseQuery : option (string -> Completion Dictionary))
    (key : string) :
  existsb (String.eqb "__proto__") (keys extraQuery) = false ->
  let parse := match _parseQuery with Some f => f | None => parseQuery end in
  let resolved := resolveQuery production query extraQuery _parseQuery in
  get (QObject (fst resolved)) key
  = (if existsb (String.eqb key) (keys extraQuery) then get extraQuery key
     else match parse (or_string query "") with
          | Normal parsedQuery => get (QObject parsedQuery) key
          | Throw _ => get (QObject []) key
          end)
  /\ snd resolved
     = match parse (or_string query "") with
       | Normal _ => []
       | Throw message =>
           if production then [] else [("[vue-router] " ++ message)%string]
       end.
Proof.
  intros Hproto parse resolved. subst resolved. unfold resolveQuery. fold parse.
  simpl fst. simpl snd. unfold assign_from.
  rewrite (get_assign_from extraQuery key (keys extraQuery) _ Hproto).
  destruct (parse (or_string query "")) as [parsedQuery|message]; simpl.
  - auto.
  - split; [reflexivity|]. destruct production; reflexivity.
Qed.

Lemma resolveQuery_lookup_witness :
  let resolved :=
    resolveQuery false (Some "a=1&b=2") (QObject [("b", QString "3")]) None in
  get (QObject (fst resolved)) "b" = QString "3" /\ snd resolved = [].
Proof.
  apply (resolveQuery_lookup false (Some "a=1&b=2") (QObject [("b", QString "3")])
           None "b").
  reflexivity.
Defined.

(** ** Values: copies and comparisons *)

(** Induction on a value, with the property for the members of an array or
    of an object. *)
Lemma QVal_nested_ind (P : QVal -> Prop) :
  P QUndefined -> P QNull -> (forall s, P (QString s)) ->
  (forall items, Forall P items -> P (QArray items)) ->
  (forall props, Forall (fun kv => P (snd kv)) props -> P (QObject props)) ->
  (forall n, P (QNative n)) ->
  forall v, P v.
Proof.
  intros Hu Hn Hs Ha Ho Hf. fix IH 1.
  intros [| |s|items|props|n]; [exact Hu|exact Hn|apply Hs| | |apply Hf].
  - apply Ha.
    exact ((fix all (l : list QVal) : Forall P l :=
              match l with
              | [] => Forall_nil P
              | x :: rest => Forall_cons x (IH x) (all rest)
              end) items).
  - apply Ho.
    exact ((fix all (l : Dictionary) : Forall (fun kv => P (snd kv)) l :=
              match l with
              | [] => Forall_nil _
              | kv :: rest => Forall_cons kv (IH (snd kv)) (all rest)
              end) props).
Qed.

(** A value whose objects, at every depth, list no key twice and have no
    own key [__proto__]. *)
Fixpoint well_formed (v : QVal) : bool :=
  match v with
  | QArray items => forallb well_formed items
  | QObject props =>
      distinct (map fst props)
      && negb (existsb (String.eqb "__proto__") (map fst props))
      && forallb (fun kv => well_formed (snd kv)) props
  | _ => true
  end.

Lemma exists_key_in (k : string) (ks : list string) :
  existsb (String.eqb k) ks = true <-> In k ks.
Proof.
  rewrite existsb_exists. split.
  - intros (x & Hx & E). apply String.eqb_eq in E. now subst x.
  - intros H. exists k. split; [exact H|apply String.eqb_refl].
Qed.

Lemma own_none_iff (m : Dictionary) (k : string) :
  own m k = None <-> ~ In k (map fst m).
Proof.
  induction m as [|[k' v] m IH]; simpl; [tauto|].
  destruct (String.eqb k' k) eqn:E.
  - apply String.eqb_eq in E. split; [discriminate|]. intros H. exfalso. auto.
  - apply String.eqb_neq in E. rewrite IH. tauto.
Qed.

(** The loop of [clone] over the properties of an object. *)
Lemma clone_properties (props : Dictionary) :
  Forall (fun kv => clone (snd kv) = snd kv) props ->
  forall res,
    distinct (map fst (res ++ props)) = true ->
    existsb (String.eqb "__proto__") (map fst props) = false ->
    (fix each (props : Dictionary) (res : Dictionary) {struct props} : Dictionary :=
       match props with
       | [] => res
       | (key, v) :: rest => each rest (assign res key (clone v))
       end) props res
    = res ++ props.
Proof.
  induction props as [|[k v] props IH]; intros Hall res Hd Hp.
  - now rewrite app_nil_r.
  - inversion Hall as [|? ? Hv Hrest]; subst. simpl in Hv.
    cbn [existsb map fst] in Hp. apply orb_false_iff in Hp as [Hk Hp].
    assert (Hfresh : own res k = None).
    { apply own_not_in. rewrite map_app in Hd. simpl in Hd.
      now apply distinct_middle in Hd. }
    rewrite Hv. unfold assign. rewrite String.eqb_sym, Hk.
    rewrite <- (app_nil_r res) at 1. rewrite update_app_none by exact Hfresh.
    simpl update. rewrite IH; [now rewrite <- app_assoc|exact Hrest| |exact Hp].
    now rewrite <- app_assoc.
Qed.

(** The copy of a well-formed value, by induction on the value. *)
Lemma clone_well_formed (v : QVal) : well_formed v = true -> clone v = v.
Proof.
  induction v as [| |s|items IH|props IH|n] using QVal_nested_ind;
    intros Hv; try reflexivity.
  - simpl. f_equal. simpl in Hv.
    induction items as [|x items IHitems]; [reflexivity|].
    simpl in Hv. apply andb_prop in Hv as [Hx Hv].
    inversion IH as [|? ? Hhead Hrest]; subst.
    simpl. now rewrite Hhead, IHitems.
  - simpl in Hv. apply andb_prop in Hv as [Hv Hall].
    apply andb_prop in Hv as [Hd Hp]. apply negb_true_iff in Hp.
    simpl. f_equal. rewrite clone_properties; [reflexivity| |exact Hd|exact Hp].
    rewrite forallb_forall in Hall. rewrite Forall_forall in *.
    intros kv Hin. apply (IH kv Hin). now apply Hall.
Qed.

(** X7: the copy [clone] makes of a well-formed value is the value: the
    arrays and the objects are rebuilt with the same members in the same
    order, at every depth. *)
Theorem clone_copies (v : QVal) : well_formed v = true -> clone v = v.
Proof. apply clone_well_formed. Qed.

Lemma clone_copies_witness :
  clone (QObject [("tags", QArray [QString "a"; QNull]); ("page", QString "2")])
  = QObject [("tags", QArray [QString "a"; QNull]); ("page", QString "2")].
Proof.
  apply (clone_copies
           (QObject [("tags", QArray [QString "a"; QNull]); ("page", QString "2")])).
  reflexivity.
Defined.

Lemma index_key_inj (i j : nat) : index_key i = index_key j -> i = j.
Proof.
  unfold index_key. intros H.
  apply (f_equal NilEmpty.uint_of_string) in H.
  rewrite !NilEmpty.usu in H. inversion H as [H'].
  apply (f_equal Nat.of_uint) in H'. now rewrite !Unsigned.of_to in H'.
Qed.

(** The member of an array (or the character of a string) at an index is
    what its index reads. *)
Lemma item_at_nth (items : list QVal) :
  forall j n x, nth_error items n = Some x ->
                item_at j items (index_key (j + n)) = Some x.
Proof.
  induction items as [|y items IH]; intros j [|n] x H; simpl in H; try discriminate.
  - inversion H; subst. simpl. now rewrite Nat.add_0_r, String.eqb_refl.
  - simpl. destruct (String.eqb (index_key j) (index_key (j + S n))) eqn:E.
    + apply String.eqb_eq, index_key_inj in E. lia.
    + replace (j + S n) with (S j + n) by lia. now apply IH.
Qed.

Lemma keys_count (v : QVal) :
  List.length (keys v)
  = match v with
    | QObject props => List.length props
    | QArray items => List.length items
    | QString s => String.length s
    | _ => 0
    end.
Proof.
  destruct v; simpl; try reflexivity; now rewrite length_map, ?length_seq.
Qed.

Lemma chars_count (s : string) : List.length (chars s) = String.length s.
Proof. induction s as [|c s IH]; simpl; congruence. Qed.

Lemma chars_strings (s : string) :
  Forall (fun x => is_object x = false) (chars s).
Proof. induction s as [|c s IH]; constructor; [reflexivity|exact IH]. Qed.

(** X8: a well-formed value is equal to itself for [isObjectEqual], so a
    route that has a path is the same route as itself for [isSameRoute]:
    asking for the location one is at is always seen as such. *)
Theorem isSameRoute_refl (a : Route) :
  nonempty (path a) = true -> well_formed (query a) = true ->
  isSameRoute a (Some a) = true.
Proof.
  intros Hpath Hquery.
  assert (Hequal : forall v, well_formed v = true -> isObjectEqual v v = true).
  { clear. induction v as [| |s|items IH|props IH|n] using QVal_nested_ind;
      intros Hv; try reflexivity.
    - destruct s as [|c s]; [reflexivity|].
      cbn [isObjectEqual nonempty truthy andb].
      rewrite keys_count, Nat.eqb_refl. cbn [andb].
      set (b := QString (String c s)).
      assert (Hread : forall n x, nth_error (chars (String c s)) n = Some x ->
                                  get b (index_key (0 + n)) = x).
      { intros n x Hn. unfold b, get. now rewrite (item_at_nth _ 0 n x Hn). }
      revert Hread. generalize 0. generalize (chars (String c s)).
      intros rest. induction rest as [|y rest IHrest]; intros j Hread; [reflexivity|].
      rewrite <- (Hread 0 y eq_refl) at 1. rewrite Nat.add_0_r, String.eqb_refl.
      cbn [andb]. apply IHrest. intros n x Hn.
      replace (S j + n) with (j + S n) by lia. now apply Hread.
    - cbn [isObjectEqual truthy andb].
      rewrite keys_count, Nat.eqb_refl. cbn [andb].
      set (b := QArray items).
      assert (Hread : forall n x, nth_error items n = Some x ->
                                  get b (index_key (0 + n)) = x).
      { intros n x Hn. unfold b, get. now rewrite (item_at_nth _ 0 n x Hn). }
      simpl in Hv.
      assert (Hall : Forall (fun x => isObjectEqual x x = true) items).
      { rewrite forallb_forall in Hv. rewrite Forall_forall in *.
        intros x Hx. apply (IH x Hx). now apply Hv. }
      clear IH Hv. revert Hread Hall. generalize 0. generalize items.
      intros rest. induction rest as [|y rest IHrest]; intros j Hread Hall;
        [reflexivity|].
      inversion Hall as [|? ? Hy Hrest]; subst.
      pose proof (Hread 0 y eq_refl) as Hhead. rewrite Nat.add_0_r in Hhead.
      rewrite Hhead, Hy, String.eqb_refl.
      replace (if is_object y && is_object y then true else true) with true
        by now destruct (is_object y).
      cbn [andb]. apply IHrest; [|exact Hrest]. intros n x Hn.
      replace (S j + n) with (j + S n) by lia. now apply Hread.
    - cbn [isObjectEqual truthy andb].
      rewrite keys_count, Nat.eqb_refl. cbn [andb].
      set (b := QObject props).
      simpl in Hv. apply andb_prop in Hv as [Hv Hwf].
      apply andb_prop in Hv as [Hd _].
      assert (Hread : forall kv, In kv props -> get b (fst kv) = snd kv).
      { intros kv Hin. unfold b, get. now rewrite (own_distinct props Hd kv Hin). }
      assert (Hall : Forall (fun kv => isObjectEqual (snd kv) (snd kv) = true) props).
      { rewrite forallb_forall in Hwf. rewrite Forall_forall in *.
        intros kv Hin. apply (IH kv Hin). now apply Hwf. }
      clear IH Hwf Hd. revert Hread Hall. generalize props.
      intros rest. induction rest as [|[k y] rest IHrest]; intros Hread Hall;
        [reflexivity|].
      inversion Hall as [|? ? Hy Hrest]; subst. simpl in Hy.
      pose proof (Hread (k, y) (or_introl eq_refl)) as Hhead. simpl in Hhead.
      rewrite Hhead, Hy, String.eqb_refl.
      replace (if is_object y && is_object y then true else true) with true
        by now destruct (is_object y).
      cbn [andb]. apply IHrest; [|exact Hrest]. intros kv Hin.
      apply Hread. now right. }
  unfold isSameRoute. destruct (same_route a START).
  - unfold same_route. apply Nat.eqb_refl.
  - rewrite Hpath, !String.eqb_refl, (Hequal _ Hquery). reflexivity.
Qed.

Lemma isSameRoute_refl_witness :
  isSameRoute (route_at 2 "/a") (Some (route_at 2 "/a")) = true.
Proof. apply (isSameRoute_refl (route_at 2 "/a")); reflexivity. Defined.

Lemma distinct_NoDup (ks : list string) : distinct ks = true -> NoDup ks.
Proof.
  induction ks as [|k ks IH]; intros H; constructor;
    simpl in H; apply andb_prop in H as [Hk H].
  - apply negb_true_iff in Hk. intros Hin. apply exists_key_in in Hin. congruence.
  - now apply IH.
Qed.

Lemma own_some_in (m : Dictionary) (k : string) (v : QVal) :
  own m k = Some v -> In (k, v) m.
Proof.
  induction m as [|[k' v'] m IH]; simpl; [discriminate|].
  destruct (String.eqb k' k) eqn:E.
  - apply String.eqb_eq in E. intros H. inversion H; subst. now left.
  - intros H. right. now apply IH.
Qed.

(** The test [isObjectEqual] makes for one key of its first argument. *)
Definition same_member (b : QVal) (kv : string * QVal) : bool :=
  let bVal := get b (fst kv) in
  if is_object (snd kv) && is_object bVal then isObjectEqual (snd kv) bVal
  else String.eqb (toString (snd kv)) (toString bVal).

Lemma isObjectEqual_objects (a b : Dictionary) :
  isObjectEqual (QObject a) (QObject b)
  = (List.length a =? List.length b) && forallb (same_member (QObject b)) a.
Proof.
  cbn [isObjectEqual truthy andb]. rewrite keys_count. f_equal.
  induction a as [|[k v] a IH]; [reflexivity|].
  cbn [forallb]. rewrite <- IH. reflexivity.
Qed.

(** A dictionary of strings. *)
Definition strings (m : Dictionary) : bool :=
  forallb (fun kv => match snd kv with QString _ => true | _ => false end) m.

(** No key is the name of a member of [Object.prototype], and no value is
    the string ['undefined']. *)
Definition unambiguous (m : Dictionary) : bool :=
  forallb (fun kv => negb (existsb (String.eqb (fst kv)) Object_prototype)
                     && negb (String.eqb (toString (snd kv)) "undefined")) m.

(** X9: on two dictionaries of strings without repeated keys, the first
    with no key named as a member of [Object.prototype] and no value
    ['undefined'], [isObjectEqual] answers [true] exactly when the two hold
    the same value under every key, in whatever order the keys come. *)
Theorem isObjectEqual_flat (a b : Dictionary) :
  distinct (map fst a) = true -> distinct (map fst b) = true ->
  strings a = true -> strings b = true -> unambiguous a = true ->
  isObjectEqual (QObject a) (QObject b) = true
  <-> forall key, own a key = own b key.
Proof.
  intros Ha Hb Hsa Hsb Hu. rewrite isObjectEqual_objects.
  unfold strings, unambiguous in *. rewrite forallb_forall in Hsa, Hsb, Hu.
  assert (Hmember : forall kv, In kv a ->
            (same_member (QObject b) kv = true <-> own b (fst kv) = Some (snd kv))).
  { intros [k v] Hin. specialize (Hsa _ Hin). specialize (Hu _ Hin).
    cbn [fst snd] in Hsa, Hu. destruct v as [| |s| | |]; try discriminate.
    apply andb_prop in Hu as [Hk Hs]. apply negb_true_iff in Hk, Hs.
    unfold same_member, get. cbn [fst snd].
    change (is_object (QString s)) with false. cbn [andb toString].
    cbn [toString] in Hs.
    destruct (own b k) as [v|] eqn:Eb.
    - apply own_some_in in Eb. specialize (Hsb _ Eb). cbn [snd] in Hsb.
      destruct v as [| |t| | |]; try discriminate. cbn [toString].
      rewrite String.eqb_eq. split; congruence.
    - unfold inherited.
      assert (Hp : String.eqb k "__proto__" = false).
      { destruct (String.eqb k "__proto__") eqn:E; [|reflexivity].
        apply String.eqb_eq in E. subst k. vm_compute in Hk. discriminate. }
      rewrite Hp, Hk. cbn [toString]. rewrite Hs. split; discriminate. }
  split.
  - intros H. apply andb_prop in H as [Hlen Hall]. apply Nat.eqb_eq in Hlen.
    rewrite forallb_forall in Hall.
    assert (Hsub : forall k v, own a k = Some v -> own b k = Some v).
    { intros k v Hk. apply own_some_in in Hk.
      apply (Hmember (k, v) Hk). now apply Hall. }
    assert (Hincl : incl (map fst b) (map fst a)).
    { apply NoDup_length_incl; [now apply distinct_NoDup|now rewrite !length_map, Hlen|].
      intros k Hk. apply in_map_iff in Hk as ([k' v] & <- & Hin).
      apply (in_map fst b (k', v)). apply own_some_in, Hsub.
      now apply (own_distinct a Ha (k', v)). }
    intros key. destruct (own a key) as [v|] eqn:Ea; [symmetry; now apply Hsub|].
    destruct (own b key) as [v|] eqn:Eb; [|reflexivity].
    apply own_some_in in Eb. apply (in_map fst) in Eb. apply Hincl in Eb.
    apply own_none_iff in Ea. contradiction.
  - intros H. apply andb_true_intro. split.
    + apply Nat.eqb_eq. rewrite <- (length_map fst a), <- (length_map fst b).
      assert (Hin : forall k, In k (map fst a) <-> In k (map fst b)).
      { intros k. rewrite <- !exists_key_in.
        assert (Hnone : forall m, existsb (String.eqb k) (map fst m) = true
                                  <-> own m k <> None).
        { intros m. rewrite exists_key_in. pose proof (own_none_iff m k) as Hn.
          destruct (own m k); split; intros Hx; try congruence; try tauto.
          - destruct (in_dec string_dec k (map fst m)); [assumption|].
            exfalso. apply Hx. tauto. }
        rewrite !Hnone, H. tauto. }
      apply Nat.le_antisymm; apply NoDup_incl_length;
        try (now apply distinct_NoDup); intros k Hk; now apply Hin.
    + apply forallb_forall. intros kv Hin. apply (Hmember kv Hin).
      rewrite <- H. now apply own_distinct.
Qed.

Lemma isObjectEqual_flat_witness :
  isObjectEqual (QObject [("page", QString "2"); ("sort", QString "up")])
                (QObject [("sort", QString "up"); ("page", QString "2")]) = true
  <-> forall key,
        own [("page", QString "2"); ("sort", QString "up")] key
        = own [("sort", QString "up"); ("page", QString "2")] key.
Proof.
  apply (isObjectEqual_flat [("page", QString "2"); ("sort", QString "up")]
           [("sort", QString "up"); ("page", QString "2")]); reflexivity.
Defined.

(** ** Routes: the matched chain, the full path, inclusion *)

(** Each record of the chain has the one before it as its parent, and the
    first has [up]. *)
Fixpoint linked (up : option RouteRecord) (chain : list RouteRecord) : Prop :=
  match chain with
  | [] => True
  | m :: rest => parent m = up /\ linked (Some m) rest
  end.

Lemma linked_snoc (chain : list RouteRecord) (m r : RouteRecord) :
  forall up, linked up (chain ++ [m]) -> parent r = Some m ->
             linked up ((chain ++ [m]) ++ [r]).
Proof.
  induction chain as [|x chain IH]; intros up H Hr; simpl in *.
  - tauto.
  - destruct H as [Hx H]. split; [exact Hx|]. now apply IH.
Qed.

Lemma formatMatch_loop_chain :
  forall (record : RouteRecord) (res : list RouteRecord),
  exists ancestors,
    formatMatch_loop record res = ancestors ++ record :: res
    /\ linked None (ancestors ++ [record]).
Proof.
  fix IH 1. intros [ref p n mt [up|] be cs ins] res.
  - destruct (IH up (mkRouteRecord ref p n mt (Some up) be cs ins :: res))
      as (ancestors & Heq & Hlinked).
    exists (ancestors ++ [up]). split.
    + simpl. rewrite <- app_assoc. exact Heq.
    + now apply linked_snoc.
  - exists []. simpl. auto.
Qed.

(** X10: the chain [formatMatch] builds for a record ends with the record,
    starts with a record that has no parent, and each of its records is the
    parent of the next: [matched] lists the ancestors from the root down. *)
Theorem formatMatch_chain (record : RouteRecord) :
  exists ancestors,
    formatMatch (Some record) = ancestors ++ [record]
    /\ linked None (formatMatch (Some record)).
Proof.
  destruct (formatMatch_loop_chain record []) as (ancestors & Heq & Hlinked).
  exists ancestors. unfold formatMatch. rewrite Heq. auto.
Qed.

(** X11: the full path of a route that [createRoute] makes is its path,
    then its query as the router writes queries, then its hash: the three
    fields and [fullPath] never disagree.  (The query of the location is
    missing or a well-formed object.) *)
Theorem createRoute_fullPath (ref : nat) (record : option RouteRecord)
    (location : Location) (redirectedFrom : option Location)
    (stringify : option (QVal -> string)) :
  well_formed (loc_query location) = true ->
  match loc_query location with QUndefined | QObject _ => true | _ => false end
  = true ->
  let route := createRoute ref record location redirectedFrom stringify in
  fullPath route
  = (path route
     ++ match stringify with Some f => f | None => stringifyQuery end (query route)
     ++ hash route)%string.
Proof.
  intros Hwf Hobject route. subst route. unfold createRoute, getFullPath.
  cbn [fullPath path query hash].
  assert (Hhash : match loc_hash location with None => "" | Some h => h end
                  = or_string (loc_hash location) "").
  { destruct (loc_hash location) as [[|c h]|]; reflexivity. }
  rewrite Hhash. do 2 f_equal.
  destruct (loc_query location) as [| | | |props|] eqn:Eq; try discriminate.
  - reflexivity.
  - cbn [truthy]. now rewrite (clone_well_formed (QObject props) Hwf).
Qed.

Lemma createRoute_fullPath_witness :
  let location :=
    {| loc_name := None; loc_path := Some "/list"; loc_hash := Some "#top";
       loc_query := QObject [("page", QString "2")]; loc_params := QUndefined;
       loc_replace := false |} in
  fullPath (createRoute 3 None location None None) = "/list?page=2#top".
Proof.
  apply (createRoute_fullPath 3 None
           {| loc_name := None; loc_path := Some "/list"; loc_hash := Some "#top";
              loc_query := QObject [("page", QString "2")]; loc_params := QUndefined;
              loc_replace := false |} None None); reflexivity.
Defined.

Lemma prefix_refl (s : string) : String.prefix s s = true.
Proof.
  induction s as [|c s IH]; [reflexivity|]. simpl.
  destruct (ascii_dec c c); [exact IH|congruence].
Qed.

Lemma prefix_trans (s t u : string) :
  String.prefix s t = true -> String.prefix t u = true -> String.prefix s u = true.
Proof.
  revert t u. induction s as [|c s IH]; intros t u Hst Htu; [now destruct u|].
  destruct t as [|d t]; [discriminate|]. destruct u as [|e u]; [discriminate|].
  simpl in *. destruct (ascii_dec c d); [subst d|discriminate].
  destruct (ascii_dec c e); [|discriminate]. now apply (IH t u).
Qed.

Lemma has_property_own (m : Dictionary) (kv : string * QVal) :
  In kv m -> has_property m (fst kv) = true.
Proof.
  intros Hin. unfold has_property.
  destruct (own m (fst kv)) eqn:E; [reflexivity|].
  apply own_none_iff in E. exfalso. apply E. now apply in_map.
Qed.

(** X12: a route includes itself, whenever its query is a plain object. *)
Theorem isIncludedRoute_refl (r : Route) :
  isIncludedRoute r r
  = match plain_object (query r) with
    | Some _ => Some true
    | None => None
    end.
Proof.
  unfold isIncludedRoute. rewrite prefix_refl, String.eqb_refl, orb_true_r.
  cbn [negb]. destruct (plain_object (query r)) as [m|]; [|reflexivity].
  f_equal. unfold queryIncludes. apply forallb_forall.
  intros k Hk. apply in_map_iff in Hk as (kv & <- & Hin).
  now apply has_property_own.
Qed.

(** X13: inclusion passes on: if [a] includes [b] and [b] includes [c],
    then [a] includes [c]. *)
Theorem isIncludedRoute_trans (a b c : Route) :
  isIncludedRoute a b = Some true -> isIncludedRoute b c = Some true ->
  isIncludedRoute a c = Some true.
Proof.
  unfold isIncludedRoute. intros Hab Hbc.
  destruct (String.prefix (end_with_slash (path b)) (end_with_slash (path a)))
    eqn:Pab; [|discriminate].
  destruct (String.prefix (end_with_slash (path c)) (end_with_slash (path b)))
    eqn:Pbc; [|discriminate].
  rewrite (prefix_trans _ _ _ Pbc Pab). cbn [negb] in *.
  destruct (negb (nonempty (hash b)) || String.eqb (hash a) (hash b)) eqn:Hhab;
    [|discriminate].
  destruct (negb (nonempty (hash c)) || String.eqb (hash b) (hash c)) eqn:Hhbc;
    [|discriminate].
  cbn [negb] in *.
  assert (Hhac : negb (nonempty (hash c)) || String.eqb (hash a) (hash c) = true).
  { destruct (nonempty (hash c)) eqn:Hc; [|reflexivity]. cbn [negb orb] in *.
    apply String.eqb_eq in Hhbc. rewrite <- Hhbc in *. rewrite Hc in Hhab.
    exact Hhab. }
  rewrite Hhac. cbn [negb].
  destruct (plain_object (query a)) as [qa|]; [|discriminate].
  destruct (plain_object (query b)) as [qb|]; [|discriminate].
  destruct (plain_object (query c)) as [qc|]; [|discriminate].
  injection Hab as Hqab. injection Hbc as Hqbc.
  f_equal. unfold queryIncludes in *. rewrite forallb_forall in *.
  intros k Hk. specialize (Hqbc k Hk). unfold has_property in Hqbc |- *.
  destruct (own qb k) as [v|] eqn:Eb.
  - apply own_some_in in Eb. apply (in_map fst) in Eb. apply (Hqab k Eb).
  - rewrite Hqbc. now destruct (own qa k).
Qed.

Lemma isIncludedRoute_trans_witness :
  isIncludedRoute (route_at 1 "/a/b/c") (route_at 3 "/a") = Some true.
Proof.
  apply (isIncludedRoute_trans (route_at 1 "/a/b/c") (route_at 2 "/a/b/")
           (route_at 3 "/a")); reflexivity.
Defined.

Lemma end_with_slash_strip (s : string) :
  end_with_slash s = (strip_trailing_slash s ++ "/")%string.
Proof.
  induction s as [|c s IH]; [reflexivity|].
  destruct s as [|d s].
  - simpl. destruct (Ascii.eqb c "/") eqn:E; [|reflexivity].
    apply Ascii.eqb_eq in E. now subst c.
  - change (end_with_slash (String c (String d s)))
      with (String c (end_with_slash (String d s))).
    change (strip_trailing_slash (String c (String d s)))
      with (String c (strip_trailing_slash (String d s))).
    now rewrite IH.
Qed.

Lemma prefix_with_slash (t c : string) :
  String.prefix (t ++ "/") (c ++ "/") = true ->
  c = t \/ String.prefix (t ++ "/") c = true.
Proof.
  revert c. induction t as [|x t IH]; intros [|y c] H;
    cbn [append String.prefix] in *.
  - now left.
  - right. destruct (ascii_dec "/" y); [now destruct c|discriminate].
  - destruct (ascii_dec x "/"); [|discriminate]. destruct t; discriminate.
  - destruct (ascii_dec x y); [subst y|discriminate].
    destruct (IH c H) as [->|Hp]; [now left|now right].
Qed.

(** X14: the paths are compared by whole segments: when [current] includes
    [target], the path of [current], a final slash apart, is that of
    [target] or goes on after it with a slash; ['/ab'] does not include
    ['/a']. *)
Theorem isIncludedRoute_whole_segments (current target : Route) :
  isIncludedRoute current target = Some true ->
  strip_trailing_slash (path current) = strip_trailing_slash (path target)
  \/ String.prefix (strip_trailing_slash (path target) ++ "/")
       (strip_trailing_slash (path current)) = true.
Proof.
  unfold isIncludedRoute. rewrite !end_with_slash_strip.
  destruct (String.prefix _ _) eqn:P; [|discriminate]. intros _.
  now apply prefix_with_slash.
Qed.

Lemma isIncludedRoute_whole_segments_witness :
  strip_trailing_slash (path (route_at 1 "/a/b/"))
  = strip_trailing_slash (path (route_at 2 "/a"))
  \/ String.prefix (strip_trailing_slash (path (route_at 2 "/a")) ++ "/")
       (strip_trailing_slash (path (route_at 1 "/a/b/"))) = true.
Proof.
  apply (isIncludedRoute_whole_segments (route_at 1 "/a/b/") (route_at 2 "/a")).
  reflexivity.
Defined.

(** ** Hooks: taking out what [registerHook] put in *)

(** The entries of a list of hooks that are the function [fn]. *)
Definition is_hook (fn : nat) (x : option nat) : bool :=
  match x with Some g => g =? fn | None => false end.

(** X15: calling the function that [registerHook(list, fn)] returned, right
    after, gives the list back when [fn] was not in it before; when it was,
    the entry taken out is the old one and the new one stays at the end, so
    [fn] now runs after the hooks it used to run before. *)
Theorem unregister_registerHook (hooks : list (option nat)) (fn : nat) :
  unregister (registerHook hooks fn) fn
  = if existsb (is_hook fn) hooks then unregister hooks fn ++ [Some fn] else hooks.
Proof.
  unfold registerHook. induction hooks as [|x hooks IH].
  - simpl. now rewrite Nat.eqb_refl.
  - simpl. fold (is_hook fn x). destruct (is_hook fn x); [reflexivity|].
    simpl. now rewrite IH; destruct (existsb (is_hook fn) hooks).
Qed.

(** X16: the function [registerHook] returned takes one entry out of the
    list, the first that is [fn], and leaves the others in their order; on a
    list that does not hold [fn] it does nothing, so calling it twice is
    harmless when [fn] was registered once. *)
Theorem unregister_first (before after : list (option nat)) (fn : nat) :
  existsb (is_hook fn) before = false ->
  unregister (before ++ Some fn :: after) fn = before ++ after
  /\ unregister before fn = before.
Proof.
  induction before as [|x before IH]; intros H.
  - simpl. now rewrite Nat.eqb_refl.
  - simpl in H. apply orb_false_iff in H as [Hx H]. destruct (IH H) as [IH1 IH2].
    simpl. fold (is_hook fn x). rewrite Hx, IH1, IH2. auto.
Qed.

Lemma unregister_first_witness :
  unregister ([Some 1; None] ++ Some 2 :: [Some 3; Some 2]) 2
  = [Some 1; None] ++ [Some 3; Some 2]
  /\ unregister [Some 1; None] 2 = [Some 1; None].
Proof.
  apply (unregister_first [Some 1; None] [Some 3; Some 2] 2). reflexivity.
Defined.

(** ** [normalizeBase] *)

(** X17: the base [normalizeBase] returns is empty or starts with a slash,
    whatever the option, the document and the environment are. *)
Theorem normalizeBase_shape (inBrowser : bool) (href base : option string) :
  normalizeBase inBrowser href base = ""
  \/ exists rest, normalizeBase inBrowser href base = String "/" rest.
Proof.
  unfold normalizeBase.
  set (given := if truthy_string base then or_string base ""
                else if inBrowser then strip_origin (or_string href "/") else "/").
  assert (H : forall rest, strip_trailing_slash (String "/" rest) = ""
                           \/ exists rest', strip_trailing_slash (String "/" rest)
                                            = String "/" rest').
  { intros [|c rest]; [now left|right]. eexists. reflexivity. }
  destruct given as [|c rest]; [apply H|].
  destruct (Ascii.eqb c "/") eqn:E; [|apply H].
  apply Ascii.eqb_eq in E. subst c. apply H.
Qed.

Lemma substring_all (s : string) : substring 0 (String.length s) s = s.
Proof. induction s as [|c s IH]; simpl; congruence. Qed.

Lemma after_host_slash (host p : string) :
  lacks "/" host = true -> after_host (host ++ String "/" p) = String "/" p.
Proof.
  induction host as [|c host IH]; [reflexivity|]. unfold lacks. simpl.
  intros H. apply andb_prop in H as [Hc H]. apply negb_true_iff in Hc.
  rewrite Hc. now apply IH.
Qed.

(** X18: with no [base] option, in a browser, a [<base href>] that is a
    full URL is reduced to the path after its host, without the final slash. *)
Theorem normalizeBase_strips_origin (secure : bool) (host p : string) :
  nonempty host = true -> lacks "/" host = true ->
  normalizeBase true
    (Some ((if secure then "https://" else "http://") ++ host ++ String "/" p)%string)
    None
  = strip_trailing_slash (String "/" p).
Proof.
  intros Hne Hhost. unfold normalizeBase. cbn [truthy_string].
  assert (Hstrip : strip_origin
                     ((if secure then "https://" else "http://")
                      ++ host ++ String "/" p)%string = String "/" p).
  { destruct host as [|c host]; [discriminate|].
    assert (Hc : Ascii.eqb c "/" = false).
    { unfold lacks in Hhost. simpl in Hhost. apply andb_prop in Hhost as [Hc _].
      now apply negb_true_iff in Hc. }
    unfold strip_origin. destruct secure; cbn [append].
    - match goal with
      | |- context [String.prefix ?a ?b] =>
          replace (String.prefix a b) with true by reflexivity
      end.
      cbn [String.length Nat.sub substring]. rewrite substring_all, Hc.
      apply (after_host_slash (String c host) p Hhost).
    - match goal with
      | |- context [String.prefix "https://" ?b] =>
          replace (String.prefix "https://" b) with false by reflexivity
      end.
      match goal with
      | |- context [String.prefix ?a ?b] =>
          replace (String.prefix a b) with true by reflexivity
      end.
      cbn [String.length Nat.sub substring]. rewrite substring_all, Hc.
      apply (after_host_slash (String c host) p Hhost). }
  destruct secure; cbn [or_string nonempty append] in *; rewrite Hstrip;
    cbn [Ascii.eqb Bool.eqb]; reflexivity.
Qed.

Lemma normalizeBase_strips_origin_witness :
  normalizeBase true (Some "https://example.com/app/") None = "/app".
Proof.
  apply (normalizeBase_strips_origin true "example.com" "app/"); reflexivity.
Defined.

(** ** [fillParams] and [normalizeLocation] *)

Lemma lookup_app {A : Type} (l1 l2 : list (string * A)) (key : string) :
  lookup (l1 ++ l2) key
  = match lookup l1 key with Some v => Some v | None => lookup l2 key end.
Proof.
  induction l1 as [|[k v] l1 IH]; [reflexivity|]. simpl.
  now destruct (String.eqb k key).
Qed.

Section LocationProperties.

Variable parsePath : string -> ParsedPath.
Variable resolvePath : string -> string -> bool -> string.
Variable compile : string -> Completion Filler.
Variable production : bool.

(** Every entry of the cache is what [compile] gives for its path. *)
Definition coherent (cache : Cache) : Prop :=
  forall path filler, lookup cache path = Some filler -> compile path = Normal filler.

(** X19: the cache of compiled paths changes no answer: from a cache whose
    entries came from [compile], [fillParams] returns the string and writes
    the warnings it would with an empty cache; the cache it leaves has the
    entries it had, and again only entries that came from [compile]. *)
Theorem fillParams_cache (path : string) (params : QVal) (routeMsg : string)
    (cache : Cache) :
  coherent cache ->
  let cached := fillParams compile production path params routeMsg cache in
  let fresh := fillParams compile production path params routeMsg [] in
  fst (fst cached) = fst (fst fresh)
  /\ snd cached = snd fresh
  /\ coherent (snd (fst cached))
  /\ (forall p filler, lookup cache p = Some filler ->
                       lookup (snd (fst cached)) p = Some filler).
Proof.
  intros Hcache cached fresh. subst cached fresh. unfold fillParams.
  cbn [lookup].
  destruct (lookup cache path) as [filler|] eqn:Ecache.
  - rewrite (Hcache _ _ Ecache).
    destruct (filler _); cbn [fst snd]; auto.
  - assert (Hgrown : forall filler, compile path = Normal filler ->
                       coherent (cache ++ [(path, filler)])
                       /\ forall p f, lookup cache p = Some f ->
                                      lookup (cache ++ [(path, filler)]) p = Some f).
    { intros filler Hc. split.
      - intros p f. rewrite lookup_app.
        destruct (lookup cache p) as [g|] eqn:Ep.
        + intros H. inversion H; subst. now apply Hcache.
        + simpl. destruct (String.eqb path p) eqn:E; [|discriminate].
          apply String.eqb_eq in E. subst p. intros H. now inversion H; subst.
      - intros p f Hp. now rewrite lookup_app, Hp. }
    destruct (compile path) as [filler|message] eqn:Ecompile.
    + destruct (Hgrown filler eq_refl) as [H1 H2].
      destruct (filler _); cbn [fst snd]; auto.
    + cbn [fst snd]. auto.
Qed.

(** X20: what [normalizeLocation] returns has a name or is marked as
    normalized, so normalizing it again, from any route and with any
    options, returns it as it is, compiles nothing and writes no warning. *)
Theorem normalizeLocation_idempotent (raw : string + LocationObject)
    (current current' : option Route) (append append' : bool)
    (_parseQuery _parseQuery' : option (string -> Completion Dictionary))
    (cache : Cache) :
  let first :=
    normalizeLocation parsePath resolvePath compile production raw current append
      _parseQuery cache in
  normalizeLocation parsePath resolvePath compile production
    (inr (fst (fst first))) current' append' _parseQuery' (snd (fst first))
  = (fst (fst first), snd (fst first), []).
Proof.
  intros first.
  assert (H : truthy_string (loc_name (fields (fst (fst first))))
              || _normalized (fst (fst first)) = true).
  { subst first. unfold normalizeLocation.
    set (next := match raw with inl s => _ | inr l => l end).
    destruct (truthy_string (loc_name (fields next)) || _normalized next) eqn:E;
      [exact E|].
    assert (Hrelative : forall c,
              let r := relative_params compile production next c cache in
              truthy_string (loc_name (fields (fst (fst r))))
              || _normalized (fst (fst r)) = true).
    { intros c. unfold relative_params.
      destruct (truthy_string (name c)); [apply orb_true_r|].
      destruct (rev (matched c)) as [|m ms]; [apply orb_true_r|].
      destruct (fillParams _ _ _ _ _ _) as [[filled cache'] warned].
      apply orb_true_r. }
    destruct current as [c|]; [|apply orb_true_r].
    destruct (negb _ && _); [apply Hrelative|apply orb_true_r]. }
  unfold normalizeLocation at 1. now rewrite H.
Qed.

(** X21: when the location has no name, is not yet normalized, and is not
    a move by params relative to the current route, [normalizeLocation]
    builds a new location with a path, a query that is an object and a hash
    that is empty or starts with [#]; the flags [replace] and [append] and
    the params of the location are not carried over, and no path is
    compiled.  A string is read as the location with that path. *)
Theorem normalizeLocation_absolute (raw : string + LocationObject)
    (current : option Route) (append : bool)
    (_parseQuery : option (string -> Completion Dictionary)) (cache : Cache) :
  let next :=
    match raw with
    | inl s => {| fields := location_of s; loc_append := false; _normalized := false |}
    | inr l => l
    end in
  truthy_string (loc_name (fields next)) || _normalized next = false ->
  match current with
  | Some _ => negb (truthy_string (loc_path (fields next)))
              && truthy (loc_params (fields next))
  | None => false
  end = false ->
  exists path query hash warned,
    normalizeLocation parsePath resolvePath compile production raw current append
      _parseQuery cache
    = ({| fields := {| loc_name := None; loc_path := Some path;
                       loc_hash := Some hash; loc_query := QObject query;
                       loc_params := QUndefined; loc_replace := false |};
          loc_append := false; _normalized := true |}, cache, warned)
    /\ (hash = "" \/ exists rest, hash = String "#" rest).
Proof.
  intros next Hnamed Hrelative. unfold normalizeLocation.
  change (match raw with
          | inl s =>
              {| fields := {| loc_name := None; loc_path := Some s; loc_hash := None;
                              loc_query := QUndefined; loc_params := QUndefined;
                              loc_replace := false |};
                 loc_append := false; _normalized := false |}
          | inr l => l
          end) with next.
  rewrite Hnamed.
  set (hash0 := if truthy_string (loc_hash (fields next))
                then or_string (loc_hash (fields next)) ""
                else parsed_hash (parsePath (or_string (loc_path (fields next)) ""))).
  assert (Hhash : forall h,
            let h' := match h with
                      | String c _ => if Ascii.eqb c "#" then h else String "#" h
                      | EmptyString => h
                      end in
            h' = "" \/ exists rest, h' = String "#" rest).
  { intros [|c h]; [now left|right]. cbn zeta.
    destruct (Ascii.eqb c "#") eqn:E; [|eexists; reflexivity].
    apply Ascii.eqb_eq in E. subst c. eexists. reflexivity. }
  destruct current as [c|]; [rewrite Hrelative|];
    (do 4 eexists; split; [reflexivity|apply (Hhash hash0)]).
Qed.

(** X22: a location with params and no path, given while the current route
    has a name, moves by params: the result takes the name of the current
    route and the params of the current route with those of the location over
    them (neither object having an own key [__proto__]); its query, hash and
    flags are those of the location, it is marked as normalized, nothing is
    compiled and nothing is parsed. *)
Theorem normalizeLocation_relative_params (next : LocationObject) (current : Route)
    (append : bool) (_parseQuery : option (string -> Completion Dictionary))
    (cache : Cache) (key : string) :
  truthy_string (loc_name (fields next)) || _normalized next = false ->
  truthy_string (loc_path (fields next)) = false ->
  truthy (loc_params (fields next)) = true ->
  truthy_string (name current) = true ->
  existsb (String.eqb "__proto__") (keys (params current)) = false ->
  existsb (String.eqb "__proto__") (keys (loc_params (fields next))) = false ->
  exists merged,
    normalizeLocation parsePath resolvePath compile production (inr next)
      (Some current) append _parseQuery cache
    = ({| fields := {| loc_name := name current; loc_path := loc_path (fields next);
                       loc_hash := loc_hash (fields next);
                       loc_query := loc_query (fields next);
                       loc_params := QObject merged;
                       loc_replace := loc_replace (fields next) |};
          loc_append := loc_append next; _normalized := true |}, cache, [])
    /\ get (QObject merged) key
       = if existsb (String.eqb key) (keys (loc_params (fields next)))
         then get (loc_params (fields next)) key
         else if existsb (String.eqb key) (keys (params current))
              then get (params current) key
              else get (QObject []) key.
Proof.
  intros Hnamed Hpath Hparams Hname Hcurrent Hnext.
  unfold normalizeLocation. rewrite Hnamed, Hpath, Hparams. cbn [negb andb].
  unfold relative_params. cbn [fields set_normalized]. rewrite Hname.
  eexists. split; [reflexivity|].
  unfold assign_from.
  rewrite (get_assign_from _ key _ _ Hnext), (get_assign_from _ key _ _ Hcurrent).
  reflexivity.
Qed.

End LocationProperties.

(** Sample data: a path parser that finds no query and no hash, a resolver
    that keeps the path, and a compiler that knows one path. *)
Definition sample_parsePath (p : string) : ParsedPath :=
  {| parsed_path := p; parsed_query := ""; parsed_hash := "" |}.

Definition sample_resolvePath (relative base : string) (append : bool) : string :=
  relative.

Definition user_filler : Filler :=
  fun params =>
    match get params "id" with
    | QString id => Normal ("/user/" ++ id)%string
    | _ => Throw "Expected id to be defined"
    end.

Definition sample_compile (p : string) : Completion Filler :=
  if String.eqb p "/user/:id" then Normal user_filler else Throw "unknown path".

Lemma fillParams_cache_witness :
  let cached :=
    fillParams sample_compile false "/user/:id" (QObject [("id", QString "7")])
      "path /user/7" [("/user/:id", user_filler)] in
  let fresh :=
    fillParams sample_compile false "/user/:id" (QObject [("id", QString "7")])
      "path /user/7" [] in
  fst (fst cached) = fst (fst fresh)
  /\ snd cached = snd fresh
  /\ coherent sample_compile (snd (fst cached))
  /\ (forall p filler, lookup [("/user/:id", user_filler)] p = Some filler ->
                       lookup (snd (fst cached)) p = Some filler).
Proof.
  apply (fillParams_cache sample_compile false "/user/:id"
           (QObject [("id", QString "7")]) "path /user/7"
           [("/user/:id", user_filler)]).
  intros p filler H. cbn [lookup] in H.
  destruct (String.eqb "/user/:id" p) eqn:E; [|discriminate H].
  apply String.eqb_eq in E. subst p. inversion H. reflexivity.
Defined.

Lemma normalizeLocation_absolute_witness :
  exists path query hash warned,
    normalizeLocation sample_parsePath sample_resolvePath sample_compile false
      (inl "/a") None false None []
    = ({| fields := {| loc_name := None; loc_path := Some path;
                       loc_hash := Some hash; loc_query := QObject query;
                       loc_params := QUndefined; loc_replace := false |};
          loc_append := false; _normalized := true |}, [], warned)
    /\ (hash = "" \/ exists rest, hash = String "#" rest).
Proof.
  apply (normalizeLocation_absolute sample_parsePath sample_resolvePath
           sample_compile false (inl "/a") None false None []);
    reflexivity.
Defined.

Definition user_route : Route :=
  {| route_ref := 4; name := Some "user"; meta := []; path := "/user/7";
     hash := ""; query := QObject []; params := QObject [("id", QString "7")];
     fullPath := "/user/7"; matched := []; redirectedFrom := None |}.

Definition to_other_tab : LocationObject :=
  {| fields := {| loc_name := None; loc_path := None; loc_hash := None;
                  loc_query := QUndefined;
                  loc_params := QObject [("tab", QString "posts")];
                  loc_replace := false |};
     loc_append := false; _normalized := false |}.

Lemma normalizeLocation_relative_params_witness :
  exists merged,
    normalizeLocation sample_parsePath sample_resolvePath sample_compile false
      (inr to_other_tab) (Some user_route) false None []
    = ({| fields := {| loc_name := Some "user"; loc_path := None; loc_hash := None;
                       loc_query := QUndefined; loc_params := QObject merged;
                       loc_replace := false |};
          loc_append := false; _normalized := true |}, [], [])
    /\ get (QObject merged) "id" = QString "7".
Proof.
  apply (normalizeLocation_relative_params sample_parsePath sample_resolvePath
           sample_compile false to_other_tab user_route false None [] "id");
    reflexivity.
Defined.

(** ** Transitions whose guards all confirm, and those that do not commit *)

(** The arguments with which [next] goes on to the rest of the queue:
    nothing, [true], a function, or an object with no path and no name. *)
Definition passes (to : NextArg) : bool :=
  match to with
  | NUndefined | NBool true | NFunction _ => true
  | NObject l => negb (is_string (loc_path l) || is_string (loc_name l))
  | _ => false
  end.

Lemma guard_next_passes (production : bool) (onAbort : option (NextArg -> M))
    (to : NextArg) (next : M) :
  passes to = true -> guard_next production onAbort to next = next.
Proof.
  unfold guard_next. destruct to as [| |[|]| | | |l]; try discriminate;
    try reflexivity.
  simpl. intros H. apply negb_true_iff in H. now rewrite H.
Qed.

(** A call of [push] or [replace]: a guard has redirected, and a new
    transition takes over. *)
Definition is_redirect (e : Event) : bool :=
  match e with
  | Push _ | Replace _ => true
  | _ => false
  end.

Definition redirects (log : list Event) : bool := existsb is_redirect log.

Lemma redirects_app (l1 l2 : list Event) :
  redirects (l1 ++ l2) = redirects l1 || redirects l2.
Proof. apply existsb_app. Qed.

(** A redirection that happens in a part of a computation shows in the log
    of the whole. *)
Lemma redirects_andThen (m1 m2 : M) (h : History) :
  redirects (log_of (m1 h)) = true -> redirects (log_of ((m1 ;; m2) h)) = true.
Proof.
  unfold andThen. destruct (m1 h) as [h1 l1 k1 [e|]]; [auto|].
  destruct (m2 h1) as [h2 l2 k2 e2]. simpl. intros H.
  now rewrite redirects_app, H.
Qed.

Lemma redirects_try_catch (m : M) (handler : NextArg -> M) (h : History) :
  redirects (log_of (m h)) = true ->
  redirects (log_of (try_catch m handler h)) = true.
Proof.
  unfold try_catch. destruct (m h) as [h1 l1 k1 [e|]]; [|auto].
  destruct (handler e h1) as [h2 l2 k2 e2]. simpl. intros H.
  now rewrite redirects_app, H.
Qed.

Lemma redirects_after_emit (e : Event) (m : M) (h : History) :
  redirects (log_of (m h)) = true -> redirects (log_of ((emit e ;; m) h)) = true.
Proof.
  rewrite andThen_emit. destruct (m h) as [h1 l1 k1 e1]. simpl. intros H.
  now rewrite H, orb_true_r.
Qed.

(** The arguments of [next] that do not pass: those that stop the
    transition, [null], and the targets of a redirection. *)
Lemma refusal_cases (to : NextArg) :
  passes to = false ->
  (redirect_target to = None /\ (stops to = true \/ to = NNull))
  \/ exists raw by_replace, stops to = false
                            /\ redirect_target to = Some (raw, by_replace).
Proof.
  destruct to as [| |[|]|s|message|f|l]; try discriminate; intros H;
    try (left; split; [reflexivity|auto]).
  - right. now exists (RawPath s), false.
  - right. simpl in H. apply negb_false_iff in H.
    exists (RawObject l), (loc_replace l). simpl. now rewrite H.
Qed.

Section Confirming.

Variable guard_act : GuardRef -> option Instance -> Route -> Route -> GuardAct.
Variable async_act : list RouteRecord -> Route -> Route -> GuardAct.
Variable production : bool.
Variables (route current : Route) (onAbort : option Callback).

(** What a hook of the queue does when it is called with the two routes. *)
Definition hook_act (hook : NavigationGuard) : GuardAct :=
  match hook with
  | Guard g => guard_act g None route current
  | boundRouteGuard g instance => guard_act g (Some instance) route current
  | routeEnterGuard g _ _ => guard_act g None route current
  | asyncResolver activated => async_act activated route current
  end.

(** The entry of a queue confirms: it is absent, or it calls [next] before
    it returns, with an argument that passes. *)
Definition confirms (x : option NavigationGuard) : bool :=
  match x with
  | Some hook => match hook_act hook with Calls to => passes to | _ => false end
  | None => true
  end.

(** The event of the call of a hook. *)
Definition called (hook : NavigationGuard) : Event :=
  match hook with
  | Guard g => GuardCalled g None route current
  | boundRouteGuard g instance => GuardCalled g (Some instance) route current
  | routeEnterGuard g _ _ => GuardCalled g None route current
  | asyncResolver activated => ResolveAsync activated route current
  end.

(** The callback an enter guard leaves for after the navigation, when it
    passes a function to [next]: it is put aside once [next] has returned. *)
Definition post_enter_of (hook : NavigationGuard) : list Event :=
  match hook with
  | routeEnterGuard g m key =>
      match guard_act g None route current with
      | Calls (NFunction f) => [PostEnter f m key]
      | _ => []
      end
  | _ => []
  end.

(** The hooks a queue holds. *)
Definition hooks_of (queue : list (option NavigationGuard)) : list NavigationGuard :=
  flat_map (fun x => match x with Some hook => [hook] | None => [] end) queue.

Definition walk (queue : list (option NavigationGuard)) (done : M) : M :=
  runQueue queue
    (iterator guard_act async_act production route current
       (Some (transition_abort onAbort))) done.

Lemma iterator_quiet (hook : NavigationGuard) (next : M) (h : History) :
  thrown_of (iterator guard_act async_act production route current
               (Some (transition_abort onAbort)) hook next h) = None.
Proof.
  unfold iterator. destruct (is_pending h route); cbn [negb].
  - unfold try_catch. destruct (call _ _ _ _ _ _ _) as [h1 l1 k1 [e|]];
      [now rewrite abort_outcome|reflexivity].
  - now rewrite abort_outcome.
Qed.

Lemma walk_quiet (queue : list (option NavigationGuard)) (done : M) :
  (forall h, thrown_of (done h) = None) ->
  forall h, thrown_of (walk queue done h) = None.
Proof.
  intros Hdone. unfold walk. rewrite runQueue_fold.
  induction queue as [|[hook|] queue IH]; intros h; simpl;
    [apply Hdone|apply iterator_quiet|apply IH].
Qed.

Lemma iterator_confirms (hook : NavigationGuard) (next : M) (h : History) :
  is_pending h route = true -> confirms (Some hook) = true ->
  thrown_of (next h) = None ->
  iterator guard_act async_act production route current
    (Some (transition_abort onAbort)) hook next h
  = Out (state_of (next h)) (called hook :: log_of (next h) ++ post_enter_of hook)
        (held_of (next h)) None.
Proof.
  intros Hpending Hconfirms Hquiet. unfold iterator. rewrite Hpending. cbn [negb].
  unfold confirms in Hconfirms.
  destruct (next h) as [h1 l1 k1 e1] eqn:Enext. simpl in Hquiet. subst e1.
  destruct hook as [g|g instance|g m key|activated]; cbn [hook_act] in Hconfirms;
    unfold call, called, post_enter_of;
    match goal with
    | H : match ?a with _ => _ end = true |- _ => destruct a as [to| |] eqn:Eact
    end; try discriminate;
    unfold act, try_catch; rewrite andThen_emit;
    try (rewrite (guard_next_passes _ _ _ _ Hconfirms), Enext; simpl;
         now rewrite app_nil_r).
  unfold andThen. rewrite (guard_next_passes _ _ _ _ Hconfirms), Enext.
  destruct to; try discriminate; simpl; now rewrite ?app_nil_r.
Qed.

(** A computation that leaves [pending] as it is. *)
Definition keeps_pending (m : M) : Prop :=
  forall h, pending (state_of (m h)) = pending h.

Lemma keeps_pending_andThen (m1 m2 : M) :
  keeps_pending m1 -> keeps_pending m2 -> keeps_pending (m1 ;; m2).
Proof.
  intros H1 H2 h. unfold andThen. specialize (H1 h).
  destruct (m1 h) as [h1 l1 k1 [e|]]; [exact H1|].
  specialize (H2 h1). destruct (m2 h1) as [h2 l2 k2 e2]. simpl in *. congruence.
Qed.

Lemma keeps_pending_try_catch (m : M) (handler : NextArg -> M) :
  keeps_pending m -> (forall e, keeps_pending (handler e)) ->
  keeps_pending (try_catch m handler).
Proof.
  intros H1 H2 h. unfold try_catch. specialize (H1 h).
  destruct (m h) as [h1 l1 k1 [e|]]; [|exact H1].
  specialize (H2 e h1). destruct (handler e h1) as [h2 l2 k2 e2]. simpl in *.
  congruence.
Qed.

Lemma keeps_pending_abort (err : NextArg) :
  keeps_pending (abort production (Some (transition_abort onAbort)) err).
Proof.
  intros h. rewrite abort_outcome. unfold abort_state. simpl.
  now destruct (_ && _).
Qed.

Lemma keeps_pending_emit (e : Event) : keeps_pending (emit e).
Proof. intros h. reflexivity. Qed.

(** What [next] does with a redirection shows in the log. *)
Lemma guard_next_redirects (to : NextArg) (next : M) (h : History)
    (raw : RawLocation) (by_replace : bool) :
  stops to = false -> redirect_target to = Some (raw, by_replace) ->
  redirects (log_of (guard_next production (Some (transition_abort onAbort))
                       to next h)) = true.
Proof.
  intros Hs Hr.
  destruct (guard_next_cases production onAbort to next h)
    as [(Hs' & _)|[(raw' & by_replace' & _ & _ & ->)
                  |[(-> & _)|(_ & Hr' & _)]]];
    try congruence; try discriminate.
  cbn [log_of]. rewrite redirects_app.
  destruct by_replace'; cbn; apply orb_true_r.
Qed.

(** What [next] does with [false], an error or [null] leaves [pending]
    as it is. *)
Lemma keeps_pending_refusal (to : NextArg) (next : M) :
  passes to = false -> redirect_target to = None ->
  keeps_pending (guard_next production (Some (transition_abort onAbort)) to next).
Proof.
  intros Hto Hr.
  destruct to as [| |[|]|s|message|f|l]; try discriminate.
  - intros h. reflexivity.
  - apply (keeps_pending_andThen (ensureURL true));
      [apply keeps_pending_emit|apply keeps_pending_abort].
  - apply (keeps_pending_andThen (ensureURL true));
      [apply keeps_pending_emit|apply keeps_pending_abort].
  - simpl in Hto, Hr. apply negb_false_iff in Hto. rewrite Hto in Hr. discriminate.
Qed.

(** A hook that does not confirm, in a call that does not redirect, leaves
    [pending] as it is. *)
Lemma iterator_refuses (hook : NavigationGuard) (next : M) (h : History) :
  confirms (Some hook) = false ->
  redirects (log_of (iterator guard_act async_act production route current
                       (Some (transition_abort onAbort)) hook next h)) = false ->
  pending (state_of (iterator guard_act async_act production route current
                       (Some (transition_abort onAbort)) hook next h))
  = pending h.
Proof.
  intros Hrefuses. unfold iterator.
  destruct (is_pending h route); cbn [negb]; [|intros _; apply keeps_pending_abort].
  unfold confirms in Hrefuses.
  destruct (hook_act hook) as [to|thrown|] eqn:Hact.
  - destruct (refusal_cases to Hrefuses) as [[Hr _]|(raw & by_replace & Hs & Hr)].
    + intros _.
      apply keeps_pending_try_catch; [|intros e; apply keeps_pending_abort].
      destruct hook as [g|g instance|g m key|activated]; cbn [hook_act] in Hact;
        unfold call; rewrite Hact;
        (apply keeps_pending_andThen; [apply keeps_pending_emit|]);
        unfold act; try (now apply keeps_pending_refusal).
      apply keeps_pending_andThen; [now apply keeps_pending_refusal|].
      destruct to; intros h'; reflexivity.
    + intros Hnone. exfalso.
      pose proof (guard_next_redirects to next) as Hnext.
      assert (Hlog : redirects
                (log_of (try_catch
                           (call guard_act async_act hook route current
                              (fun to => guard_next production
                                           (Some (transition_abort onAbort)) to next))
                           (fun e => abort production
                                       (Some (transition_abort onAbort)) e) h))
              = true).
      { apply redirects_try_catch.
        destruct hook as [g|g instance|g m key|activated]; cbn [hook_act] in Hact;
          unfold call; rewrite Hact; apply redirects_after_emit; unfold act;
          try (now apply (Hnext _ raw by_replace)).
        apply redirects_andThen. now apply (Hnext _ raw by_replace). }
      congruence.
  - intros _.
    apply keeps_pending_try_catch; [|intros e; apply keeps_pending_abort].
    destruct hook as [g|g instance|g m key|activated]; cbn [hook_act] in Hact;
      unfold call; rewrite Hact;
      (apply keeps_pending_andThen; [apply keeps_pending_emit|]);
      intros h'; reflexivity.
  - intros _.
    apply keeps_pending_try_catch; [|intros e; apply keeps_pending_abort].
    destruct hook as [g|g instance|g m key|activated]; cbn [hook_act] in Hact;
      unfold call; rewrite Hact;
      (apply keeps_pending_andThen; [apply keeps_pending_emit|]);
      intros h'; reflexivity.
Qed.

(** If the walk through a queue redirects nowhere and ends with no
    transition pending, every entry confirmed and the callback of the queue
    cleared [pending], without a redirection either. *)
Lemma walk_commits_only (queue : list (option NavigationGuard)) (done : M) :
  (forall h, thrown_of (done h) = None) ->
  forall h, is_pending h route = true ->
            redirects (log_of (walk queue done h)) = false ->
            pending (state_of (walk queue done h)) = None ->
            forallb confirms queue = true
            /\ redirects (log_of (done h)) = false
            /\ pending (state_of (done h)) = None.
Proof.
  intros Hdone h Hpending.
  assert (Hrest : forall q h',
            thrown_of
              (fold_right (slot (iterator guard_act async_act production route
                                   current (Some (transition_abort onAbort))))
                 done q h') = None).
  { intros q h'. pose proof (walk_quiet q done Hdone h') as H.
    unfold walk in H. now rewrite runQueue_fold in H. }
  unfold walk. rewrite runQueue_fold.
  induction queue as [|[hook|] queue IH]; cbn [fold_right slot forallb];
    intros Hdirect Hend.
  - auto.
  - destruct (confirms (Some hook)) eqn:Hhook.
    + rewrite iterator_confirms in Hdirect, Hend by auto.
      cbn [log_of state_of] in Hdirect, Hend.
      change (called hook :: ?l) with ([called hook] ++ l) in Hdirect.
      rewrite !redirects_app in Hdirect.
      apply orb_false_iff in Hdirect as [_ Hdirect].
      apply orb_false_iff in Hdirect as [Hdirect _].
      now apply IH.
    + rewrite iterator_refuses in Hend by assumption.
      unfold is_pending in Hpending. rewrite Hend in Hpending. discriminate.
  - now apply IH.
Qed.

(** When every entry confirms, the walk calls the hooks in the order of
    the queue, then the callback of the queue; the callbacks that enter
    guards left are put aside as the calls return, the last guard first. *)
Lemma walk_confirms (queue : list (option NavigationGuard)) (done : M) :
  (forall h, thrown_of (done h) = None) ->
  forallb confirms queue = true ->
  forall h, is_pending h route = true ->
            walk queue done h
            = Out (state_of (done h))
                  (map called (hooks_of queue) ++ log_of (done h)
                   ++ flat_map post_enter_of (rev (hooks_of queue)))
                  (held_of (done h)) None.
Proof.
  intros Hdone Hall h Hpending. unfold walk. rewrite runQueue_fold.
  induction queue as [|[hook|] queue IH]; cbn [fold_right slot forallb] in *.
  - specialize (Hdone h). destruct (done h) as [h1 l1 k1 e1]. simpl in *.
    subst e1. now rewrite app_nil_r.
  - apply andb_prop in Hall as [Hhook Hall].
    specialize (IH Hall).
    rewrite iterator_confirms; [|exact Hpending|exact Hhook|now rewrite IH].
    rewrite IH. simpl. rewrite flat_map_app. simpl.
    now rewrite app_nil_r, <- !app_assoc.
  - now apply IH.
Qed.

End Confirming.

Lemma enter_phase_quiet
    (guard_act : GuardRef -> option Instance -> Route -> Route -> GuardAct)
    (async_act : list RouteRecord -> Route -> Route -> GuardAct)
    (production : bool) (route current : Route) (activated : list RouteRecord)
    (onComplete onAbort : option Callback) (h : History) :
  thrown_of (enter_phase guard_act async_act production route current activated
               (transition_complete route onComplete)
               (Some (transition_abort onAbort)) h) = None.
Proof.
  unfold enter_phase.
  apply (walk_quiet guard_act async_act production route current onAbort).
  intros h'. rewrite confirmed_outcome. now destruct (is_pending h' route).
Qed.

(** X23: no exception leaves [transitionTo]: what a guard throws, and the
    [TypeError] of [next(null)], are caught by the [try] around the call of
    the guard and end the transition through [abort]. *)
Theorem transitionTo_never_throws
    (guard_act : GuardRef -> option Instance -> Route -> Route -> GuardAct)
    (async_act : list RouteRecord -> Route -> Route -> GuardAct)
    (production : bool) (location : RawLocation)
    (onComplete onAbort : option Callback) (h : History) :
  thrown_of (transitionTo guard_act async_act production location
               onComplete onAbort h) = None.
Proof.
  unfold transitionTo, confirmTransition.
  destruct (isSameRoute _ _ && _).
  - unfold ensureURL. rewrite andThen_emit, abort_outcome. reflexivity.
  - rewrite andThen_modify.
    apply (walk_quiet guard_act async_act production _ _ onAbort).
    intros h'. apply enter_phase_quiet.
Qed.

(** The first queue holds no enter guard. *)
Lemma guard_queue_leaves_nothing
    (guard_act : GuardRef -> option Instance -> Route -> Route -> GuardAct)
    (to from : Route) (h : History) (route : Route) :
  flat_map (post_enter_of guard_act to from) (rev (hooks_of (guard_queue h route)))
  = [].
Proof.
  assert (Hnone : forall hooks,
            Forall (fun hook => post_enter_of guard_act to from hook = []) hooks ->
            flat_map (post_enter_of guard_act to from) (rev hooks) = []).
  { intros hooks H. apply Forall_rev in H.
    induction H as [|hook l Hhook _ IH]; [reflexivity|]. simpl.
    now rewrite Hhook, IH. }
  apply Hnone. unfold hooks_of. rewrite Forall_flat_map.
  assert (Hbound : forall x, component_bound x ->
            Forall (fun hook => post_enter_of guard_act to from hook = [])
              match x with Some hook => [hook] | None => [] end).
  { intros [[| | |]|] Hx; try destruct Hx; repeat constructor. }
  assert (Hguard : forall x : option GuardRef,
            Forall (fun hook => post_enter_of guard_act to from hook = [])
              match option_map Guard x with Some hook => [hook] | None => [] end).
  { intros [g|]; repeat constructor. }
  unfold guard_queue. repeat (apply Forall_app; split).
  - eapply Forall_impl; [apply Hbound|]. apply extractGuards_bindGuard.
  - apply Forall_map, Forall_forall. intros x _. apply Hguard.
  - eapply Forall_impl; [apply Hbound|]. apply extractGuards_bindGuard.
  - apply Forall_map, Forall_forall. intros m _. apply Hguard.
  - repeat constructor.
Qed.

Lemma hooks_of_app (q1 q2 : list (option NavigationGuard)) :
  hooks_of (q1 ++ q2) = hooks_of q1 ++ hooks_of q2.
Proof. apply flat_map_app. Qed.

(** X24: when the candidate is not the route one is at and every guard of
    the two queues calls [next] before it returns, with nothing, [true], a
    function or an object without path and name, [transitionTo] commits at
    once: the guards are called in the order of the queues and nothing else
    before them, then the listener, the after-hooks in their order,
    [onComplete], [ensureURL()], the ready callbacks if the history was not
    ready, and [$nextTick] if the router has an app; the history is left at
    the new route, with nothing pending, ready, and no continuation is kept. *)
Theorem transition_commits
    (guard_act : GuardRef -> option Instance -> Route -> Route -> GuardAct)
    (async_act : list RouteRecord -> Route -> Route -> GuardAct)
    (production : bool) (location : RawLocation)
    (onComplete onAbort : option Callback) (h : History) :
  let route := router_match (router h) location (current h) in
  let queue1 := guard_queue h route in
  let queue2 :=
    extractEnterGuards (activated (resolveQueue (matched (current h)) (matched route)))
    ++ map (option_map Guard) (resolveHooks (router h)) in
  isSameRoute route (Some (current h))
  && (List.length (matched route) =? List.length (matched (current h))) = false ->
  forallb (confirms guard_act async_act route (current h)) (queue1 ++ queue2) = true ->
  transitionTo guard_act async_act production location onComplete onAbort h
  = Out {| router := router h; current := route; pending := None; ready := true;
           readyCbs := readyCbs h; readyErrorCbs := readyErrorCbs h;
           errorCbs := errorCbs h; cb := cb h |}
        (map (called route (current h)) (hooks_of (queue1 ++ queue2))
         ++ complete_log route onComplete h
         ++ flat_map (post_enter_of guard_act route (current h))
              (rev (hooks_of queue2)))
        [] None.
Proof.
  intros route queue1 queue2 Hdiffers Hall.
  rewrite forallb_app in Hall. apply andb_prop in Hall as [Hall1 Hall2].
  unfold transitionTo. fold route.
  rewrite confirmTransition_runs_guard_queue by exact Hdiffers.
  set (h1 := set_pending (Some route) h).
  assert (Hpending : is_pending h1 route = true).
  { unfold is_pending, h1. simpl. apply Nat.eqb_refl. }
  change (runQueue (guard_queue h route) ?f ?d h1)
    with (walk guard_act async_act production route (current h) onAbort
            queue1 d h1).
  rewrite walk_confirms;
    [|intros h'; apply enter_phase_quiet|exact Hall1|exact Hpending].
  change (enter_phase guard_act async_act production route (current h)
            (activated (resolveQueue (matched (current h)) (matched route)))
            (transition_complete route onComplete)
            (Some (transition_abort onAbort)) h1)
    with (walk guard_act async_act production route (current h) onAbort queue2
            (confirmed production route (transition_complete route onComplete)
               (Some (transition_abort onAbort))) h1).
  rewrite walk_confirms; [| |exact Hall2|exact Hpending].
  - rewrite confirmed_outcome, Hpending. cbn [state_of log_of held_of].
    subst queue1. rewrite guard_queue_leaves_nothing, app_nil_r.
    rewrite hooks_of_app, map_app, <- !app_assoc.
    f_equal. unfold complete_state, h1. destruct h as [r c p [|] rc rec ec l];
      reflexivity.
  - intros h'. rewrite confirmed_outcome. now destruct (is_pending h' route).
Qed.

(** X25: a transition in which no guard redirects (it calls neither [push]
    nor [replace]) ends with nothing pending only if every guard of its two
    queues confirmed: one guard that throws, keeps [next], or calls it with
    [false], an error or [null], and the route is not committed by this
    call. *)
Theorem commit_requires_all_guards
    (guard_act : GuardRef -> option Instance -> Route -> Route -> GuardAct)
    (async_act : list RouteRecord -> Route -> Route -> GuardAct)
    (production : bool) (location : RawLocation)
    (onComplete onAbort : option Callback) (h : History) :
  let route := router_match (router h) location (current h) in
  let queue1 := guard_queue h route in
  let queue2 :=
    extractEnterGuards (activated (resolveQueue (matched (current h)) (matched route)))
    ++ map (option_map Guard) (resolveHooks (router h)) in
  isSameRoute route (Some (current h))
  && (List.length (matched route) =? List.length (matched (current h))) = false ->
  redirects (log_of (transitionTo guard_act async_act production location
                       onComplete onAbort h)) = false ->
  pending (state_of (transitionTo guard_act async_act production location
                       onComplete onAbort h)) = None ->
  forallb (confirms guard_act async_act route (current h)) (queue1 ++ queue2) = true.
Proof.
  intros route queue1 queue2 Hdiffers Hdirect Hend.
  unfold transitionTo in Hdirect, Hend. fold route in Hdirect, Hend.
  rewrite confirmTransition_runs_guard_queue in Hdirect, Hend by exact Hdiffers.
  set (h1 := set_pending (Some route) h) in *.
  assert (Hpending : is_pending h1 route = true).
  { unfold is_pending, h1. simpl. apply Nat.eqb_refl. }
  change (runQueue (guard_queue h route) ?f ?d h1)
    with (walk guard_act async_act production route (current h) onAbort
            queue1 d h1) in Hdirect, Hend.
  destruct (walk_commits_only guard_act async_act production route (current h)
              onAbort queue1 _ (fun h' => enter_phase_quiet _ _ _ _ _ _ _ _ h')
              h1 Hpending Hdirect Hend) as (Hall1 & Hdirect2 & Hend2).
  change (enter_phase guard_act async_act production route (current h)
            (activated (resolveQueue (matched (current h)) (matched route)))
            (transition_complete route onComplete)
            (Some (transition_abort onAbort)) h1)
    with (walk guard_act async_act production route (current h) onAbort queue2
            (confirmed production route (transition_complete route onComplete)
               (Some (transition_abort onAbort))) h1) in Hdirect2, Hend2.
  apply walk_commits_only in Hend2 as (Hall2 & _); [| |exact Hpending|exact Hdirect2].
  - rewrite forallb_app. now rewrite Hall1, Hall2.
  - intros h'. rewrite confirmed_outcome. now destruct (is_pending h' route).
Qed.

(** Sample data: guards that all confirm, and a router with a hook of each
    registry and an app. *)
Definition confirming_guards : GuardRef -> option Instance -> Route -> Route -> GuardAct :=
  fun _ _ _ _ => Calls NUndefined.

Definition busy_router : Router :=
  {| router_app := true; beforeHooks := [Some 1]; resolveHooks := [None; Some 2];
     afterHooks := [Some 3]; router_match := fun _ _ => route_at 2 "/a" |}.

Lemma transition_commits_witness :
  transitionTo confirming_guards idle_resolver false (RawPath "/a") (Some 11)
    (Some 12) (new_History busy_router)
  = Out {| router := busy_router; current := route_at 2 "/a"; pending := None;
           ready := true; readyCbs := []; readyErrorCbs := []; errorCbs := [];
           cb := None |}
        [GuardCalled 1 None (route_at 2 "/a") START;
         ResolveAsync [] (route_at 2 "/a") START;
         GuardCalled 2 None (route_at 2 "/a") START;
         AfterHook 3 (route_at 2 "/a") START;
         Complete 11 (route_at 2 "/a");
         EnsureURL false;
         NextTick (route_at 2 "/a")]
        [] None.
Proof.
  exact (transition_commits confirming_guards idle_resolver false (RawPath "/a")
           (Some 11) (Some 12) (new_History busy_router) eq_refl eq_refl).
Defined.

Lemma commit_requires_all_guards_witness :
  forallb (confirms confirming_guards idle_resolver (route_at 2 "/a") START)
    [Some (Guard 1); Some (asyncResolver []); None; Some (Guard 2)] = true.
Proof.
  exact (commit_requires_all_guards confirming_guards idle_resolver false
           (RawPath "/a") (Some 11) (Some 12) (new_History busy_router)
           eq_refl eq_refl eq_refl).
Defined.

(** ** A history that is ready stays ready *)

Lemma ready_kept
    (guard_act : GuardRef -> option Instance -> Route -> Route -> GuardAct)
    (async_act : list RouteRecord -> Route -> Route -> GuardAct)
    (production : bool) (more : list Call) :
  forall w, kept_sound w -> ready (history w) = true ->
            ready (history (perform_all guard_act async_act production w more))
            = true.
Proof.
  induction more as [|c more IH]; intros w Hkept Hready; [exact Hready|].
  change (perform_all guard_act async_act production w (c :: more))
    with (perform_all guard_act async_act production
            (perform guard_act async_act production w c) more).
  apply IH; [now apply perform_kept_sound|].
  pose proof (outcome_Sound guard_act async_act production w c Hkept) as Hsound.
  unfold perform. cbn [history].
  destruct c;
    try (apply Sound_fires in Hsound; destruct Hsound as (_ & _ & Hfires);
         rewrite Hready in Hfires; apply Hfires).
  cbn [outcome_of]. rewrite onReady_outcome, Hready. exact Hready.
Qed.

(** X26: once a history is ready it stays ready, whatever is called on it
    afterwards: transitions that abort or are superseded, registrations, and
    continuations that guards kept, in any order. *)
Theorem ready_never_reverts
    (guard_act : GuardRef -> option Instance -> Route -> Route -> GuardAct)
    (async_act : list RouteRecord -> Route -> Route -> GuardAct)
    (production : bool) (r : Router) (calls more : list Call) :
  ready (history (perform_all guard_act async_act production (start r) calls))
  = true ->
  ready (history (perform_all guard_act async_act production (start r)
                    (calls ++ more))) = true.
Proof.
  intros Hready. unfold perform_all. rewrite fold_left_app.
  apply ready_kept; [|exact Hready].
  assert (Hstart : kept_sound (start r)) by (intros k []).
  apply (run_waiting guard_act async_act production 0 calls (start r) Hstart).
Qed.

Lemma ready_never_reverts_witness :
  ready (history (perform_all confirming_guards idle_resolver false
                    (start sample_router)
                    ([do_transitionTo (RawPath "/a") None None]
                     ++ [do_transitionTo (RawPath "/b") None (Some 5);
                         say_next 0 (NBool false)]))) = true.
Proof.
  apply (ready_never_reverts confirming_guards idle_resolver false sample_router
           [do_transitionTo (RawPath "/a") None None]
           [do_transitionTo (RawPath "/b") None (Some 5); say_next 0 (NBool false)]).
  reflexivity.
Defined.

(** ** From a route to one next to it *)

Lemma formatMatch_loop_app :
  forall (record : RouteRecord) (res : list RouteRecord),
    formatMatch_loop record res = formatMatch_loop record [] ++ res.
Proof.
  fix IH 1. intros [ref p n mt [up|] be cs ins] res; simpl.
  - rewrite (IH up (_ :: res)), (IH up [_]). now rewrite <- app_assoc.
  - reflexivity.
Qed.

Lemma formatMatch_child (record up : RouteRecord) :
  parent record = Some up ->
  formatMatch (Some record) = formatMatch (Some up) ++ [record].
Proof.
  intros H. unfold formatMatch. destruct record as [ref p n mt up' be cs ins].
  simpl in H. subst up'. simpl. apply formatMatch_loop_app.
Qed.

(** The chains [l ++ xs] and [l ++ ys] differ first where [xs] and [ys]
    start, when these start with different records or one of them is empty
    and the other is not. *)
Lemma resolveQueue_common (l xs ys : list RouteRecord) :
  differ (nth_error xs 0) (nth_error ys 0) = true ->
  resolveQueue (l ++ xs) (l ++ ys)
  = {| updated := l; activated := ys; deactivated := xs |}.
Proof.
  intros Hdiffer. unfold resolveQueue.
  set (max := Nat.max (List.length (l ++ xs)) (List.length (l ++ ys))).
  set (i := resolveQueue_loop (l ++ xs) (l ++ ys) max 0).
  assert (Hat : forall j, nth_error (l ++ xs) (List.length l + j) = nth_error xs j
                          /\ nth_error (l ++ ys) (List.length l + j) = nth_error ys j).
  { intros j. split; rewrite nth_error_app2 by lia; f_equal; lia. }
  assert (Hi : i = List.length l).
  { pose proof (resolveQueue_loop_bounds (l ++ xs) (l ++ ys) max 0) as Hb.
    fold i in Hb.
    destruct (Nat.lt_trichotomy i (List.length l)) as [Hlt|[Heq|Hgt]];
      [|exact Heq|].
    - assert (Hstop : differ (nth_error (l ++ xs) i) (nth_error (l ++ ys) i) = true).
      { apply (resolveQueue_loop_stops (l ++ xs) (l ++ ys) max 0). fold i.
        subst max. rewrite !length_app. lia. }
      rewrite !nth_error_app1 in Hstop by exact Hlt.
      rewrite differ_refl in Hstop. discriminate.
    - assert (Hsame : differ (nth_error (l ++ xs) (List.length l))
                             (nth_error (l ++ ys) (List.length l)) = false).
      { apply (resolveQueue_loop_same (l ++ xs) (l ++ ys) max 0). fold i. lia. }
      destruct (Hat 0) as [Hx Hy]. rewrite Nat.add_0_r in Hx, Hy.
      rewrite Hx, Hy in Hsame. congruence. }
  rewrite Hi. f_equal.
  - rewrite firstn_app, Nat.sub_diag, firstn_all. simpl. apply app_nil_r.
  - rewrite skipn_app, Nat.sub_diag, skipn_all. reflexivity.
  - rewrite skipn_app, Nat.sub_diag, skipn_all. reflexivity.
Qed.

(** X27: between two routes whose records are different children of the
    same record, the records down to the parent are updated, the record of
    the route one leaves is deactivated and the record of the route one goes
    to is activated, and no other. *)
Theorem sibling_navigation (up from to : RouteRecord) :
  parent from = Some up -> parent to = Some up -> same_record from to = false ->
  resolveQueue (formatMatch (Some from)) (formatMatch (Some to))
  = {| updated := formatMatch (Some up); activated := [to]; deactivated := [from] |}.
Proof.
  intros Hfrom Hto Hdiffer.
  rewrite (formatMatch_child from up Hfrom), (formatMatch_child to up Hto).
  apply resolveQueue_common. simpl. now rewrite Hdiffer.
Qed.

Definition sample_record (ref : nat) (p : string) (up : option RouteRecord)
    : RouteRecord :=
  {| record_ref := ref; record_path := p; record_name := None; record_meta := [];
     parent := up; beforeEnter := None; components := []; instances := [] |}.

Lemma sibling_navigation_witness :
  let root := sample_record 1 "/app" None in
  resolveQueue (formatMatch (Some (sample_record 2 "/app/a" (Some root))))
               (formatMatch (Some (sample_record 3 "/app/b" (Some root))))
  = {| updated := [root];
       activated := [sample_record 3 "/app/b" (Some root)];
       deactivated := [sample_record 2 "/app/a" (Some root)] |}.
Proof.
  apply (sibling_navigation (sample_record 1 "/app" None)
           (sample_record 2 "/app/a" (Some (sample_record 1 "/app" None)))
           (sample_record 3 "/app/b" (Some (sample_record 1 "/app" None))));
    reflexivity.
Defined.

(** ** A guard that throws *)

Lemma walk_app
    (guard_act : GuardRef -> option Instance -> Route -> Route -> GuardAct)
    (async_act : list RouteRecord -> Route -> Route -> GuardAct)
    (production : bool) (route current : Route) (onAbort : option Callback)
    (q1 q2 : list (option NavigationGuard)) (done : M) :
  walk guard_act async_act production route current onAbort (q1 ++ q2) done
  = walk guard_act async_act production route current onAbort q1
      (walk guard_act async_act production route current onAbort q2 done).
Proof. unfold walk. rewrite !runQueue_fold. apply fold_right_app. Qed.

(** X28: when the guards of the first queue confirm up to one that throws,
    [transitionTo] calls them in order, then aborts with what was thrown: an
    error goes to the callbacks of [onError] in their order, or to the console
    if there is none; [onAbort] is called with it; if what was thrown is
    truthy and the history was not ready, the history is made ready and the
    ready-error callbacks are called.  No later guard is called, the route
    one is at does not change, and the candidate stays pending. *)
Theorem transition_aborts_on_throw
    (guard_act : GuardRef -> option Instance -> Route -> Route -> GuardAct)
    (async_act : list RouteRecord -> Route -> Route -> GuardAct)
    (production : bool) (location : RawLocation)
    (onComplete onAbort : option Callback) (h : History)
    (before after : list (option NavigationGuard)) (hook : NavigationGuard)
    (e : NextArg) :
  let route := router_match (router h) location (current h) in
  isSameRoute route (Some (current h))
  && (List.length (matched route) =? List.length (matched (current h))) = false ->
  guard_queue h route = before ++ Some hook :: after ->
  forallb (confirms guard_act async_act route (current h)) before = true ->
  hook_act guard_act async_act route (current h) hook = Throws e ->
  transitionTo guard_act async_act production location onComplete onAbort h
  = Out (abort_state e (set_pending (Some route) h))
        (map (called route (current h)) (hooks_of before)
         ++ called route (current h) hook :: abort_log production onAbort e h)
        [] None.
Proof.
  intros route Hdiffers Hqueue Hbefore Hthrows.
  unfold transitionTo. fold route.
  rewrite confirmTransition_runs_guard_queue by exact Hdiffers.
  set (h1 := set_pending (Some route) h).
  assert (Hpending : is_pending h1 route = true).
  { unfold is_pending, h1. simpl. apply Nat.eqb_refl. }
  assert (Hposts : flat_map (post_enter_of guard_act route (current h))
                     (rev (hooks_of before)) = []).
  { pose proof (guard_queue_leaves_nothing guard_act route (current h) h route) as H.
    rewrite Hqueue, hooks_of_app, rev_app_distr, flat_map_app in H.
    now apply app_eq_nil in H as [_ H]. }
  rewrite Hqueue.
  change (runQueue (before ++ Some hook :: after) ?f ?d h1)
    with (walk guard_act async_act production route (current h) onAbort
            (before ++ Some hook :: after) d h1).
  rewrite walk_app, walk_confirms;
    [|intros h'; apply walk_quiet; intros h''; apply enter_phase_quiet
     |exact Hbefore|exact Hpending].
  rewrite Hposts, app_nil_r.
  assert (Hhook : forall next,
            iterator guard_act async_act production route (current h)
              (Some (transition_abort onAbort)) hook next h1
            = Out (abort_state e h1)
                  (called route (current h) hook :: abort_log production onAbort e h1)
                  [] None).
  { intros next. unfold iterator. rewrite Hpending. cbn [negb].
    unfold call. destruct hook as [g|g instance|g m key|activated];
      cbn [hook_act] in Hthrows; rewrite Hthrows;
      unfold act, try_catch, throw; rewrite andThen_emit, abort_outcome;
      reflexivity. }
  unfold walk at 1 2 3. rewrite runQueue_fold. cbn [fold_right slot].
  rewrite Hhook. reflexivity.
Qed.

Definition second_throws : GuardRef -> option Instance -> Route -> Route -> GuardAct :=
  fun g _ _ _ => if g =? 2 then Throws (NError "boom") else Calls NUndefined.

Definition two_hooks : Router :=
  {| router_app := false; beforeHooks := [Some 1; Some 2; Some 3];
     resolveHooks := []; afterHooks := []; router_match := fun _ _ => route_at 2 "/a" |}.

Lemma transition_aborts_on_throw_witness :
  transitionTo second_throws idle_resolver true (RawPath "/a") None (Some 12)
    (set_errorCbs [21; 22] (new_History two_hooks))
  = Out (set_ready true
           (set_pending (Some (route_at 2 "/a"))
              (set_errorCbs [21; 22] (new_History two_hooks))))
        [GuardCalled 1 None (route_at 2 "/a") START;
         GuardCalled 2 None (route_at 2 "/a") START;
         ErrorCb 21 (NError "boom"); ErrorCb 22 (NError "boom");
         Abort 12 (NError "boom")]
        [] None.
Proof.
  exact (transition_aborts_on_throw second_throws idle_resolver true (RawPath "/a")
           None (Some 12) (set_errorCbs [21; 22] (new_History two_hooks))
           [Some (Guard 1)] [Some (Guard 3); Some (asyncResolver [])] (Guard 2)
           (NError "boom") eq_refl eq_refl eq_refl eq_refl).
Defined.

(** ** [parseQuery]: the delimiter in front of the query *)

(** [w] is a prefix of [y]: what [strip_one] leaves is the rest. *)
Lemma prefix_rest (w y : string) :
  String.prefix w y = true ->
  y = (w ++ substring (String.length w) (String.length y - String.length w) y)%string.
Proof.
  revert y. induction w as [|a w IH]; intros y H.
  - simpl. rewrite Nat.sub_0_r. now rewrite substring_all.
  - destruct y as [|b y]; [discriminate|]. cbn [String.prefix] in H.
    destruct (ascii_dec a b) as [->|]; [|discriminate].
    cbn [String.length Nat.sub append substring]. f_equal. now apply IH.
Qed.

(** The last character of a string is [a]. *)
Fixpoint ends_with (a : ascii) (w : string) : bool :=
  match w with
  | EmptyString => false
  | String c EmptyString => Ascii.eqb c a
  | String _ rest => ends_with a rest
  end.

Lemma prefix_snoc (a : ascii) (w y : string) :
  nonempty w = true -> ends_with a w = false ->
  String.prefix w (y ++ String a EmptyString) = String.prefix w y.
Proof.
  revert y. induction w as [|c w IH]; intros y Hne Hend; [discriminate|].
  destruct y as [|b y]; cbn [append String.prefix].
  - destruct (ascii_dec c a) as [->|]; [|reflexivity].
    destruct w as [|c' w]; [|reflexivity].
    simpl in Hend. now rewrite Ascii.eqb_refl in Hend.
  - destruct (ascii_dec c b); [|reflexivity].
    destruct w as [|c' w]; [now destruct y|].
    apply IH; [reflexivity|exact Hend].
Qed.

Lemma length_append (s t : string) :
  String.length (s ++ t) = String.length s + String.length t.
Proof. induction s as [|c s IH]; simpl; congruence. Qed.

Lemma append_cancel (w r r' : string) : (w ++ r = w ++ r')%string -> r = r'.
Proof. induction w as [|c w IH]; simpl; [auto|]. intros H. apply IH. congruence. Qed.

Section TrimEnd.

Variables (a : ascii) (ws : list string).
Hypothesis ws_nonempty : forallb nonempty ws = true.
Hypothesis ws_end : forallb (fun w => negb (ends_with a w)) ws = true.

Lemma strip_one_snoc (y : string) :
  strip_one ws (y ++ String a EmptyString)
  = match strip_one ws y with
    | Some rest => Some (rest ++ String a EmptyString)%string
    | None => None
    end.
Proof.
  induction ws as [|w ws' IH]; [reflexivity|].
  cbn [forallb] in ws_nonempty, ws_end.
  apply andb_prop in ws_nonempty as [Hne Hnes].
  apply andb_prop in ws_end as [Hend Hends]. apply negb_true_iff in Hend.
  cbn [strip_one]. rewrite (prefix_snoc a w y Hne Hend).
  destruct (String.prefix w y) eqn:Hp; [|now apply IH].
  f_equal. pose proof (prefix_rest w y Hp) as Hy.
  assert (Hp' : String.prefix w (y ++ String a EmptyString) = true)
    by now rewrite (prefix_snoc a w y Hne Hend).
  pose proof (prefix_rest w _ Hp') as Hy'.
  rewrite Hy in Hy' at 1. rewrite append_assoc in Hy'.
  now apply append_cancel in Hy'.
Qed.

Lemma trim_start_fuel_snoc (fuel : nat) (y : string) :
  trim_start_fuel fuel ws (y ++ String a EmptyString)
  = (trim_start_fuel fuel ws y ++ String a EmptyString)%string.
Proof.
  revert y. induction fuel as [|fuel IH]; intros y; [reflexivity|].
  cbn [trim_start_fuel]. rewrite strip_one_snoc.
  destruct (strip_one ws y); [apply IH|reflexivity].
Qed.

Lemma strip_one_shorter (y rest : string) :
  strip_one ws y = Some rest -> String.length rest < String.length y.
Proof.
  clear ws_end. induction ws as [|w ws' IH]; [discriminate|].
  cbn [forallb] in ws_nonempty. apply andb_prop in ws_nonempty as [Hne Hnes].
  cbn [strip_one]. destruct (String.prefix w y) eqn:Hp; [|now apply IH].
  intros H. injection H as <-. pose proof (prefix_rest w y Hp) as Hy.
  apply (f_equal String.length) in Hy. rewrite length_append in Hy.
  destruct w; [discriminate|]. simpl in Hy. simpl. lia.
Qed.

Lemma trim_start_fuel_enough (fuel : nat) (y : string) :
  String.length y <= fuel -> trim_start_fuel fuel ws y = trim_start ws y.
Proof.
  unfold trim_start.
  assert (H : forall n m y, String.length y <= n -> String.length y <= m ->
                            trim_start_fuel n ws y = trim_start_fuel m ws y).
  { induction n as [|n IH]; intros m z Hn Hm.
    - destruct z; [|simpl in Hn; lia]. destruct m; [reflexivity|].
      cbn [trim_start_fuel]. destruct (strip_one ws "") eqn:E; [|reflexivity].
      apply strip_one_shorter in E. simpl in E. lia.
    - destruct m as [|m].
      + destruct z; [|simpl in Hm; lia].
        cbn [trim_start_fuel]. destruct (strip_one ws "") eqn:E; [|reflexivity].
        apply strip_one_shorter in E. simpl in E. lia.
      + cbn [trim_start_fuel]. destruct (strip_one ws z) eqn:E; [|reflexivity].
        apply strip_one_shorter in E. apply IH; lia. }
  intros Hfuel. apply H; [exact Hfuel|lia].
Qed.

Lemma trim_start_snoc (y : string) :
  trim_start ws (y ++ String a EmptyString)
  = (trim_start ws y ++ String a EmptyString)%string.
Proof.
  unfold trim_start at 1. rewrite trim_start_fuel_snoc.
  rewrite trim_start_fuel_enough; [reflexivity|].
  rewrite length_append. lia.
Qed.

End TrimEnd.

(** What [trimStart] leaves is the end of the string. *)
Lemma trim_start_end (ws : list string) (y : string) :
  exists p, y = (p ++ trim_start ws y)%string.
Proof.
  unfold trim_start. generalize (String.length y) as fuel. intros fuel.
  revert y. induction fuel as [|fuel IH]; intros y; [now exists ""|].
  cbn [trim_start_fuel]. destruct (strip_one ws y) as [rest|] eqn:E; [|now exists ""].
  assert (Hw : exists w, y = (w ++ rest)%string).
  { clear IH. induction ws as [|w ws' IHw]; [discriminate|].
    cbn [strip_one] in E. destruct (String.prefix w y) eqn:Hp; [|now apply IHw].
    injection E as <-. exists w. now apply prefix_rest. }
  destruct Hw as [w ->]. destruct (IH rest) as [p Hp].
  exists (w ++ p)%string. rewrite append_assoc. now rewrite <- Hp.
Qed.

(** The string starts with white space. *)
Definition leading_space (s : string) : bool :=
  match strip_one white_space s with Some _ => true | None => false end.

Lemma string_rev_cons (c : ascii) (s : string) :
  string_rev (String c s) = (string_rev s ++ String c EmptyString)%string.
Proof.
  change (String c s) with (String c EmptyString ++ s)%string.
  now rewrite string_rev_app.
Qed.

(** [trim] with a delimiter in front: the delimiter stays, and what follows
    it is trimmed at its end as it would be alone. *)
Lemma trim_lead (lead : ascii) (s : string) :
  one_of "?#&" lead = true -> leading_space s = false ->
  trim (String lead s) = String lead (trim s)
  /\ exists p, s = (trim s ++ p)%string.
Proof.
  intros Hlead Hspace. unfold leading_space in Hspace.
  assert (Hs : trim_start white_space s = s).
  { apply trim_start_none. now destruct (strip_one white_space s). }
  assert (Hl : trim_start white_space (String lead s) = String lead s).
  { apply trim_start_none, strip_one_none.
    destruct lead as [[] [] [] [] [] [] [] []]; try discriminate Hlead; reflexivity. }
  unfold trim. rewrite Hs, Hl. split.
  - rewrite string_rev_cons, (trim_start_snoc lead).
    + rewrite string_rev_app. reflexivity.
    + reflexivity.
    + destruct lead as [[] [] [] [] [] [] [] []]; try discriminate Hlead; reflexivity.
  - destruct (trim_start_end (map string_rev white_space) (string_rev s)) as [p Hp].
    exists (string_rev p). rewrite <- string_rev_app, <- Hp.
    now rewrite string_rev_involutive.
Qed.

(** X29: one [?], [#] or [&] in front of a query string is dropped, and one
    only: for a string that starts neither with white space nor with one of
    the three, [parseQuery] reads the string with the delimiter in front as
    it reads the string alone. *)
Theorem parseQuery_leading_delimiter (lead : ascii) (s : string) :
  one_of "?#&" lead = true ->
  leading_space s = false ->
  match s with String c _ => negb (one_of "?#&" c) | EmptyString => true end = true ->
  parseQuery (String lead s) = parseQuery s.
Proof.
  intros Hlead Hspace Hfirst. unfold parseQuery.
  destruct (trim_lead lead s Hlead Hspace) as [-> [p Hp]].
  assert (Hdrop : strip_lead (String lead (trim s)) = trim s)
    by (unfold strip_lead; now rewrite Hlead).
  assert (Hstrip : strip_lead (trim s) = trim s).
  { destruct (trim s) as [|c t]; [reflexivity|].
    rewrite Hp in Hfirst. cbn [append] in Hfirst.
    apply negb_true_iff in Hfirst. unfold strip_lead. now rewrite Hfirst. }
  now rewrite Hdrop, Hstrip.
Qed.

Lemma parseQuery_leading_delimiter_witness :
  parseQuery "?a=1&b " = parseQuery "a=1&b ".
Proof.
  apply (parseQuery_leading_delimiter "?" "a=1&b "); reflexivity.
Defined.

(** ** A transition that does not commit tells nobody that it did *)

(** The events of a commit: the listener, an after-hook, [onComplete], a
    ready callback, [$nextTick]. *)
Definition is_commit_event (e : Event) : bool :=
  match e with
  | Listener _ _ | AfterHook _ _ _ | Complete _ _ | ReadyCb _ _ | NextTick _ => true
  | _ => false
  end.

Definition silent (log : list Event) : bool :=
  forallb (fun e => negb (is_commit_event e)) log.

(** A computation that causes no event of a commit. *)
Definition stays_silent (m : M) : Prop := forall h, silent (log_of (m h)) = true.

Lemma silent_app (l1 l2 : list Event) : silent (l1 ++ l2) = silent l1 && silent l2.
Proof. apply forallb_app. Qed.

Lemma stays_silent_andThen (m1 m2 : M) :
  stays_silent m1 -> stays_silent m2 -> stays_silent (m1 ;; m2).
Proof.
  intros H1 H2 h. unfold andThen. specialize (H1 h).
  destruct (m1 h) as [h1 l1 k1 [e|]]; [exact H1|].
  specialize (H2 h1). destruct (m2 h1) as [h2 l2 k2 e2]. simpl in *.
  now rewrite silent_app, H1, H2.
Qed.

Lemma stays_silent_try_catch (m : M) (handler : NextArg -> M) :
  stays_silent m -> (forall e, stays_silent (handler e)) ->
  stays_silent (try_catch m handler).
Proof.
  intros H1 H2 h. unfold try_catch. specialize (H1 h).
  destruct (m h) as [h1 l1 k1 [e|]]; [|exact H1].
  specialize (H2 e h1). destruct (handler e h1) as [h2 l2 k2 e2]. simpl in *.
  now rewrite silent_app, H1, H2.
Qed.

Lemma silent_map {A : Type} (event : A -> Event) (l : list A) :
  (forall x, is_commit_event (event x) = false) -> silent (map event l) = true.
Proof.
  intros H. unfold silent. rewrite forallb_forall. intros e He.
  apply in_map_iff in He as (x & <- & _). now rewrite H.
Qed.

Lemma stays_silent_abort (production : bool) (onAbort : option Callback)
    (err : NextArg) :
  stays_silent (abort production (Some (transition_abort onAbort)) err).
Proof.
  intros h. rewrite abort_outcome. cbn [log_of]. unfold abort_log.
  rewrite !silent_app.
  assert (H1 : silent (if isError err then
                         match errorCbs h with
                         | [] => (if production then []
                                  else [ConsoleWarn "[vue-router] uncaught error during route navigation:"])
                                 ++ [ConsoleError err]
                         | cbs => map (fun f => ErrorCb f err) cbs
                         end
                       else []) = true).
  { destruct (isError err); [|reflexivity].
    destruct (errorCbs h) as [|f cbs]; [now destruct production|].
    now apply (silent_map (fun f => ErrorCb f err)). }
  assert (H2 : silent match onAbort with Some f => [Abort f err] | None => [] end
               = true) by now destruct onAbort.
  assert (H3 : silent (if truthy_arg err && negb (ready h)
                       then map (fun f => ReadyErrorCb f err) (readyErrorCbs h)
                       else []) = true).
  { destruct (_ && _); [|reflexivity].
    now apply (silent_map (fun f => ReadyErrorCb f err)). }
  now rewrite H1, H2, H3.
Qed.

Lemma stays_silent_emit (e : Event) :
  is_commit_event e = false -> stays_silent (emit e).
Proof. intros He h. unfold silent. simpl. now rewrite He. Qed.

Lemma stays_silent_refusal (production : bool) (onAbort : option Callback)
    (to : NextArg) (next : M) :
  passes to = false -> redirect_target to = None ->
  stays_silent (guard_next production (Some (transition_abort onAbort)) to next).
Proof.
  intros Hto Hr.
  destruct to as [| |[|]|s|message|f|l]; try discriminate.
  - intros h. reflexivity.
  - apply (stays_silent_andThen (ensureURL true));
      [now apply stays_silent_emit|apply stays_silent_abort].
  - apply (stays_silent_andThen (ensureURL true));
      [now apply stays_silent_emit|apply stays_silent_abort].
  - simpl in Hto, Hr. apply negb_false_iff in Hto. rewrite Hto in Hr. discriminate.
Qed.

Section Uncommitted.

Variable guard_act : GuardRef -> option Instance -> Route -> Route -> GuardAct.
Variable async_act : list RouteRecord -> Route -> Route -> GuardAct.
Variable production : bool.
Variables (route from : Route) (onAbort : option Callback).

(** The call left the history at [route], with nothing pending. *)
Definition committed (o : Outcome) : Prop :=
  pending (state_of o) = None /\ same_route (current (state_of o)) route = true.

(** A hook that does not confirm, in a call that does not redirect, causes
    no event of a commit. *)
Lemma iterator_refusal_silent (hook : NavigationGuard) (next : M) (h : History) :
  confirms guard_act async_act route from (Some hook) = false ->
  redirects (log_of (iterator guard_act async_act production route from
                       (Some (transition_abort onAbort)) hook next h)) = false ->
  silent (log_of (iterator guard_act async_act production route from
                    (Some (transition_abort onAbort)) hook next h)) = true.
Proof.
  intros Hrefuses. unfold iterator.
  destruct (is_pending h route); cbn [negb]; [|intros _; apply stays_silent_abort].
  unfold confirms in Hrefuses.
  destruct (hook_act guard_act async_act route from hook) as [to|thrown|] eqn:Hact.
  - destruct (refusal_cases to Hrefuses) as [[Hr _]|(raw & by_replace & Hs & Hr)].
    + intros _.
      apply stays_silent_try_catch; [|intros e; apply stays_silent_abort].
      destruct hook as [g|g instance|g m key|activated]; cbn [hook_act] in Hact;
        unfold call; rewrite Hact;
        (apply stays_silent_andThen; [now apply stays_silent_emit|]);
        unfold act; try (now apply stays_silent_refusal).
      apply stays_silent_andThen; [now apply stays_silent_refusal|].
      destruct to; intros h'; reflexivity.
    + intros Hnone. exfalso.
      pose proof (guard_next_redirects production onAbort to next) as Hnext.
      assert (Hlog : redirects
                (log_of (try_catch
                           (call guard_act async_act hook route from
                              (fun to => guard_next production
                                           (Some (transition_abort onAbort)) to next))
                           (fun e => abort production
                                       (Some (transition_abort onAbort)) e) h))
              = true).
      { apply redirects_try_catch.
        destruct hook as [g|g instance|g m key|activated]; cbn [hook_act] in Hact;
          unfold call; rewrite Hact; apply redirects_after_emit; unfold act;
          try (now apply (Hnext _ raw by_replace)).
        apply redirects_andThen. now apply (Hnext _ raw by_replace). }
      congruence.
  - intros _.
    apply stays_silent_try_catch; [|intros e; apply stays_silent_abort].
    destruct hook as [g|g instance|g m key|activated]; cbn [hook_act] in Hact;
      unfold call; rewrite Hact;
      (apply stays_silent_andThen; [now apply stays_silent_emit|]);
      intros h'; reflexivity.
  - intros _.
    apply stays_silent_try_catch; [|intros e; apply stays_silent_abort].
    destruct hook as [g|g instance|g m key|activated]; cbn [hook_act] in Hact;
      unfold call; rewrite Hact;
      (apply stays_silent_andThen; [now apply stays_silent_emit|]);
      intros h'; reflexivity.
Qed.

Lemma called_silent (hook : NavigationGuard) :
  is_commit_event (called route from hook) = false.
Proof. now destruct hook. Qed.

Lemma post_enter_silent (hook : NavigationGuard) :
  silent (post_enter_of guard_act route from hook) = true.
Proof.
  destruct hook as [g|g instance|g m key|activated]; try reflexivity.
  simpl. destruct (guard_act g None route from) as [[]| |]; reflexivity.
Qed.

Lemma walk_silent_or_commits (queue : list (option NavigationGuard)) (done : M) :
  (forall h, thrown_of (done h) = None) ->
  (forall h, is_pending h route = true ->
             redirects (log_of (done h)) = false ->
             silent (log_of (done h)) = true \/ committed (done h)) ->
  forall h, is_pending h route = true ->
            redirects (log_of (walk guard_act async_act production route from
                                 onAbort queue done h)) = false ->
            silent (log_of (walk guard_act async_act production route from
                              onAbort queue done h)) = true
            \/ committed (walk guard_act async_act production route from
                            onAbort queue done h).
Proof.
  intros Hquiet Hdone h Hpending.
  assert (Hrest : forall q h',
            thrown_of
              (fold_right (slot (iterator guard_act async_act production route
                                   from (Some (transition_abort onAbort))))
                 done q h') = None).
  { intros q h'.
    pose proof (walk_quiet guard_act async_act production route from onAbort
                  q done Hquiet h') as H.
    unfold walk in H. now rewrite runQueue_fold in H. }
  unfold walk. rewrite runQueue_fold.
  induction queue as [|[hook|] queue IH]; cbn [fold_right slot]; intros Hdirect.
  - now apply Hdone.
  - destruct (confirms guard_act async_act route from (Some hook)) eqn:Hhook.
    + rewrite iterator_confirms in Hdirect |- * by auto.
      unfold committed. cbn [log_of state_of] in Hdirect |- *.
      change (called route from hook :: ?l)
        with ([called route from hook] ++ l) in Hdirect.
      rewrite !redirects_app in Hdirect.
      apply orb_false_iff in Hdirect as [_ Hdirect].
      apply orb_false_iff in Hdirect as [Hdirect _].
      destruct (IH Hdirect) as [Hsilent|Hcommit]; [left|now right].
      cbn [silent forallb]. fold (silent (log_of
        (fold_right (slot (iterator guard_act async_act production route from
                             (Some (transition_abort onAbort)))) done queue h)
        ++ post_enter_of guard_act route from hook)).
      now rewrite called_silent, silent_app, Hsilent, post_enter_silent.
    + left. now apply iterator_refusal_silent.
  - now apply IH.
Qed.

End Uncommitted.

(** X30: a call of [transitionTo] in which no guard redirects (it calls
    neither [push] nor [replace]) either commits (the history is left at the
    candidate route with nothing pending) or tells nobody that it did: the
    listener, the after-hooks, [onComplete], the ready callbacks and
    [$nextTick] are not called by a transition that is the same route, that a
    guard refuses or holds, or that fails. *)
Theorem uncommitted_is_silent
    (guard_act : GuardRef -> option Instance -> Route -> Route -> GuardAct)
    (async_act : list RouteRecord -> Route -> Route -> GuardAct)
    (production : bool) (location : RawLocation)
    (onComplete onAbort : option Callback) (h : History) :
  let route := router_match (router h) location (current h) in
  let o := transitionTo guard_act async_act production location onComplete
             onAbort h in
  redirects (log_of o) = false ->
  silent (log_of o) = true
  \/ (pending (state_of o) = None /\ same_route (current (state_of o)) route = true).
Proof.
  intros route o. subst o. unfold transitionTo. fold route.
  destruct (isSameRoute route (Some (current h))
            && (List.length (matched route) =? List.length (matched (current h))))
    eqn:Hsame.
  - intros _. left. unfold confirmTransition. rewrite Hsame.
    apply (stays_silent_andThen (ensureURL false));
      [now apply stays_silent_emit|apply stays_silent_abort].
  - rewrite confirmTransition_runs_guard_queue by exact Hsame.
    set (h1 := set_pending (Some route) h).
    assert (Hpending : is_pending h1 route = true).
    { unfold is_pending, h1. simpl. apply Nat.eqb_refl. }
    apply (walk_silent_or_commits guard_act async_act production route (current h)
             onAbort (guard_queue h route)); [| |exact Hpending].
    + intros h'. apply enter_phase_quiet.
    + intros h' Hh'. unfold enter_phase.
      apply (walk_silent_or_commits guard_act async_act production route
               (current h) onAbort); [| |exact Hh'].
      * intros h''. rewrite confirmed_outcome. now destruct (is_pending h'' route).
      * intros h'' Hh'' _. right. rewrite confirmed_outcome, Hh''.
        unfold committed, complete_state. cbn [state_of].
        destruct (ready h''); simpl; split; try reflexivity;
          unfold same_route; apply Nat.eqb_refl.
Qed.

Lemma uncommitted_is_silent_witness :
  let o := transitionTo second_throws idle_resolver true (RawPath "/a") None
             (Some 12) (set_errorCbs [21; 22] (new_History two_hooks)) in
  silent (log_of o) = true
  \/ (pending (state_of o) = None
      /\ same_route (current (state_of o)) (route_at 2 "/a") = true).
Proof.
  exact (uncommitted_is_silent second_throws idle_resolver true (RawPath "/a")
           None (Some 12) (set_errorCbs [21; 22] (new_History two_hooks)) eq_refl).
Defined.
